(** * pip-tools: utilities and command-line entry points

    A shallow embedding of [piptools/utils.py], [piptools/logging.py],
    [piptools/scripts/compile.py] and [piptools/scripts/sync.py], with the
    properties of the requirement helpers and of the two [cli] functions.

    Python strings are modelled as [string] (package names, versions and
    option names are ASCII), dictionaries that are only looked up as [gmap],
    dictionaries whose iteration order is observable as association lists,
    sets as [gset], exceptions as the [Raise] case of an error monad. *)

From Stdlib Require Import Ascii ZArith.
From stdpp Require Import base gmap strings list sorting.

Local Open Scope Z_scope.

(** ** Python strings *)

Module PyStr.

Definition is_upper (c : ascii) : bool :=
  (Ascii.leb "A" c && Ascii.leb c "Z")%char.

(** [chr(ord(c) + 32)] on the upper-case ASCII letters, identity elsewhere. *)
Definition lower_char (c : ascii) : ascii :=
  if is_upper c then ascii_of_N (N_of_ascii c + 32) else c.

(** [str.lower()] *)
Fixpoint lower (s : string) : string :=
  match s with
  | EmptyString => EmptyString
  | String c s' => String (lower_char c) (lower s')
  end.

(** [str.replace(old, new)] for one-character [old] and [new]. *)
Fixpoint replace (old new : ascii) (s : string) : string :=
  match s with
  | EmptyString => EmptyString
  | String c s' =>
      String (if Ascii.eqb c old then new else c) (replace old new s')
  end.

(** [str.endswith(suffix)] *)
Fixpoint endswith (s suffix : string) : bool :=
  if String.eqb s suffix then true
  else match s with
       | EmptyString => false
       | String _ s' => endswith s' suffix
       end.

(** [sep.join(parts)] *)
Fixpoint join (sep : string) (parts : list string) : string :=
  match parts with
  | [] => EmptyString
  | [p] => p
  | p :: ps => p +:+ sep +:+ join sep ps
  end.

(** [sorted(xs)] on strings: ascending code-point order. *)
Definition sorted (xs : list string) : list string :=
  merge_sort String.le xs.

(** The characters of a string, as [for ch in s] yields them. *)
Fixpoint chars (s : string) : list string :=
  match s with
  | EmptyString => []
  | String c s' => String c EmptyString :: chars s'
  end.

End PyStr.

(** ** Exceptions and results *)

Inductive exn : Type :=
  | AssertionError
  | TypeError (msg : string)
  | NameError (name : string)
  | AttributeError (attr : string)
  | StopIteration
  | SystemExit (code : Z)
  | PipToolsError (msg : string)
  | OtherError (msg : string).

Inductive result (A : Type) : Type :=
  | Ok (a : A)
  | Raise (e : exn).
Arguments Ok {A} a.
Arguments Raise {A} e.

Definition rbind {A B} (r : result A) (k : A → result B) : result B :=
  match r with
  | Ok a => k a
  | Raise e => Raise e
  end.

(** ** The requirement objects of pip and packaging, as utils.py reads them *)

(** One clause of a specifier set, such as [>=1.0]. *)
Record Specifier : Type := {
  operator : string;
  version : string;
}.

(** [packaging.requirements.Requirement].  [specifier] lists the members of
    the [SpecifierSet], which [len] counts and [iter] enumerates. *)
Record Requirement : Type := {
  name : string;
  specifier : list Specifier;
}.

(** [pkg_resources.Distribution] *)
Record Distribution : Type := {
  key : string;
  project_name : string;
}.

(** [pip._internal.models.link.Link]: [url] is the attribute, [link_str] is
    what [str(link)] gives. *)
Record Link : Type := {
  url : string;
  link_str : string;
}.

(** An environment marker, with the value [evaluate()] has on this platform. *)
Record Marker : Type := {
  marker_text : string;
  evaluate : bool;
}.

(** [pip._internal.req.InstallRequirement].  [hash_options] is a dict from
    algorithm to list of digests whose iteration order is observable, so it
    is an association list in insertion order. *)
Record InstallRequirement : Type := {
  req : option Requirement;
  link : option Link;
  editable : bool;
  constraint : bool;
  extras : gset string;
  markers : option Marker;
  hash_options : list (string * list string);
  comes_from : option string;
}.

(** [Union[Distribution, Requirement]], the argument of [key_from_req]. *)
Inductive DistOrReq : Type :=
  | OfDistribution (d : Distribution)
  | OfRequirement (r : Requirement).

(** ** piptools/utils.py *)

(** Lines 50-61. *)
Definition key_from_req (r : DistOrReq) : string :=
  let key0 :=
    match r with
    | OfDistribution d => key d
    | OfRequirement q => name q
    end in
  PyStr.lower (PyStr.replace "_" "-" key0).

(** Lines 42-47; the [assert] fails when there is neither [req] nor link. *)
Definition key_from_ireq (ireq : InstallRequirement) : result string :=
  match req ireq, link ireq with
  | None, Some l => Ok (link_str l)
  | None, None => Raise AssertionError
  | Some q, _ => Ok (key_from_req (OfRequirement q))
  end.

(** [spec.operator in {"==", "==="}] *)
Definition is_pinned_operator (op : string) : bool :=
  bool_decide (op = "==") || bool_decide (op = "===").

(** Lines 129-153; [ireq.specifier] is [ireq.req.specifier]. *)
Definition is_pinned_requirement (ireq : InstallRequirement) : bool :=
  if editable ireq then false
  else
    match req ireq with
    | None => false
    | Some q =>
        if negb (length (specifier q) =? 1)%nat then false
        else
          match specifier q with
          | spec :: _ =>
              is_pinned_operator (operator spec)
              && negb (PyStr.endswith (version spec) ".*")
          | [] => false
          end
    end.

(** Lines 156-167. *)
Definition as_tuple (ireq : InstallRequirement)
  : result (string * string * list string) :=
  if negb (is_pinned_requirement ireq) then
    Raise (TypeError "Expected a pinned InstallRequirement")
  else
    rbind (key_from_ireq ireq) (λ name0,
      match req ireq with
      | None => Raise (AttributeError "specifier")
      | Some q =>
          match specifier q with
          | [] => Raise StopIteration
          | spec :: _ =>
              Ok (name0, version spec, PyStr.sorted (elements (extras ireq)))
          end
      end).

(** [f"[{','.join(sorted(extras))}]"], or nothing when there are no extras. *)
Definition extras_string (extras0 : gset string) : string :=
  if bool_decide (elements extras0 = []) then EmptyString
  else "[" +:+ PyStr.join "," (PyStr.sorted (elements extras0)) +:+ "]".

(** [f"{name}{extras_string}=={version}"] *)
Definition requirement_text (name0 version0 : string) (extras0 : gset string)
  : string :=
  name0 +:+ extras_string extras0 +:+ "==" +:+ version0.

(** Lines 68-79: [make_install_requirement]; pip's [install_req_from_line]
    is the parameter [parse]. *)
Definition make_install_requirement
    (parse : string → bool → result InstallRequirement)
    (name0 version0 : string) (extras0 : gset string) (constraint0 : bool)
  : result InstallRequirement :=
  parse (requirement_text name0 version0 extras0) constraint0.

(** Lines 277-287, the loop of [get_hashes_from_ireq]: [result.append] for
    every digest of every algorithm, in the order of [hash_options.items()]. *)
Definition get_hashes_from_ireq (ireq : InstallRequirement) : list string :=
  foldl (λ result0 '(algorithm, hexdigests),
           foldl (λ result1 hash_, result1 ++ [algorithm +:+ ":" +:+ hash_])
                 result0 hexdigests)
        [] (hash_options ireq).

(** ** Effects: the log, the trace of outward actions, exceptions *)

(** What [sync.sync] does to the outside world. *)
Inductive sync_effect : Type :=
  | Stdout (line : string)
  | Confirm (answer : bool)
  | CheckCall (command : list string).

Inductive event : Type :=
  | Stderr (fore : option string) (line : string)
  | EvParse (filename : string)
  | EvRunSetup (filename : string)
  | EvReadStdin
  | EvTempFile (content : string)
  | EvResolve
  | EvResolveHashes
  | EvOpenWrite (path : string)
  | EvWriterWrite (dry_run : bool)
  | EvInstalledDistributions
  | EvSync (e : sync_effect).

Global Instance sync_effect_eq_dec : EqDecision sync_effect.
Proof. solve_decision. Defined.

Global Instance event_eq_dec : EqDecision event.
Proof. solve_decision. Defined.

(** [piptools.logging.LogContext] *)
Record LogContext : Type := {
  verbosity : Z;
  current_indent : Z;
  _indent_width : Z;
}.

Record State : Type := {
  log : LogContext;
  trace : list event;
}.

(** [log = LogContext()] and nothing done yet. *)
Definition initial_state : State :=
  {| log := {| verbosity := 0; current_indent := 0; _indent_width := 2 |};
     trace := [] |}.

Definition M (A : Type) : Type := State → result A * State.

Definition ret {A} (a : A) : M A := λ s, (Ok a, s).

Definition bind {A B} (m : M A) (k : A → M B) : M B :=
  λ s, match m s with
       | (Ok a, s') => k a s'
       | (Raise e, s') => (Raise e, s')
       end.

Definition raise {A} (e : exn) : M A := λ s, (Raise e, s).

Definition lift {A} (r : result A) : M A := λ s, (r, s).

Definition emit (e : event) : M unit :=
  λ s, (Ok tt, {| log := log s; trace := trace s ++ [e] |}).

Definition get_log : M LogContext := λ s, (Ok (log s), s).

Definition set_log (l : LogContext) : M unit :=
  λ s, (Ok tt, {| log := l; trace := trace s |}).

(** [try: body except PipToolsError as e: handler(e)] *)
Definition try_except_PipToolsError {A} (body : M A) (handler : string → M A)
  : M A :=
  λ s, match body s with
       | (Raise (PipToolsError msg), s') => handler msg s'
       | other => other
       end.

(** [try: body finally: cleanup] *)
Definition try_finally {A} (body : M A) (cleanup : M unit) : M A :=
  λ s, match body s with
       | (r, s') =>
           match cleanup s' with
           | (Ok _, s'') => (r, s'')
           | (Raise e, s'') => (Raise e, s'')
           end
       end.

Notation "'let!' x ':=' m 'in' k" := (bind m (λ x, k))
  (at level 10, x name, m at level 100, k at level 200).
Notation "m '>>' k" := (bind m (λ _, k))
  (at level 100, k at level 200, right associativity).

Fixpoint for_each {A} (xs : list A) (body : A → M unit) : M unit :=
  match xs with
  | [] => ret tt
  | x :: xs' => body x >> for_each xs' body
  end.

Fixpoint map_M {A B} (f : A → M B) (xs : list A) : M (list B) :=
  match xs with
  | [] => ret []
  | x :: xs' => let! y := f x in let! ys := map_M f xs' in ret (y :: ys)
  end.

(** [sys.exit(code)] *)
Definition sys_exit {A} (code : Z) : M A := raise (SystemExit code).

(** The status the interpreter hands to the operating system. *)
Definition exit_status {A} (r : result A) : Z :=
  match r with
  | Ok _ => 0
  | Raise (SystemExit code) => code
  | Raise _ => 1
  end.

(** ** piptools/logging.py *)

Module Log.

Definition RED : string := "RED".
Definition YELLOW : string := "YELLOW".

Fixpoint spaces (n : nat) : string :=
  match n with
  | O => EmptyString
  | S n' => String " " (spaces n')
  end.

(** [LogContext.log]: the style is kept beside the text; [unstyle] drops
    it when stderr is not a terminal. *)
Definition log_ (fore : option string) (message : string) : M unit :=
  let! l := get_log in
  let prefix := spaces (Z.to_nat (current_indent l)) in
  emit (Stderr fore (prefix +:+ message)).

Definition debug (message : string) : M unit :=
  let! l := get_log in
  if (1 <=? verbosity l) then log_ None message else ret tt.

Definition info (message : string) : M unit :=
  let! l := get_log in
  if (0 <=? verbosity l) then log_ None message else ret tt.

Definition warning (message : string) : M unit :=
  log_ (Some YELLOW) message.

Definition error (message : string) : M unit :=
  log_ (Some RED) message.

Definition set_verbosity (v : Z) : M unit :=
  let! l := get_log in
  set_log {| verbosity := v; current_indent := current_indent l;
             _indent_width := _indent_width l |}.

Definition _indent : M unit :=
  let! l := get_log in
  set_log {| verbosity := verbosity l;
             current_indent := current_indent l + _indent_width l;
             _indent_width := _indent_width l |}.

Definition _dedent : M unit :=
  let! l := get_log in
  set_log {| verbosity := verbosity l;
             current_indent := current_indent l - _indent_width l;
             _indent_width := _indent_width l |}.

(** [with log.indentation(): body] *)
Definition indentation {A} (body : M A) : M A :=
  _indent >> try_finally body _dedent.

End Log.

(** ** argparse: declared arguments and the namespace they produce *)

Inductive value : Type :=
  | VNone
  | VBool (b : bool)
  | VInt (z : Z)
  | VStr (s : string)
  | VList (l : list string).

Inductive action : Type :=
  | Store
  | StoreInt
  | StoreTrue
  | Append
  | Count
  | BooleanOptionalAction
  | PositionalStar.

(** One [parser.add_argument(...)] call. *)
Record Argument : Type := {
  option_strings : list string;
  explicit_dest : option string;
  act : action;
  explicit_default : option value;
}.

Module Argparse.

Definition is_long (flag : string) : bool := String.prefix "--" flag.

Fixpoint lstrip_dash (s : string) : string :=
  match s with
  | String "-" s' => lstrip_dash s'
  | _ => s
  end.

(** The attribute name argparse derives: [dest=] when given, otherwise the
    first long option string (or else the first option string) without its
    leading dashes and with [-] turned into [_]. *)
Definition dest (a : Argument) : string :=
  match explicit_dest a with
  | Some d => d
  | None =>
      let flag :=
        match filter (λ f, is_long f = true) (option_strings a) with
        | f :: _ => f
        | [] => match option_strings a with f :: _ => f | [] => EmptyString end
        end in
      PyStr.replace "-" "_" (lstrip_dash flag)
  end.

Definition default (a : Argument) : value :=
  match explicit_default a with
  | Some v => v
  | None =>
      match act a with
      | StoreTrue => VBool false
      | PositionalStar => VList []
      | _ => VNone
      end
  end.

(** The values an action can store. *)
Definition stores (a : action) (v : value) : bool :=
  match a, v with
  | Store, VStr _ => true
  | StoreInt, VInt _ => true
  | StoreTrue, VBool true => true
  | Append, VList _ => true
  | Count, VInt n => 0 <=? n
  | BooleanOptionalAction, VBool _ => true
  | PositionalStar, VList _ => true
  | _, _ => false
  end.

Definition defaults (parser : list Argument) : gmap string value :=
  foldl (λ ns a, <[dest a := default a]> ns) ∅ parser.

Definition accepts (parser : list Argument) (d : string) (v : value) : bool :=
  existsb (λ a, bool_decide (dest a = d) && stores (act a) v) parser.

(** [parser.parse_args(argv)]: every declared argument gets its default,
    then the options met on the command line, summarised as the list
    [given] of destinations and stored values, overwrite theirs.  This is
    the namespace of a command line that argparse accepts: every member of
    [given] is then one that [accepts] admits.  On [--help], an option that
    is not declared or a value of the wrong kind, argparse prints its
    message and exits by itself, and no namespace is made. *)
Definition parse_args (parser : list Argument) (given : list (string * value))
  : gmap string value :=
  foldl (λ ns '(d, v), if accepts parser d v then <[d := v]> ns else ns)
        (defaults parser) given.

End Argparse.

(** Attribute access [args.attr] on an [argparse.Namespace]. *)
Definition getattr (args : gmap string value) (attr : string) : result value :=
  match args !! attr with
  | Some v => Ok v
  | None => Raise (AttributeError attr)
  end.

(** Truth value of an object, as [if x:] and [not x] test it. *)
Definition truthy (v : value) : bool :=
  match v with
  | VNone => false
  | VBool b => b
  | VInt z => negb (z =? 0)
  | VStr s => negb (bool_decide (s = EmptyString))
  | VList l => negb (bool_decide (l = []))
  end.

(** Operand of integer arithmetic: [bool] is a subclass of [int]. *)
Definition as_int (v : value) : result Z :=
  match v with
  | VInt z => Ok z
  | VBool b => Ok (if b then 1 else 0)
  | _ => Raise (TypeError "unsupported operand type(s) for -")
  end.

(** Iteration over a value. *)
Definition as_list (v : value) : result (list string) :=
  match v with
  | VList l => Ok l
  | VStr s => Ok (PyStr.chars s)
  | _ => Raise (TypeError "object is not iterable")
  end.

(** A value used where a string or [None] is expected; argparse stores
    nothing else for the options read this way. *)
Definition as_opt_str (v : value) : result (option string) :=
  match v with
  | VNone => Ok None
  | VStr s => Ok (Some s)
  | _ => Raise (TypeError "expected str or None")
  end.

Definition attr_truthy (args : gmap string value) (attr : string) : M bool :=
  let! v := lift (getattr args attr) in ret (truthy v).

Definition attr_int (args : gmap string value) (attr : string) : M Z :=
  let! v := lift (getattr args attr) in lift (as_int v).

Definition attr_list (args : gmap string value) (attr : string)
  : M (list string) :=
  let! v := lift (getattr args attr) in lift (as_list v).

Definition attr_opt_str (args : gmap string value) (attr : string)
  : M (option string) :=
  let! v := lift (getattr args attr) in lift (as_opt_str v).

(** [a - b] *)
Definition py_sub (a b : value) : result Z :=
  rbind (as_int a) (λ x, rbind (as_int b) (λ y, Ok (x - y))).

(** [log.verbosity = args.verbose - args.quiet], the first statement of both
    [cli] functions. *)
Definition set_verbosity_from (args : gmap string value) : M unit :=
  let! verbose := lift (getattr args "verbose") in
  let! quiet := lift (getattr args "quiet") in
  let! v := lift (py_sub verbose quiet) in
  Log.set_verbosity v.

(** ** The collaborators of the two scripts

    pip, the standard library and the modules of piptools the scripts
    import ([_compat], [repositories], [resolver], [writer], [sync]) are
    taken as parameters: each field is what the named call answers. *)

(** [repository.finder], with the options collected while parsing. *)
Record Finder : Type := {
  index_urls : list string;
  trusted_hosts : list string;
  find_links : list string;
  allow_all_prereleases : bool;
  no_binary : gset string;
  only_binary : gset string;
}.

Inductive Repository : Type :=
  | PyPIRepository (pip_args : list string) (cache_dir : option string)
  | LocalRequirementsRepository
      (existing_pins : gmap string InstallRequirement)
      (proxied_repository : Repository) (reuse_hashes : bool).

(** The arguments of [Resolver(...)] and of [resolver.resolve(...)]. *)
Record ResolverArgs : Type := {
  constraints : list InstallRequirement;
  repository : Repository;
  prereleases : bool;
  cache : option string;
  clear_caches : bool;
  allow_unsafe : bool;
  max_rounds : value;
}.

Record Resolution : Type := {
  results : list InstallRequirement;
  unsafe_constraints : list InstallRequirement;
}.

Record Env : Type := {
  (** [os.path.exists] *)
  path_exists : string → bool;
  (** [shlex.split] *)
  shlex_split : string → result (list string);
  (** [pip._internal.utils.misc.redact_auth_from_url] *)
  redact_auth_from_url : string → string;
  (** [install_req_from_line(line)] *)
  install_req_from_line : string → bool → result InstallRequirement;
  (** [parse_requirements(filename, ...)], read to the end *)
  parse_requirements : string → result (list InstallRequirement);
  (** the same for a temporary file holding the given text *)
  parse_requirements_text : string → result (list InstallRequirement);
  (** [distutils.core.run_setup]: [dist.get_name()], [dist.install_requires] *)
  run_setup : string → result (string * list string);
  (** [sys.stdin.read()] *)
  stdin_read : string;
  (** [repository.finder] *)
  finder_of : Repository → Finder;
  (** [PyPIRepository.DEFAULT_INDEX_URL] *)
  DEFAULT_INDEX_URL : string;
  (** [Resolver(...).resolve(max_rounds)] *)
  resolve : ResolverArgs → result Resolution;
  (** [resolver.resolve_hashes(results)] *)
  resolve_hashes :
    ResolverArgs → list InstallRequirement →
    result (list (InstallRequirement * list string));
  (** [open(path, "w+b")] *)
  open_write : string → result unit;
  (** the finder built from pip's install command in pip-sync *)
  sync_finder : Finder;
  (** [sync.merge(requirements, ignore_conflicts)] *)
  merge : list InstallRequirement → bool → result (list InstallRequirement);
  (** [get_installed_distributions(skip=[], user_only)] *)
  get_installed_distributions : bool → list Distribution;
  (** [sync.diff(requirements, installed_dists)] *)
  diff :
    list InstallRequirement → list Distribution →
    list InstallRequirement * list Distribution;
  (** [sync.sync(to_install, to_uninstall, dry_run, install_flags, ask)]:
      what it does and the status it returns *)
  sync :
    list InstallRequirement → list Distribution → bool → list string → bool →
    list sync_effect * result Z;
}.

(** ** piptools/scripts/sync.py *)

Module Sync.

Definition DEFAULT_REQUIREMENTS_FILE : string := "requirements.txt".

Definition arg (flags : list string) (a : action) : Argument :=
  {| option_strings := flags; explicit_dest := None; act := a;
     explicit_default := None |}.

Definition arg_default (flags : list string) (a : action) (d : value)
  : Argument :=
  {| option_strings := flags; explicit_dest := None; act := a;
     explicit_default := Some d |}.

(** The arguments [add_args(parser)] declares, in order. *)
Definition add_args : list Argument := [
    arg ["-a"; "--ask"] StoreTrue;
    arg ["-n"; "--dry-run"] StoreTrue;
    arg ["--force"] StoreTrue;
    arg_default ["-f"; "--find-links"] Append (VList []);
    arg ["-i"; "--index-url"] Store;
    arg_default ["--extra-index-url"] Append (VList []);
    arg_default ["--trusted-host"] Append (VList []);
    arg ["--no-index"] StoreTrue;
    arg_default ["-q"; "--quiet"] Count (VInt 0);
    {| option_strings := ["--user"]; explicit_dest := Some "user_only";
       act := StoreTrue; explicit_default := None |};
    arg ["--cert"] Store;
    arg ["--client-cert"] Store;
    arg ["src_files"] PositionalStar;
    arg ["--pip-args"] Store
  ].

Definition extend_flag (flag : string) (values : list string) : list string :=
  concat (map (λ v, [flag; v]) values).

Definition format_control_flags (option_name : string) (formats : gset string)
  : list string :=
  if bool_decide (elements formats = []) then []
  else ["--" +:+ PyStr.replace "_" "-" option_name;
        PyStr.join "," (PyStr.sorted (elements formats))].

Definition nonempty (o : option string) : bool :=
  match o with
  | Some s => negb (bool_decide (s = EmptyString))
  | None => false
  end.

Definition _compose_install_flags (default_index_url : string)
    (finder : Finder) (no_index : bool) (index_url : option string)
    (extra_index_url trusted_host find_links0 : list string)
    (user_only : bool) (cert client_cert : option string) : list string :=
  let result0 :=
    if no_index then ["--no-index"]
    else if nonempty index_url then ["--index-url"; default EmptyString index_url]
    else
      match index_urls finder with
      | finder_index_url :: rest =>
          (if bool_decide (finder_index_url ≠ default_index_url)
           then ["--index-url"; finder_index_url] else [])
          ++ extend_flag "--extra-index-url" rest
      | [] => ["--no-index"]
      end in
  let result1 := result0 ++ extend_flag "--extra-index-url" extra_index_url in
  let result2 :=
    result1 ++ extend_flag "--trusted-host"
                 (trusted_host ++ trusted_hosts finder) in
  let result3 :=
    result2 ++ extend_flag "--find-links" (find_links0 ++ find_links finder) in
  let result4 :=
    result3 ++ format_control_flags "no_binary" (no_binary finder)
            ++ format_control_flags "only_binary" (only_binary finder) in
  let result5 := if user_only then result4 ++ ["--user"] else result4 in
  let result6 :=
    if nonempty cert then result5 ++ ["--cert"; default EmptyString cert]
    else result5 in
  if nonempty client_cert
  then result6 ++ ["--client-cert"; default EmptyString client_cert]
  else result6.

Definition no_requirements_message : string :=
  "No requirement files given and no requirements.txt found in the current directory".

Definition dot_in_message : string :=
  "Some input files have the .in extension, which is most likely an error and can cause weird behaviour. You probably meant to use the corresponding *.txt file?".

Section WithEnv.
Context (env : Env).

(** The generator [flat_map(parse_requirements, src_files)], run to its
    end by the consumer. *)
Definition parse_all (src_files : list string)
  : M (list InstallRequirement) :=
  let! parts :=
    map_M (λ src, emit (EvParse src) >> lift (parse_requirements env src))
          src_files in
  ret (concat parts).

(** Lines 90-97: the source files, or the default one, or exit 2. *)
Definition choose_src_files (args : gmap string value) : M (list string) :=
  let! src_files := lift (getattr args "src_files") in
  if negb (truthy src_files) then
    if path_exists env DEFAULT_REQUIREMENTS_FILE
    then ret [DEFAULT_REQUIREMENTS_FILE]
    else (Log.error no_requirements_message >> sys_exit 2)
  else lift (as_list src_files).

(** Lines 99-109: the check for [.in] files. *)
Definition check_extensions (args : gmap string value)
    (src_files : list string) : M unit :=
  if existsb (λ src_file, PyStr.endswith src_file ".in") src_files then
    let! force := attr_truthy args "force" in
    if force then Log.warning ("WARNING: " +:+ dot_in_message)
    else (Log.error ("ERROR: " +:+ dot_in_message) >> sys_exit 2)
  else ret tt.

(** Lines 118-126: parse lazily, merge, exit 2 on a [PipToolsError]. *)
Definition merge_requirements (args : gmap string value)
    (src_files : list string) : M (list InstallRequirement) :=
  try_except_PipToolsError
    (let! force := attr_truthy args "force" in
     let! parsed := parse_all src_files in
     lift (merge env parsed force))
    (λ e, Log.error e >> sys_exit 2).

(** Lines 128-150: the plan, the flags, and [sys.exit(sync.sync(...))]. *)
Definition run_sync (args : gmap string value)
    (requirements : list InstallRequirement) : M unit :=
  let! user_only := attr_truthy args "user_only" in
  emit EvInstalledDistributions >>
  let installed_dists := get_installed_distributions env user_only in
  let '(to_install, to_uninstall) := diff env requirements installed_dists in
  let! no_index := attr_truthy args "no_index" in
  let! index_url := attr_opt_str args "index_url" in
  let! extra_index_url := attr_list args "extra_index_url" in
  let! trusted_host := attr_list args "trusted_host" in
  let! find_links0 := attr_list args "find_links" in
  let! user_only' := attr_truthy args "user_only" in
  let! cert := attr_opt_str args "cert" in
  let! client_cert := attr_opt_str args "client_cert" in
  let flags :=
    _compose_install_flags (DEFAULT_INDEX_URL env) (sync_finder env)
      no_index index_url extra_index_url trusted_host find_links0
      user_only' cert client_cert in
  let! pip_args := attr_opt_str args "pip_args" in
  let! extra := lift (shlex_split env (default EmptyString pip_args)) in
  let! dry_run := attr_truthy args "dry_run" in
  let! ask := attr_truthy args "ask" in
  let '(effects, status) :=
    sync env to_install to_uninstall dry_run (flags ++ extra) ask in
  for_each effects (λ e, emit (EvSync e)) >>
  let! code := lift status in
  sys_exit code.

Definition cli (args : gmap string value) : M unit :=
  set_verbosity_from args >>
  let! src_files := choose_src_files args in
  check_extensions args src_files >>
  let! requirements := merge_requirements args src_files in
  run_sync args requirements.

End WithEnv.

End Sync.

(** ** piptools/scripts/compile.py *)

Module Compile.

Definition DEFAULT_REQUIREMENTS_FILE : string := "requirements.in".
Definition DEFAULT_REQUIREMENTS_OUTPUT_FILE : string := "requirements.txt".

(** [s.rsplit(sep, 1)[0]]: the text before the last [sep], or all of [s]. *)
Fixpoint before_last (sep : ascii) (s : string) : option string :=
  match s with
  | EmptyString => None
  | String c s' =>
      match before_last sep s' with
      | Some p => Some (String c p)
      | None => if Ascii.eqb c sep then Some EmptyString else None
      end
  end.

Definition rsplit_head (sep : ascii) (s : string) : string :=
  default s (before_last sep s).

(** The text after the last [sep], when there is one. *)
Fixpoint after_last (sep : ascii) (s : string) : option string :=
  match s with
  | EmptyString => None
  | String c s' =>
      match after_last sep s' with
      | Some t => Some t
      | None => if Ascii.eqb c sep then Some s' else None
      end
  end.

(** [os.path.basename] *)
Definition basename (s : string) : string :=
  default s (after_last "/" s).

(** [utils.dedup]: first occurrences, in order. *)
Fixpoint dedup_go (seen : list string) (xs : list string) : list string :=
  match xs with
  | [] => []
  | x :: xs' =>
      if bool_decide (x ∈ seen) then dedup_go seen xs'
      else x :: dedup_go (x :: seen) xs'
  end.

Definition dedup (xs : list string) : list string := dedup_go [] xs.

(** [d[k] = v] on a dict whose order of keys is observable. *)
Fixpoint dict_set {V} (k : string) (v : V) (d : list (string * V))
  : list (string * V) :=
  match d with
  | [] => [(k, v)]
  | (k', v') :: d' =>
      if bool_decide (k = k') then (k', v) :: d'
      else (k', v') :: dict_set k v d'
  end.

(** [k in d] *)
Definition dict_has {V} (k : string) (d : list (string * V)) : bool :=
  bool_decide (k ∈ map fst d).

Definition arg (flags : list string) (a : action) : Argument :=
  {| option_strings := flags; explicit_dest := None; act := a;
     explicit_default := None |}.

Definition arg_default (flags : list string) (a : action) (d : value)
  : Argument :=
  {| option_strings := flags; explicit_dest := None; act := a;
     explicit_default := Some d |}.

(** The arguments [add_args(parser)] declares, in order.  [cache_dir] is
    [locations.CACHE_DIR], which pip computes. *)
Definition add_args (cache_dir : string) : list Argument := [
    arg_default ["-v"; "--verbose"] Count (VInt 0);
    arg_default ["-q"; "--quiet"] Count (VInt 0);
    arg ["-n"; "--dry-run"] StoreTrue;
    arg ["-p"; "--pre"] StoreTrue;
    arg ["-r"; "--rebuild"] StoreTrue;
    arg_default ["-f"; "--find-links"] Append (VList []);
    arg ["-i"; "--index-url"] Store;
    arg_default ["--extra-index-url"] Append (VList []);
    arg ["--cert"] Store;
    arg ["--client-cert"] Store;
    arg_default ["--trusted-host"] Append (VList []);
    arg_default ["--header"] BooleanOptionalAction (VBool true);
    arg_default ["--emit-trusted-host"] BooleanOptionalAction (VBool true);
    arg_default ["--annotate"] BooleanOptionalAction (VBool true);
    arg ["-U"; "--upgrade"] StoreTrue;
    {| option_strings := ["-P"; "--upgrade-package"];
       explicit_dest := Some "upgrade_packages"; act := Append;
       explicit_default := Some (VList []) |};
    arg ["-o"; "--output-file"] Store;
    arg ["--allow-unsafe"] StoreTrue;
    arg ["--generate-hashes"] StoreTrue;
    arg_default ["--reuse-hashes"] BooleanOptionalAction (VBool true);
    arg_default ["--max-rounds"] StoreInt (VInt 10);
    arg_default ["--build-isolation"] BooleanOptionalAction (VBool true);
    arg_default ["--emit-find-links"] BooleanOptionalAction (VBool true);
    arg_default ["--cache-dir"] Store (VStr cache_dir);
    arg_default ["--pip-args"] Store (VStr EmptyString);
    arg_default ["--emit-index-url"] BooleanOptionalAction (VBool true);
    arg ["src_files"] PositionalStar
  ].

(** Lines 265-269: the dict comprehension over the [-P] requirements. *)
Fixpoint upgrade_reqs (parse : string → bool → result InstallRequirement)
    (packages : list string) (acc : list (string * InstallRequirement))
  : result (list (string * InstallRequirement)) :=
  match packages with
  | [] => Ok acc
  | pkg :: rest =>
      rbind (parse pkg false) (λ install_req,
      rbind (key_from_ireq install_req) (λ k,
      upgrade_reqs parse rest (dict_set k install_req acc)))
  end.

(** Lines 288-294: the loop over the pinned requirements of the existing
    output file.  The state is [(existing_pins, existing_pins_to_upgrade)]. *)
Fixpoint collect_pins (upgrade_install_reqs : list (string * InstallRequirement))
    (ireqs : list InstallRequirement)
    (st : gmap string InstallRequirement * gset string)
  : result (gmap string InstallRequirement * gset string) :=
  match ireqs with
  | [] => Ok st
  | ireq :: rest =>
      rbind (key_from_ireq ireq) (λ k,
        if dict_has k upgrade_install_reqs
        then collect_pins upgrade_install_reqs rest (st.1, {[k]} ∪ st.2)
        else collect_pins upgrade_install_reqs rest (<[k := ireq]> st.1, st.2))
  end.

Definition existing_pins_of
    (upgrade_install_reqs : list (string * InstallRequirement))
    (ireqs : list InstallRequirement)
  : result (gmap string InstallRequirement * gset string) :=
  collect_pins upgrade_install_reqs
    (filter (λ ireq, is_pinned_requirement ireq = true) ireqs) (∅, ∅).

Definition set_comes_from (c : string) (ireq : InstallRequirement)
  : InstallRequirement :=
  {| req := req ireq; link := link ireq; editable := editable ireq;
     constraint := constraint ireq; extras := extras ireq;
     markers := markers ireq; hash_options := hash_options ireq;
     comes_from := Some c |}.

(** What the setup phase hands to the resolution and output phases. *)
Record Setup : Type := {
    setup_src_files : list string;
    setup_output_file : option string;
    setup_repository : Repository;
    setup_constraints : list InstallRequirement;
  }.

Section WithEnv.
Context (env : Env).

(** Lines 200-212 *)
Definition choose_src_files (args : gmap string value) : M (list string) :=
  let! src_files0 := lift (getattr args "src_files") in
  let! src_files := lift (as_list src_files0) in
  if (length src_files =? 0)%nat then
    if path_exists env DEFAULT_REQUIREMENTS_FILE
    then ret [DEFAULT_REQUIREMENTS_FILE]
    else if path_exists env "setup.py" then ret ["setup.py"]
    else raise (NameError "click")
  else ret src_files.

(** Lines 214-236 *)
Definition choose_output_file (args : gmap string value)
    (src_files : list string) : M (option string) :=
  let! output_file := attr_opt_str args "output_file" in
  if negb (Sync.nonempty output_file) then
    match src_files with
    | [src_file] =>
        if bool_decide (src_file = "-") then
          Log.error "Error: --output-file is required if input is from stdin"
          >> ret output_file
        else if bool_decide (src_file = "setup.py") then
          ret (Some DEFAULT_REQUIREMENTS_OUTPUT_FILE)
        else ret (Some (rsplit_head "." src_file +:+ ".txt"))
    | _ => raise (NameError "click")
    end
  else ret output_file.

(** Lines 242-261 *)
Definition compose_pip_args (args : gmap string value) : M (list string) :=
  let! pip_args0 := lift (getattr args "pip_args") in
  let! right_args :=
    match pip_args0 with
    | VStr s => lift (shlex_split env s)
    | _ => raise (TypeError "shlex.split expects str")
    end in
  let! find_links0 := attr_list args "find_links" in
  let pip_args1 := concat (map (λ link0, ["-f"; link0]) find_links0) in
  let! index_url := attr_opt_str args "index_url" in
  let pip_args2 :=
    if Sync.nonempty index_url
    then pip_args1 ++ ["-i"; default EmptyString index_url] else pip_args1 in
  let! extra_index_url := attr_list args "extra_index_url" in
  let pip_args3 :=
    pip_args2 ++ Sync.extend_flag "--extra-index-url" extra_index_url in
  let! cert := attr_opt_str args "cert" in
  let pip_args4 :=
    if Sync.nonempty cert
    then pip_args3 ++ ["--cert"; default EmptyString cert] else pip_args3 in
  let! client_cert := attr_opt_str args "client_cert" in
  let pip_args5 :=
    if Sync.nonempty client_cert
    then pip_args4 ++ ["--client-cert"; default EmptyString client_cert]
    else pip_args4 in
  let! pre := attr_truthy args "pre" in
  let pip_args6 := if pre then pip_args5 ++ ["--pre"] else pip_args5 in
  let! trusted_host := attr_list args "trusted_host" in
  let pip_args7 :=
    pip_args6 ++ Sync.extend_flag "--trusted-host" trusted_host in
  let! build_isolation := attr_truthy args "build_isolation" in
  let pip_args8 :=
    if negb build_isolation then pip_args7 ++ ["--no-build-isolation"]
    else pip_args7 in
  ret (pip_args8 ++ right_args).

(** Lines 263-297: the repository, wrapped in a
    [LocalRequirementsRepository] when an earlier output file is reused.
    Also gives [upgrade_install_reqs] and [existing_pins_to_upgrade]. *)
Definition choose_repository (args : gmap string value)
    (pip_args : list string) (output_file : option string)
  : M (Repository * list (string * InstallRequirement) * gset string) :=
  let! cache_dir := attr_opt_str args "cache_dir" in
  let repository0 := PyPIRepository pip_args cache_dir in
  let! upgrade_packages := attr_list args "upgrade_packages" in
  let! upgrade_install_reqs :=
    lift (upgrade_reqs (install_req_from_line env) upgrade_packages []) in
  let! upgrade := attr_truthy args "upgrade" in
  if negb upgrade && Sync.nonempty output_file
     && path_exists env (default EmptyString output_file) then
    let! _ := attr_opt_str args "cache_dir" in
    emit (EvParse (default EmptyString output_file)) >>
    let! ireqs :=
      lift (parse_requirements env (default EmptyString output_file)) in
    let! pins := lift (existing_pins_of upgrade_install_reqs ireqs) in
    let! reuse_hashes := attr_truthy args "reuse_hashes" in
    ret (LocalRequirementsRepository pins.1 repository0 reuse_hashes,
         upgrade_install_reqs, pins.2)
  else ret (repository0, upgrade_install_reqs, ∅).

Definition newline : string := String "010" EmptyString.

(** Lines 305-343: the requirements of one source file. *)
Definition parse_source (src_file : string) : M (list InstallRequirement) :=
  let is_setup_file := bool_decide (basename src_file = "setup.py") in
  if is_setup_file || bool_decide (src_file = "-") then
    let! written :=
      (if is_setup_file then
         emit (EvRunSetup src_file) >>
         let! dist := lift (run_setup env src_file) in
         ret (PyStr.join newline dist.2,
              dist.1 +:+ " (" +:+ src_file +:+ ")")
       else
         emit EvReadStdin >> ret (stdin_read env, "-r -")) in
    emit (EvTempFile written.1) >>
    let! reqs := lift (parse_requirements_text env written.1) in
    ret (map (set_comes_from written.2) reqs)
  else
    emit (EvParse src_file) >> lift (parse_requirements env src_file).

(** The set comprehension of lines 345-347. *)
Fixpoint primary_packages (ireqs : list InstallRequirement)
  : result (gset string) :=
  match ireqs with
  | [] => Ok ∅
  | ireq :: rest =>
      if constraint ireq then primary_packages rest
      else rbind (key_from_ireq ireq) (λ k,
           rbind (primary_packages rest) (λ ks, Ok ({[k]} ∪ ks)))
  end.

Definition marker_matches (ireq : InstallRequirement) : bool :=
  match markers ireq with
  | None => true
  | Some m => evaluate m
  end.

(** Lines 303-357 *)
Definition collect_constraints (src_files : list string)
    (upgrade_install_reqs : list (string * InstallRequirement))
    (existing_pins_to_upgrade : gset string)
  : M (list InstallRequirement) :=
  let! parts := map_M parse_source src_files in
  let constraints0 := concat parts in
  let! primary := lift (primary_packages constraints0) in
  let allowed_upgrades := primary ∪ existing_pins_to_upgrade in
  let constraints1 :=
    constraints0 ++
    map snd (filter (λ kv, kv.1 ∈ allowed_upgrades) upgrade_install_reqs) in
  ret (filter (λ ireq, marker_matches ireq = true) constraints1).

(** Lines 359-369 *)
Definition log_sources (repository0 : Repository) : M unit :=
  let finder := finder_of env repository0 in
  Log.debug "Using indexes:" >>
  Log.indentation
    (for_each (dedup (index_urls finder))
              (λ index_url, Log.debug (redact_auth_from_url env index_url))) >>
  if negb (bool_decide (find_links finder = [])) then
    Log.debug EmptyString >>
    Log.debug "Using links:" >>
    Log.indentation
      (for_each (dedup (find_links finder))
                (λ find_link, Log.debug (redact_auth_from_url env find_link)))
  else ret tt.

(** Lines 200-369: everything before the resolver is built. *)
Definition setup (args : gmap string value) : M Setup :=
  let! src_files := choose_src_files args in
  let! output_file := choose_output_file args src_files in
  let! pip_args := compose_pip_args args in
  let! chosen := choose_repository args pip_args output_file in
  let! constraints0 := collect_constraints src_files chosen.1.2 chosen.2 in
  log_sources chosen.1.1 >>
  ret {| setup_src_files := src_files; setup_output_file := output_file;
         setup_repository := chosen.1.1;
         setup_constraints := constraints0 |}.

(** The arguments of lines 372-380. *)
Definition resolver_args (args : gmap string value) (s : Setup)
  : M ResolverArgs :=
  let! pre :=
    (if allow_all_prereleases (finder_of env (setup_repository s))
     then ret true else attr_truthy args "pre") in
  let! cache_dir := attr_opt_str args "cache_dir" in
  let! rebuild := attr_truthy args "rebuild" in
  let! allow_unsafe0 := attr_truthy args "allow_unsafe" in
  let! max_rounds0 := lift (getattr args "max_rounds") in
  ret {| constraints := setup_constraints s;
         repository := setup_repository s;
         prereleases := pre; cache := cache_dir; clear_caches := rebuild;
         allow_unsafe := allow_unsafe0; max_rounds := max_rounds0 |}.

(** Lines 371-387: resolution, with exit status 2 on a [PipToolsError]. *)
Definition resolution (args : gmap string value) (s : Setup)
  : M (Resolution * option (list (InstallRequirement * list string))) :=
  try_except_PipToolsError
    (let! rargs := resolver_args args s in
     emit EvResolve >>
     let! resolved := lift (resolve env rargs) in
     let! generate_hashes := attr_truthy args "generate_hashes" in
     if generate_hashes then
       emit EvResolveHashes >>
       let! hashes := lift (resolve_hashes env rargs (results resolved)) in
       ret (resolved, Some hashes)
     else ret (resolved, None))
    (λ e, Log.error e >> sys_exit 2).

(** The dict comprehension of lines 417-421. *)
Fixpoint markers_by_key (ireqs : list InstallRequirement)
  : result (list (string * Marker)) :=
  match ireqs with
  | [] => Ok []
  | ireq :: rest =>
      match markers ireq with
      | Some m =>
          rbind (key_from_ireq ireq) (λ k,
          rbind (markers_by_key rest) (λ d, Ok ((k, m) :: d)))
      | None => markers_by_key rest
      end
  end.

(** Lines 389-426: the output file is opened and written. *)
Definition output (args : gmap string value) (s : Setup)
    (resolved : Resolution) : M unit :=
  Log.debug EmptyString >>
  match setup_output_file s with
  | None => raise (TypeError "expected str, bytes or os.PathLike object")
  | Some path =>
      lift (open_write env path) >>
      emit (EvOpenWrite path) >>
      let! dry_run := attr_truthy args "dry_run" in
      let! _ := lift (getattr args "header") in
      let! _ := lift (getattr args "emit_index_url") in
      let! _ := lift (getattr args "emit_trusted_host") in
      let! _ := lift (getattr args "annotate") in
      let! _ := lift (getattr args "generate_hashes") in
      let! _ := lift (getattr args "allow_unsafe") in
      let! _ := lift (getattr args "emit_find_links") in
      let! _ := lift (markers_by_key (setup_constraints s)) in
      emit (EvWriterWrite dry_run)
  end >>
  let! dry_run := attr_truthy args "dry_run" in
  if dry_run then Log.info "Dry-run, so nothing updated." else ret tt.

Definition cli (args : gmap string value) : M unit :=
  set_verbosity_from args >>
  let! s := setup args in
  let! resolved := resolution args s in
  output args s resolved.1.

End WithEnv.

End Compile.

(** ** piptools/__main__.py *)

Module Main.

Inductive command : Type :=
  | CompileCommand
  | SyncCommand.

(** [parse_args()]: the namespace the sub-parser of the command fills.  Its
    attribute [func] is the [cli] of the command; it is kept as the command
    itself. *)
Definition parse_args (cache_dir : string) (c : command)
    (given : list (string * value)) : gmap string value :=
  match c with
  | CompileCommand => Argparse.parse_args (Compile.add_args cache_dir) given
  | SyncCommand => Argparse.parse_args Sync.add_args given
  end.


End Main.

(** ** A reference reader of requirement lines

    A stand-in for pip's [install_req_from_line] on lines of the shape
    [name[extra,...]op version,...] without blanks, markers, URLs or paths:
    enough to run [make_install_requirement] on concrete inputs. *)

Module RequirementLine.

Definition is_digit (c : ascii) : bool :=
  (Ascii.leb "0" c && Ascii.leb c "9")%char.

Definition is_letter (c : ascii) : bool :=
  (Ascii.leb "a" c && Ascii.leb c "z")%char || PyStr.is_upper c.

Definition is_alnum (c : ascii) : bool := is_digit c || is_letter c.

Definition is_punct (c : ascii) : bool :=
  (Ascii.eqb c "-" || Ascii.eqb c "_" || Ascii.eqb c ".")%char.

Definition is_name_char (c : ascii) : bool := is_alnum c || is_punct c.

Definition is_version_char (c : ascii) : bool :=
  (is_name_char c || Ascii.eqb c "*" || Ascii.eqb c "+" || Ascii.eqb c "!")%char.

Fixpoint all_chars (p : ascii → bool) (s : string) : bool :=
  match s with
  | EmptyString => true
  | String c s' => p c && all_chars p s'
  end.

(** The longest prefix whose characters satisfy [p], and the rest. *)
Fixpoint span (p : ascii → bool) (s : string) : string * string :=
  match s with
  | EmptyString => (EmptyString, EmptyString)
  | String c s' =>
      if p c then (String c (span p s').1, (span p s').2)
      else (EmptyString, s)
  end.

(** [s.split(sep)] for a one-character separator. *)
Fixpoint split_on (sep : ascii) (s : string) : list string :=
  match s with
  | EmptyString => [EmptyString]
  | String c s' =>
      if Ascii.eqb c sep then EmptyString :: split_on sep s'
      else match split_on sep s' with
           | h :: t => String c h :: t
           | [] => [String c EmptyString]
           end
  end.

Fixpoint drop_chars (n : nat) (s : string) : string :=
  match n, s with
  | S n', String _ s' => drop_chars n' s'
  | _, _ => s
  end.

Definition operators : list string :=
  ["==="; "~="; "=="; "!="; "<="; ">="; "<"; ">"].

Definition parse_specifier (clause : string) : option Specifier :=
  match filter (λ op, String.prefix op clause = true) operators with
  | op :: _ =>
      let v := drop_chars (String.length op) clause in
      if negb (bool_decide (v = EmptyString)) && all_chars is_version_char v
      then Some {| operator := op; version := v |}
      else None
  | [] => None
  end.

Global Instance Specifier_eq_dec : EqDecision Specifier.
Proof. solve_decision. Defined.

(** The members of the specifier set, each once. *)
Definition parse_specifiers (s : string) : option (list Specifier) :=
  if bool_decide (s = EmptyString) then Some []
  else remove_dups <$> mapM parse_specifier (split_on "," s).

Definition is_identifier (s : string) : bool :=
  negb (bool_decide (s = EmptyString)) && all_chars is_name_char s.


Definition parse_extras (s : string) : option (list string * string) :=
  match s with
  | String "[" s' =>
      let body := (span (λ c, negb (Ascii.eqb c "]")) s').1 in
      match (span (λ c, negb (Ascii.eqb c "]")) s').2 with
      | String "]" rest =>
          if forallb is_identifier (split_on "," body)
          then Some (split_on "," body, rest) else None
      | _ => None
      end
  | _ => Some ([], s)
  end.

Definition install_req_from_line (line : string) (constraint0 : bool)
  : result InstallRequirement :=
  let name0 := (span is_name_char line).1 in
  if negb (is_identifier name0) then Raise (OtherError "Invalid requirement")
  else
    match parse_extras (span is_name_char line).2 with
    | None => Raise (OtherError "Invalid requirement")
    | Some (extras0, rest) =>
        match parse_specifiers rest with
        | None => Raise (OtherError "Invalid requirement")
        | Some specs =>
            Ok {| req := Some {| name := name0; specifier := specs |};
                  link := None; editable := false; constraint := constraint0;
                  extras := list_to_set extras0; markers := None;
                  hash_options := []; comes_from := None |}
        end
    end.

End RequirementLine.

(** ** piptools/sync.py: [sync], from the specification

    The function the last statement of pip-sync's [cli] calls.  The file is
    not among the sources; the specification (the synchronisation step and
    the exit-status contract), the help text of [--ask] and [--dry-run] and
    test_cli_sync.py describe it. *)

Module PipSync.

(** Modelled from the spec: the name a requirement is reported under. *)
Definition requirement_name (ireq : InstallRequirement) : string :=
  match req ireq with
  | Some r => name r
  | None => from_option link_str EmptyString (link ireq)
  end.

(** Modelled from the spec: the plan as it is shown ("Would uninstall:",
    "Would install:"), without acting. *)
Definition report (to_install : list InstallRequirement)
    (to_uninstall : list Distribution) : list sync_effect :=
  (match to_uninstall with
   | [] => []
   | _ => Stdout "Would uninstall:"
          :: ((λ d, Stdout ("  " +:+ key d)) <$> to_uninstall)
   end) ++
  (match to_install with
   | [] => []
   | _ => Stdout "Would install:"
          :: ((λ r, Stdout ("  " +:+ requirement_name r)) <$> to_install)
   end).

(** Modelled from the spec: the plan applied by external commands in two
    batches, the uninstall batch first and the install batch second. *)
Definition batches (to_install : list InstallRequirement)
    (to_uninstall : list Distribution) (install_flags : list string)
  : list sync_effect :=
  (match to_uninstall with
   | [] => []
   | _ => [CheckCall (["pip"; "uninstall"; "-y"] ++ (key <$> to_uninstall))]
   end) ++
  (match to_install with
   | [] => []
   | _ => [CheckCall (["pip"; "install"] ++ install_flags
                      ++ (requirement_name <$> to_install))]
   end).

(** Modelled from the spec: [sync.sync(to_install, to_uninstall, dry_run,
    install_flags, ask)].  An empty plan needs no change (status 0).
    Otherwise the plan is reported without acting (dry-run, status 1), or
    shown and applied only when the confirmation is accepted (ask-mode,
    also with [--dry-run]: status 0 when accepted, 1 when declined), or
    applied (status 0).  [answer] is the reply to the confirmation. *)
Definition sync (answer : bool) (to_install : list InstallRequirement)
    (to_uninstall : list Distribution) (dry_run : bool)
    (install_flags : list string) (ask : bool)
  : list sync_effect * result Z :=
  match to_install, to_uninstall with
  | [], [] => ([], Ok 0)
  | _, _ =>
      if ask then
        if answer
        then (report to_install to_uninstall ++ Confirm true
                :: batches to_install to_uninstall install_flags, Ok 0)
        else (report to_install to_uninstall ++ [Confirm false], Ok 1)
      else if dry_run then (report to_install to_uninstall, Ok 1)
      else (batches to_install to_uninstall install_flags, Ok 0)
  end.

End PipSync.

(** ** A small world to run the scripts in *)

Module Demo.

(** [name==version] *)
Definition pin (name0 version0 : string) : InstallRequirement :=
  {| req := Some {| name := name0;
                    specifier := [ {| operator := "=="; version := version0 |} ] |};
     link := None; editable := false; constraint := false; extras := ∅;
     markers := None; hash_options := []; comes_from := None |}.

Definition finder : Finder :=
  {| index_urls := ["https://pypi.org/simple"]; trusted_hosts := [];
     find_links := []; allow_all_prereleases := false;
     no_binary := ∅; only_binary := ∅ |}.

(** The current directory holds [requirements.in] with the requirements
    [sources] and [requirements.txt] with the requirements [prior];
    [resolution] is what the resolver answers.  Nothing is installed, and
    a confirmation is answered with no. *)
Definition env (sources prior : list InstallRequirement)
    (resolution : ResolverArgs → result Resolution) : Env :=
  {| path_exists := λ p,
       bool_decide (p = "requirements.in") || bool_decide (p = "requirements.txt");
     shlex_split := λ s, Ok (String.words s);
     redact_auth_from_url := λ u, u;
     install_req_from_line := RequirementLine.install_req_from_line;
     parse_requirements := λ p,
       if bool_decide (p = "requirements.in") then Ok sources
       else if bool_decide (p = "requirements.txt") then Ok prior
       else Raise (OtherError "Could not open requirements file");
     parse_requirements_text := λ _, Ok [];
     run_setup := λ _, Raise (OtherError "no setup.py");
     stdin_read := EmptyString;
     finder_of := λ _, finder;
     DEFAULT_INDEX_URL := "https://pypi.org/simple";
     resolve := resolution;
     resolve_hashes := λ _ rs, Ok ((λ r, (r, [])) <$> rs);
     open_write := λ _, Ok tt;
     sync_finder := finder;
     merge := λ rs _, Ok rs;
     get_installed_distributions := λ _, [];
     diff := λ rs ds, (rs, ds);
     sync := PipSync.sync false |}.

(** The resolver pins nothing new: it answers its constraints. *)
Definition resolves (a : ResolverArgs) : result Resolution :=
  Ok {| results := constraints a; unsafe_constraints := [] |}.

(** The resolver finds no candidate. *)
Definition fails (_ : ResolverArgs) : result Resolution :=
  Raise (PipToolsError "Could not find a version that matches foo").

(** An empty directory, for pip-sync. *)
Definition empty_directory : Env :=
  {| path_exists := λ _, false;
     shlex_split := λ s, Ok (String.words s);
     redact_auth_from_url := λ u, u;
     install_req_from_line := RequirementLine.install_req_from_line;
     parse_requirements := λ _, Raise (OtherError "Could not open requirements file");
     parse_requirements_text := λ _, Ok [];
     run_setup := λ _, Raise (OtherError "no setup.py");
     stdin_read := EmptyString;
     finder_of := λ _, finder;
     DEFAULT_INDEX_URL := "https://pypi.org/simple";
     resolve := resolves;
     resolve_hashes := λ _ rs, Ok ((λ r, (r, [])) <$> rs);
     open_write := λ _, Ok tt;
     sync_finder := finder;
     merge := λ rs _, Ok rs;
     get_installed_distributions := λ _, [];
     diff := λ rs ds, (rs, ds);
     sync := λ _ _ _ _ _, ([], Ok 0) |}.

(** [pip-compile] with no argument but the given options. *)
Definition compile_args (given : list (string * value)) : gmap string value :=
  Argparse.parse_args (Compile.add_args "/cache") given.

(** [pip-sync] with the given options. *)
Definition sync_args (given : list (string * value)) : gmap string value :=
  Argparse.parse_args Sync.add_args given.

End Demo.

(** ** piptools/utils.py: formatting and lookup tables *)

(** [k in d] and [d[k]] on a dict kept in insertion order. *)
Fixpoint dict_get {V} (k : string) (d : list (string * V)) : option V :=
  match d with
  | [] => None
  | (k', v) :: d' => if bool_decide (k = k') then Some v else dict_get k d'
  end.

(** An [InstallRequirement] with the two attributes [format_requirement]
    reads besides those above: [original_link], which
    [InstallRequirement.__init__] sets, and the text packaging gives for
    [str(ireq.req)]. *)
Record PrintedRequirement : Type := {
  ireq_of : InstallRequirement;
  original_link : option Link;
  req_str : string;
}.

(** Lines 82-87, [bool(ireq.original_link)]: a [Link] is true whenever
    there is one. *)
Definition is_url_requirement (p : PrintedRequirement) : bool :=
  match original_link p with
  | Some _ => true
  | None => false
  end.

(** One [line += f" \\\n    --hash={hash_}"]. *)
Definition hash_line (hash_ : string) : string :=
  " \" +:+ Compile.newline +:+ "    --hash=" +:+ hash_.

(** Lines 90-115.  The two [assert]s fail on an editable or URL requirement
    without a link. *)
Definition format_requirement (p : PrintedRequirement)
    (marker : option string) (hashes : option (list string))
  : result string :=
  rbind
    (if editable (ireq_of p) then
       match link (ireq_of p) with
       | Some l => Ok ("-e " +:+ url l)
       | None => Raise AssertionError
       end
     else if is_url_requirement p then
       match link (ireq_of p) with
       | Some l => Ok (url l)
       | None => Raise AssertionError
       end
     else Ok (PyStr.lower (req_str p)))
    (λ line0,
       let line1 :=
         match marker with
         | Some m => if bool_decide (m = EmptyString) then line0
                     else line0 +:+ " ; " +:+ m
         | None => line0
         end in
       match hashes with
       | Some (h :: hs) =>
           Ok (foldl (λ line hash_, line +:+ hash_line hash_) line1
                     (PyStr.sorted (h :: hs)))
       | _ => Ok line1
       end).

(** [str(spec)] of a packaging [Specifier]: operator, then version. *)
Definition specifier_str (s : Specifier) : string := operator s +:+ version s.

(** [sorted(specs, key=lambda x: x.version)]: ascending, and stable, so
    members with the same version keep their order. *)
Fixpoint insert_by_version (x : Specifier) (l : list Specifier)
  : list Specifier :=
  match l with
  | [] => [x]
  | y :: l' =>
      if decide (String.le (version x) (version y)) then x :: y :: l'
      else y :: insert_by_version x l'
  end.

Definition sorted_by_version (specs : list Specifier) : list Specifier :=
  foldr insert_by_version [] specs.

(** Lines 118-126. *)
Definition format_specifier (ireq : InstallRequirement) : string :=
  let specs :=
    match req ireq with
    | Some r => specifier r
    | None => []
    end in
  let text := PyStr.join "," (specifier_str <$> sorted_by_version specs) in
  if bool_decide (text = EmptyString) then "<any>" else text.

(** The values of a lookup table: a value ([unique]), a list
    ([use_lists]) or a set. *)
Inductive table_entry : Type :=
  | Single (v : string)
  | ListOf (vs : list string)
  | SetOf (vs : gset string).

(** Lines 229-238: without [keyval], a value is filed under [key(v)]; with
    neither, the values are the pairs themselves. *)
Definition keyval_of_key (key : string → result string) (v : string)
  : result (string * string) :=
  rbind (key v) (λ k, Ok (k, v)).

Definition keyval_identity (v : string * string) : result (string * string) :=
  Ok v.

(** Lines 246-256: [s = lut[k]], created empty on a [KeyError], then
    [s.append(v)] or [s.add(v)]. *)
Definition add_to_entry (use_lists : bool) (s : option table_entry)
    (v : string) : table_entry :=
  if use_lists then
    ListOf (match s with Some (ListOf vs) => vs | _ => [] end ++ [v])
  else
    SetOf (match s with Some (SetOf vs) => vs | _ => ∅ end ∪ {[v]}).

(** Lines 240-257: [lookup_table] once [keyval] is settled.  The table is
    a dict: its keys are kept in insertion order. *)
Definition lookup_table {A} (keyval : A → result (string * string))
    (unique use_lists : bool) (values : list A)
  : result (list (string * table_entry)) :=
  if unique then
    foldl (λ acc value,
             rbind acc (λ lut,
             rbind (keyval value) (λ kv,
             Ok (Compile.dict_set kv.1 (Single kv.2) lut))))
          (Ok []) values
  else
    foldl (λ acc value,
             rbind acc (λ lut,
             rbind (keyval value) (λ kv,
             Ok (Compile.dict_set kv.1
                   (add_to_entry use_lists (dict_get kv.1 lut) kv.2) lut))))
          (Ok []) values.

(** [s[0]], the key of the examples in the docstring of [lookup_table]. *)
Definition first_character (s : string) : result string :=
  match s with
  | String c _ => Ok (String c EmptyString)
  | EmptyString => Raise (OtherError "IndexError: string index out of range")
  end.

(** ** piptools/logging.py: [unstyle] *)

Module Ansi.

Definition ESC : ascii := "027".

(** [[;?0-9]] *)
Definition is_parameter (c : ascii) : bool :=
  Ascii.eqb c ";" || Ascii.eqb c "?" || (Ascii.leb "0" c && Ascii.leb c "9").

(** [[a-zA-Z]] *)
Definition is_letter (c : ascii) : bool :=
  (Ascii.leb "a" c && Ascii.leb c "z") || (Ascii.leb "A" c && Ascii.leb c "Z").

(** [[;?0-9]*[a-zA-Z]] at the start of [s]: the length of the match.  The
    two classes are disjoint, so the greedy star never gives back. *)
Fixpoint parameters_and_letter (s : string) : option nat :=
  match s with
  | EmptyString => None
  | String c s' =>
      if is_parameter c then S <$> parameters_and_letter s'
      else if is_letter c then Some 1%nat
      else None
  end.

(** [_ansi_re.match]: the length of the match of
    [\033\[[;?0-9]*[a-zA-Z]] at the start of [s]. *)
Definition match_length (s : string) : option nat :=
  match s with
  | String e (String "[" s') =>
      if Ascii.eqb e ESC then (λ n, 2 + n)%nat <$> parameters_and_letter s'
      else None
  | _ => None
  end.

(** [_ansi_re.sub("", value)]: the matches are found from left to right
    and do not overlap; [skip] counts the characters of the current match
    still to drop. *)
Fixpoint sub_empty (skip : nat) (s : string) : string :=
  match s with
  | EmptyString => EmptyString
  | String c s' =>
      match skip with
      | S n => sub_empty n s'
      | O =>
          match match_length s with
          | Some n => sub_empty (n - 1) s'
          | None => String c (sub_empty 0 s')
          end
      end
  end.

End Ansi.

(** [unstyle(value)] *)
Definition unstyle (value : string) : string := Ansi.sub_empty 0 value.

(** ** Variants of a world *)

(** [env] with another answer of [sync.merge]. *)
Definition with_merge (env : Env)
    (merge0 : list InstallRequirement → bool → result (list InstallRequirement))
  : Env :=
  {| path_exists := path_exists env; shlex_split := shlex_split env;
     redact_auth_from_url := redact_auth_from_url env;
     install_req_from_line := install_req_from_line env;
     parse_requirements := parse_requirements env;
     parse_requirements_text := parse_requirements_text env;
     run_setup := run_setup env; stdin_read := stdin_read env;
     finder_of := finder_of env; DEFAULT_INDEX_URL := DEFAULT_INDEX_URL env;
     resolve := resolve env; resolve_hashes := resolve_hashes env;
     open_write := open_write env; sync_finder := sync_finder env;
     merge := merge0;
     get_installed_distributions := get_installed_distributions env;
     diff := diff env; sync := sync env |}.

(** ** The vocabulary of the properties *)

(** *** Requirements *)

(** A plain requirement line: a name and its specifiers. *)
Definition requirement_line (n : string) (specs : list Specifier)
  : InstallRequirement :=
  {| req := Some {| name := n; specifier := specs |}; link := None;
     editable := false; constraint := false; extras := ∅; markers := None;
     hash_options := []; comes_from := None |}.

(** [foo===1.0] *)
Definition arbitrary_equality_ireq : InstallRequirement :=
  requirement_line "foo" [ {| operator := "==="; version := "1.0" |} ].

(** [-e git+https://example.com/Repo_X.git], a requirement known by its link
    only. *)
Definition url_ireq : InstallRequirement :=
  {| req := None;
     link := Some {| url := "git+https://example.com/Repo_X.git";
                     link_str := "git+https://example.com/Repo_X.git" |};
     editable := true; constraint := false; extras := ∅; markers := None;
     hash_options := []; comes_from := None |}.

(** The reading of "pinned" with [==] as the only operator. *)
Definition pinned_by_double_equals (ireq : InstallRequirement) : Prop :=
  editable ireq = false ∧
  ∃ q spec, req ireq = Some q ∧ specifier q = [spec] ∧
            operator spec = "==" ∧ ¬ ∃ pre, version spec = pre +:+ ".*".

(** Pinned as [is_pinned_requirement] has it: [==] or [===]. *)
Definition pinned (ireq : InstallRequirement) : Prop :=
  editable ireq = false ∧
  ∃ q spec, req ireq = Some q ∧ specifier q = [spec] ∧
            (operator spec = "==" ∨ operator spec = "===") ∧
            ¬ ∃ pre, version spec = pre +:+ ".*".

(** The key in the words of the specification: the name lowercased, with
    every [_] replaced by [-]. *)
Definition normalized_key (n : string) : string :=
  PyStr.replace "_" "-" (PyStr.lower n).

(** The (algorithm, digest) pairs of the hash options, in order. *)
Definition hash_pairs (options : list (string * list string))
  : list (string * string) :=
  options ≫= λ '(algorithm, hexdigests), (λ h, (algorithm, h)) <$> hexdigests.

(** [f"{algorithm}:{hash_}"] *)
Definition format_hash (p : string * string) : string := p.1 +:+ ":" +:+ p.2.


(** The exception [as_tuple] raises. *)
Definition not_pinned_error : exn :=
  TypeError "Expected a pinned InstallRequirement".

(** *** The pins of pip-compile *)

(** The key belongs to a requirement given with [--upgrade-package]. *)
Definition in_upgrade_list (env : Env) (args : gmap string value)
    (k : string) : Prop :=
  ∃ v packages pkg r,
    getattr args "upgrade_packages" = Ok v ∧ as_list v = Ok packages ∧
    pkg ∈ packages ∧ install_req_from_line env pkg false = Ok r ∧
    key_from_ireq r = Ok k.

(** The prior output is reused: [--upgrade] is not given and the output
    file exists. *)
Definition reuses_output (env : Env) (args : gmap string value)
    (path : string) : Prop :=
  (∃ v, getattr args "upgrade" = Ok v ∧ truthy v = false) ∧
  path ≠ EmptyString ∧ path_exists env path = true.

(** What [existing_pins] holds, given the requirements [ireqs] of the prior
    output. *)
Definition pins_of_output (env : Env) (args : gmap string value)
    (ireqs : list InstallRequirement)
    (pins : gmap string InstallRequirement) : Prop :=
  (∀ ireq k, ireq ∈ ireqs → is_pinned_requirement ireq = true →
             key_from_ireq ireq = Ok k → ¬ in_upgrade_list env args k →
             ∃ kept, pins !! k = Some kept ∧ kept ∈ ireqs ∧
                     is_pinned_requirement kept = true ∧
                     key_from_ireq kept = Ok k) ∧
  (∀ before ireq after k,
     ireqs = before ++ ireq :: after →
     is_pinned_requirement ireq = true → key_from_ireq ireq = Ok k →
     ¬ in_upgrade_list env args k →
     Forall (λ later, is_pinned_requirement later = true →
                      key_from_ireq later ≠ Ok k) after →
     pins !! k = Some ireq) ∧
  (∀ ireq k, ireq ∈ ireqs → is_pinned_requirement ireq = true →
             key_from_ireq ireq = Ok k → in_upgrade_list env args k →
             pins !! k = None) ∧
  (∀ k kept, pins !! k = Some kept →
             kept ∈ ireqs ∧ is_pinned_requirement kept = true ∧
             key_from_ireq kept = Ok k ∧ ¬ in_upgrade_list env args k).

(** Resolution raises a [PipToolsError]: in [resolver.resolve], or, with
    [--generate-hashes], in [resolver.resolve_hashes]. *)
Definition resolution_fails (env : Env) (args : gmap string value)
    (rargs : ResolverArgs) (msg : string) : Prop :=
  resolve env rargs = Raise (PipToolsError msg) ∨
  ∃ resolved v,
    resolve env rargs = Ok resolved ∧
    getattr args "generate_hashes" = Ok v ∧ truthy v = true ∧
    resolve_hashes env rargs (results resolved) = Raise (PipToolsError msg).

(** *** States and traces *)

(** Every event a run of [m] adds to the trace satisfies [P]. *)
Definition adds_only (P : event → Prop) {A} (m : M A) : Prop :=
  ∀ s, ∃ new, trace (m s).2 = trace s ++ new ∧ Forall P new.

(** The events that do not touch the output file for writing. *)
Definition leaves_output (e : event) : Prop :=
  match e with
  | EvOpenWrite _ | EvWriterWrite _ => False
  | _ => True
  end.

(** A run of [m] starts no command, and if it gets a confirmation declined
    its exit status is 1. *)
Definition declines (m : M unit) : Prop :=
  ∀ s, ∃ new,
    trace (m s).2 = trace s ++ new ∧
    (∀ command, EvSync (CheckCall command) ∉ new) ∧
    (EvSync (Confirm false) ∈ new → exit_status (m s).1 = 1).

(** The state after [log.verbosity = v]. *)
Definition with_verbosity (v : Z) (s : State) : State :=
  {| log := {| verbosity := v; current_indent := current_indent (log s);
               _indent_width := _indent_width (log s) |};
     trace := trace s |}.

(** The state after one line logged in the colour [fore]. *)
Definition logged (fore : string) (message : string) (s : State) : State :=
  {| log := log s;
     trace := trace s ++
       [Stderr (Some fore)
          (Log.spaces (Z.to_nat (current_indent (log s))) +:+ message)] |}.

(** *** Strings, tables and flags *)

(** Every character of [s] satisfies [p]. *)
Fixpoint string_forall (p : ascii → bool) (s : string) : bool :=
  match s with
  | EmptyString => true
  | String c s' => p c && string_forall p s'
  end.

(** No character of [s] is a dot. *)
Definition no_dot (s : string) : Prop :=
  string_forall (λ c, negb (Ascii.eqb c ".")) s = true.

(** The values filed under [k], in the order of [values]. *)
Definition filed_under {A} (kv : A → string * string) (values : list A)
    (k : string) : list string :=
  (λ x, (kv x).2) <$> filter (λ x, (kv x).1 = k) values.

(** An escape sequence as colorama writes them: [ESC], [[], parameters, and
    a final letter. *)
Definition escape_sequence (parameters : string) (final : ascii) : string :=
  String Ansi.ESC (String "[" (parameters +:+ String final EmptyString)).

(** [flags] holds the option [flag] followed by [value]. *)
Definition passes (flag value : string) (flags : list string) : Prop :=
  ∃ before after, flags = before ++ flag :: value :: after.

(** *** The log and the runs *)

(** The indentation of the log is the same in [s'] as in [s]. *)
Definition same_indentation (s s' : State) : Prop :=
  current_indent (log s') = current_indent (log s) ∧
  _indent_width (log s') = _indent_width (log s).

(** However a run of [m] ends, it leaves the indentation of the log as it
    found it. *)
Definition keeps_indentation {A} (m : M A) : Prop :=
  ∀ s, same_indentation s (m s).2.

(** The line [log] writes for [message] at the indentation [indent]. *)
Definition log_line (indent : Z) (message : string) : event :=
  Stderr None (Log.spaces (Z.to_nat indent) +:+ message).

(** The events that are lines of the log. *)
Definition is_stderr (e : event) : Prop :=
  match e with
  | Stderr _ _ => True
  | _ => False
  end.

(** [r] is not an [AttributeError]. *)
Definition no_attribute_error {A} (r : result A) : Prop :=
  match r with
  | Raise (AttributeError _) => False
  | _ => True
  end.

(** No call into pip, the resolver, the writer or [piptools.sync] ends in an
    [AttributeError] of its own. *)
Definition raises_no_attribute_error (env : Env) : Prop :=
  (∀ x, no_attribute_error (shlex_split env x)) ∧
  (∀ line c, no_attribute_error (install_req_from_line env line c)) ∧
  (∀ path, no_attribute_error (parse_requirements env path)) ∧
  (∀ text, no_attribute_error (parse_requirements_text env text)) ∧
  (∀ path, no_attribute_error (run_setup env path)) ∧
  (∀ a, no_attribute_error (resolve env a)) ∧
  (∀ a rs, no_attribute_error (resolve_hashes env a rs)) ∧
  (∀ path, no_attribute_error (open_write env path)) ∧
  (∀ rs force, no_attribute_error (merge env rs force)) ∧
  (∀ ti tu d fl a, no_attribute_error (sync env ti tu d fl a).2).

(** No run of [m] ends in an [AttributeError]. *)
Definition attribute_safe {A} (m : M A) : Prop :=
  ∀ s, no_attribute_error (m s).1.

(** Lines 242-369 of compile.py: the setup once the source files and the
    output file are chosen. *)
Definition setup_from (env : Env) (args : gmap string value)
    (src_files : list string) (output_file : option string)
  : M Compile.Setup :=
  let! pip_args := Compile.compose_pip_args env args in
  let! chosen := Compile.choose_repository env args pip_args output_file in
  let! constraints0 :=
    Compile.collect_constraints env src_files chosen.1.2 chosen.2 in
  Compile.log_sources env chosen.1.1 >>
  ret {| Compile.setup_src_files := src_files;
         Compile.setup_output_file := output_file;
         Compile.setup_repository := chosen.1.1;
         Compile.setup_constraints := constraints0 |}.


(** *** What pip-compile reads requirements from *)




(** * Properties *)

(** ** Strings *)

Section PyStrFacts.
Import PyStr.

Lemma append_cons (c : ascii) (s t : string) :
  String c s +:+ t = String c (s +:+ t).
Proof. reflexivity. Qed.

Lemma append_nil_l (s : string) : EmptyString +:+ s = s.
Proof. reflexivity. Qed.

Lemma append_nil_r (s : string) : s +:+ EmptyString = s.
Proof. induction s as [|c s IH]; [done|]. by rewrite append_cons, IH. Qed.

Lemma append_assoc (a b c : string) : (a +:+ b) +:+ c = a +:+ (b +:+ c).
Proof.
  induction a as [|x a IH]; [done|]. by rewrite !append_cons, IH.
Qed.

Lemma endswith_true (s suffix : string) :
  endswith s suffix = true ↔ ∃ pre, s = pre +:+ suffix.
Proof.
  split.
  - induction s as [|c s IH]; cbn [endswith].
    + destruct (String.eqb_spec EmptyString suffix) as [<-|]; [|done].
      intros _. by exists EmptyString.
    + destruct (String.eqb_spec (String c s) suffix) as [<-|Hne].
      * intros _. by exists EmptyString.
      * intros [pre ->]%IH. by exists (String c pre).
  - intros [pre ->]. induction pre as [|c pre IH].
    + rewrite append_nil_l. destruct suffix; cbn [endswith];
        by rewrite String.eqb_refl.
    + rewrite append_cons. cbn [endswith].
      destruct (String.eqb_spec (String c (pre +:+ suffix)) suffix); [done|].
      exact IH.
Qed.

Lemma endswith_false (s suffix : string) :
  endswith s suffix = false ↔ ¬ ∃ pre, s = pre +:+ suffix.
Proof.
  rewrite <- endswith_true. destruct (endswith s suffix); naive_solver.
Qed.

Lemma lower_char_not_underscore (c : ascii) :
  Ascii.eqb (lower_char c) "_" = Ascii.eqb c "_".
Proof.
  destruct c as [[] [] [] [] [] [] [] []]; reflexivity.
Qed.

Lemma lower_char_dash : lower_char "-" = "-"%char.
Proof. reflexivity. Qed.

(** Lower-casing and the replacement of [_] by [-] commute. *)
Lemma lower_replace_comm (s : string) :
  lower (replace "_" "-" s) = replace "_" "-" (lower s).
Proof.
  induction s as [|c s IH]; [done|]. cbn. rewrite IH.
  rewrite lower_char_not_underscore. f_equal.
  destruct (Ascii.eqb c "_"); [apply lower_char_dash|done].
Qed.

Lemma lower_length (s : string) : String.length (lower s) = String.length s.
Proof. induction s; cbn; congruence. Qed.

Lemma replace_length (a b : ascii) (s : string) :
  String.length (replace a b s) = String.length s.
Proof. induction s; cbn; congruence. Qed.

Lemma lower_char_idemp (c : ascii) : lower_char (lower_char c) = lower_char c.
Proof. destruct c as [[] [] [] [] [] [] [] []]; reflexivity. Qed.

Lemma lower_idemp (s : string) : lower (lower s) = lower s.
Proof. induction s; cbn; [done|]. by rewrite lower_char_idemp, IHs. Qed.

Lemma sorted_Sorted (xs : list string) : Sorted String.le (sorted xs).
Proof. apply (Sorted_merge_sort String.le). Qed.

Lemma sorted_Permutation (xs : list string) : sorted xs ≡ₚ xs.
Proof. apply (merge_sort_Permutation String.le). Qed.

(** [sorted] only depends on the elements, not on their order. *)
Lemma sorted_perm (xs ys : list string) : xs ≡ₚ ys → sorted xs = sorted ys.
Proof.
  intros Hp. apply (Sorted_unique String.le); try apply sorted_Sorted.
  by rewrite !sorted_Permutation.
Qed.

Lemma sorted_idemp (xs : list string) : sorted (sorted xs) = sorted xs.
Proof. apply sorted_perm, sorted_Permutation. Qed.

End PyStrFacts.

(** ** utils.py: pinned requirements *)

Lemma is_pinned_operator_spec (op : string) :
  is_pinned_operator op = true ↔ op = "==" ∨ op = "===".
Proof.
  unfold is_pinned_operator. rewrite orb_true_iff, !bool_decide_eq_true. done.
Qed.

(** C1, as stated, fails: a requirement pinned with [===] is accepted. *)
Lemma is_pinned_requirement_arbitrary_equality :
  is_pinned_requirement arbitrary_equality_ireq = true ∧
  ¬ pinned_by_double_equals arbitrary_equality_ireq.
Proof.
  split; [reflexivity|].
  intros (_ & q & spec & Hq & Hs & Hop & _).
  cbn in Hq. injection Hq as <-. cbn in Hs. injection Hs as <-.
  cbn in Hop. discriminate.
Qed.

(** C1 (amended): [is_pinned_requirement] holds exactly of the requirements
    that are not editable and have a requirement with exactly one version
    specifier whose operator is [==] or [===] and whose version does not end
    in [.*]. *)
Theorem is_pinned_requirement_iff (ireq : InstallRequirement) :
  is_pinned_requirement ireq = true ↔ pinned ireq.
Proof.
  unfold is_pinned_requirement, pinned.
  destruct (editable ireq).
  { split; [done|]. by intros [? _]. }
  destruct (req ireq) as [q|].
  2:{ split; [done|]. by intros (_ & q & spec & ? & _). }
  destruct (specifier q) as [|spec [|spec' rest]] eqn:Hspecs; cbn.
  - split; [done|].
    intros (_ & q' & spec0 & [= <-] & Hs & _). by rewrite Hspecs in Hs.
  - rewrite andb_true_iff, negb_true_iff, is_pinned_operator_spec,
      endswith_false.
    split.
    + intros [Hop Hv]. split; [done|]. exists q, spec. by rewrite Hspecs.
    + intros (_ & q' & spec0 & [= <-] & Hs & Hop & Hv).
      rewrite Hspecs in Hs. injection Hs as <-. done.
  - split; [done|].
    intros (_ & q' & spec0 & [= <-] & Hs & _). by rewrite Hspecs in Hs.
Qed.

(** ** utils.py: keys *)

Lemma key_from_req_normalized (r : DistOrReq) :
  key_from_req r =
  normalized_key match r with
                 | OfDistribution d => key d
                 | OfRequirement q => name q
                 end.
Proof. unfold key_from_req, normalized_key. apply lower_replace_comm. Qed.

(** Character by character: [_] becomes [-], everything else is lowercased,
    and nothing is added or dropped. *)
Lemma normalized_key_get (n : string) (i : nat) :
  String.get i (normalized_key n) =
  (λ c, if Ascii.eqb c "_" then "-"%char else PyStr.lower_char c)
    <$> String.get i n.
Proof.
  unfold normalized_key. revert i.
  induction n as [|c n IH]; intros i; [done|].
  destruct i as [|i]; cbn.
  - by rewrite lower_char_not_underscore.
  - apply IH.
Qed.

Lemma normalized_key_no_underscore (n : string) (i : nat) :
  String.get i (normalized_key n) ≠ Some "_"%char.
Proof.
  rewrite normalized_key_get. destruct (String.get i n) as [c|]; [|done].
  cbn. destruct (Ascii.eqb c "_") eqn:E; [done|].
  intros [= H]. by rewrite <- lower_char_not_underscore, H in E.
Qed.

(** The key of a distribution whose [key] is its lowercased project name,
    as pkg_resources defines it. *)
Lemma key_from_req_distribution (d : Distribution) :
  key d = PyStr.lower (project_name d) →
  key_from_req (OfDistribution d) = normalized_key (project_name d).
Proof.
  intros Hk. rewrite key_from_req_normalized, Hk.
  unfold normalized_key. by rewrite lower_idemp.
Qed.




(** ** utils.py: hashes *)

Lemma append_digests (algorithm : string) (hexdigests acc : list string) :
  foldl (λ result1 hash_, result1 ++ [algorithm +:+ ":" +:+ hash_])
        acc hexdigests
  = acc ++ ((λ h, format_hash (algorithm, h)) <$> hexdigests).
Proof.
  revert acc. induction hexdigests as [|h hs IH]; intros acc; cbn.
  - by rewrite app_nil_r.
  - rewrite IH. by rewrite <- app_assoc.
Qed.

Lemma get_hashes_loop (options : list (string * list string)) (acc : list string) :
  foldl (λ result0 '(algorithm, hexdigests),
           foldl (λ result1 hash_, result1 ++ [algorithm +:+ ":" +:+ hash_])
                 result0 hexdigests) acc options
  = acc ++ (format_hash <$> hash_pairs options).
Proof.
  revert acc. induction options as [|[algorithm hs] rest IH]; intros acc; cbn.
  - by rewrite app_nil_r.
  - rewrite append_digests, IH. unfold hash_pairs. cbn.
    rewrite fmap_app, <- app_assoc. do 2 f_equal.
    rewrite <- list_fmap_compose. done.
Qed.

(** C8: [get_hashes_from_ireq] returns one string [algorithm:hexdigest] for
    each (algorithm, hexdigest) pair of the hash options, in their order, and
    the empty list when there are no hashes (and only then). *)
Theorem get_hashes_from_ireq_spec (ireq : InstallRequirement) :
  get_hashes_from_ireq ireq = format_hash <$> hash_pairs (hash_options ireq) ∧
  length (get_hashes_from_ireq ireq) = length (hash_pairs (hash_options ireq)) ∧
  (get_hashes_from_ireq ireq = [] ↔ hash_pairs (hash_options ireq) = []) ∧
  (hash_options ireq = [] → get_hashes_from_ireq ireq = []).
Proof.
  assert (get_hashes_from_ireq ireq
          = format_hash <$> hash_pairs (hash_options ireq)) as Heq.
  { unfold get_hashes_from_ireq. by rewrite get_hashes_loop. }
  split; [done|]. split; [|split].
  - by rewrite Heq, length_fmap.
  - rewrite Heq. split; [apply fmap_nil_inv|by intros ->].
  - intros H0. by rewrite Heq, H0.
Qed.

Lemma get_hashes_from_ireq_spec_witness :
  get_hashes_from_ireq (requirement_line "foo" []) = [].
Proof.
  exact (proj2 (proj2 (proj2
            (get_hashes_from_ireq_spec (requirement_line "foo" [])))) eq_refl).
Defined.

(** A requirement with three digests under two algorithms. *)
Example get_hashes_from_ireq_example :
  get_hashes_from_ireq
    {| req := None; link := None; editable := false; constraint := false;
       extras := ∅; markers := None;
       hash_options := [("sha256", ["ab"; "cd"]); ("md5", ["ef"])];
       comes_from := None |}
  = ["sha256:ab"; "sha256:cd"; "md5:ef"].
Proof. reflexivity. Qed.

(** ** utils.py: [make_install_requirement] and [as_tuple] *)

Lemma as_tuple_not_pinned (ireq : InstallRequirement) :
  is_pinned_requirement ireq = false → as_tuple ireq = Raise not_pinned_error.
Proof. intros H. unfold as_tuple. by rewrite H. Qed.

Lemma as_tuple_pinned (ireq : InstallRequirement) :
  is_pinned_requirement ireq = true →
  ∃ q spec, req ireq = Some q ∧ specifier q = [spec] ∧
    as_tuple ireq = Ok (normalized_key (name q), version spec,
                        PyStr.sorted (elements (extras ireq))).
Proof.
  intros Hp. pose proof Hp as (_ & q & spec & Hq & Hs & _)%is_pinned_requirement_iff.
  exists q, spec. split; [done|]. split; [done|].
  unfold as_tuple, key_from_ireq. rewrite Hp, Hq, Hs. cbn [negb rbind].
  by rewrite (key_from_req_normalized (OfRequirement q)).
Qed.

(** [as_tuple] never fails on a pinned requirement and always fails on
    another one. *)
Lemma as_tuple_ok_iff (ireq : InstallRequirement) :
  is_pinned_requirement ireq = true ↔ ∃ t, as_tuple ireq = Ok t.
Proof.
  split.
  - intros (q & spec & _ & _ & ->)%as_tuple_pinned. eauto.
  - intros [t Ht]. destruct (is_pinned_requirement ireq) eqn:Hp; [done|].
    by rewrite as_tuple_not_pinned in Ht.
Qed.



(** ** The reference reader reads back what [make_install_requirement] writes *)

Section ReferenceReader.
Import RequirementLine.


















End ReferenceReader.



(** A name that is none of the grammar gives no requirement at all. *)
Example make_install_requirement_malformed :
  make_install_requirement RequirementLine.install_req_from_line
    "foo bar" "1.0" ∅ false = Raise (OtherError "Invalid requirement").
Proof. by vm_compute. Qed.

(** ** The monad of the scripts *)

Lemma bind_ok_inv {A B} (m : M A) (k : A → M B) (s s' : State) (b : B) :
  bind m k s = (Ok b, s') →
  ∃ a s1, m s = (Ok a, s1) ∧ k a s1 = (Ok b, s').
Proof.
  unfold bind. destruct (m s) as [[a|e] s1]; [eauto|done].
Qed.

Lemma bind_ok {A B} (m : M A) (k : A → M B) (s s1 : State) (a : A) :
  m s = (Ok a, s1) → bind m k s = k a s1.
Proof. unfold bind. by intros ->. Qed.

Lemma bind_raise {A B} (m : M A) (k : A → M B) (s s1 : State) (e : exn) :
  m s = (Raise e, s1) → bind m k s = (Raise e, s1).
Proof. unfold bind. by intros ->. Qed.

Lemma lift_ok_inv {A} (r : result A) (s s' : State) (a : A) :
  lift r s = (Ok a, s') → r = Ok a ∧ s' = s.
Proof. unfold lift. by intros [= -> ->]. Qed.

Lemma ret_ok_inv {A} (x a : A) (s s' : State) :
  ret x s = (Ok a, s') → a = x ∧ s' = s.
Proof. unfold ret. by intros [= -> ->]. Qed.

Lemma attr_truthy_ok_inv (args : gmap string value) (attr : string)
    (s s' : State) (b : bool) :
  attr_truthy args attr s = (Ok b, s') →
  ∃ v, getattr args attr = Ok v ∧ b = truthy v ∧ s' = s.
Proof.
  unfold attr_truthy. intros (v & s1 & H1 & H2)%bind_ok_inv.
  apply lift_ok_inv in H1 as [H1 ->]. apply ret_ok_inv in H2 as [-> ->]. eauto.
Qed.

Lemma attr_list_ok_inv (args : gmap string value) (attr : string)
    (s s' : State) (l : list string) :
  attr_list args attr s = (Ok l, s') →
  ∃ v, getattr args attr = Ok v ∧ as_list v = Ok l ∧ s' = s.
Proof.
  unfold attr_list. intros (v & s1 & H1 & H2)%bind_ok_inv.
  apply lift_ok_inv in H1 as [H1 ->]. apply lift_ok_inv in H2 as [H2 ->]. eauto.
Qed.

Lemma attr_opt_str_ok_inv (args : gmap string value) (attr : string)
    (s s' : State) (o : option string) :
  attr_opt_str args attr s = (Ok o, s') →
  ∃ v, getattr args attr = Ok v ∧ as_opt_str v = Ok o ∧ s' = s.
Proof.
  unfold attr_opt_str. intros (v & s1 & H1 & H2)%bind_ok_inv.
  apply lift_ok_inv in H1 as [H1 ->]. apply lift_ok_inv in H2 as [H2 ->]. eauto.
Qed.

(** ** compile.py: the pins taken from the existing output file *)

Section ExistingPins.
Import Compile.

Context (upgrade_install_reqs : list (string * InstallRequirement)).

Lemma dict_has_spec {V} (k : string) (d : list (string * V)) :
  dict_has k d = true ↔ k ∈ d.*1.
Proof. unfold dict_has. by rewrite bool_decide_eq_true. Qed.

Lemma dict_has_false {V} (k : string) (d : list (string * V)) :
  dict_has k d = false ↔ k ∉ d.*1.
Proof. unfold dict_has. by rewrite bool_decide_eq_false. Qed.

Lemma dict_set_keys {V} (k : string) (v : V) (d : list (string * V)) (k' : string) :
  k' ∈ (dict_set k v d).*1 ↔ k' = k ∨ k' ∈ d.*1.
Proof.
  induction d as [|[k0 v0] d IH]; cbn.
  - rewrite list_elem_of_singleton. split; [by left|].
    intros [?|[]%elem_of_nil]. done.
  - case_bool_decide as Hk; cbn.
    + subst k0. rewrite !elem_of_cons. tauto.
    + rewrite !elem_of_cons, IH. tauto.
Qed.

Lemma key_from_ireq_pinned (ireq : InstallRequirement) :
  is_pinned_requirement ireq = true → ∃ k, key_from_ireq ireq = Ok k.
Proof.
  intros (_ & q & _ & Hq & _)%is_pinned_requirement_iff.
  unfold key_from_ireq. rewrite Hq. eauto.
Qed.

(** One round of the loop of lines 289-294. *)
Lemma collect_pins_cons (ireq : InstallRequirement)
    (rest : list InstallRequirement) (k : string)
    (st : gmap string InstallRequirement * gset string) :
  key_from_ireq ireq = Ok k →
  collect_pins upgrade_install_reqs (ireq :: rest) st =
  collect_pins upgrade_install_reqs rest
    (if dict_has k upgrade_install_reqs then (st.1, {[k]} ∪ st.2)
     else (<[k := ireq]> st.1, st.2)).
Proof.
  intros Hk. cbn [collect_pins]. rewrite Hk. cbn [rbind].
  by destruct (dict_has k upgrade_install_reqs).
Qed.

Lemma collect_pins_app (before after : list InstallRequirement)
    (st : gmap string InstallRequirement * gset string) :
  collect_pins upgrade_install_reqs (before ++ after) st =
  rbind (collect_pins upgrade_install_reqs before st)
        (collect_pins upgrade_install_reqs after).
Proof.
  revert st. induction before as [|x before IH]; intros st; [done|].
  cbn [app collect_pins]. destruct (key_from_ireq x) as [k|e]; [|done].
  cbn [rbind]. by destruct (dict_has k upgrade_install_reqs); rewrite IH.
Qed.

(** The loop ends without an exception when every requirement has a key. *)
Lemma collect_pins_total (ireqs : list InstallRequirement)
    (st : gmap string InstallRequirement * gset string) :
  Forall (λ ireq, ∃ k, key_from_ireq ireq = Ok k) ireqs →
  ∃ st', collect_pins upgrade_install_reqs ireqs st = Ok st'.
Proof.
  intros Hkeys. revert st.
  induction Hkeys as [|ireq rest [k Hk] _ IH]; intros st; [by eexists|].
  rewrite (collect_pins_cons _ _ _ _ Hk). apply IH.
Qed.

(** A key no requirement of the list has keeps its binding. *)
Lemma collect_pins_other (ireqs : list InstallRequirement) (k : string)
    (st st' : gmap string InstallRequirement * gset string) :
  Forall (λ ireq, key_from_ireq ireq ≠ Ok k) ireqs →
  collect_pins upgrade_install_reqs ireqs st = Ok st' →
  st'.1 !! k = st.1 !! k.
Proof.
  revert st. induction ireqs as [|x l IH]; intros st Hl Hc.
  - cbn in Hc. by injection Hc as <-.
  - apply Forall_cons in Hl as [Hx Hl].
    destruct (key_from_ireq x) as [kx|e] eqn:Hkx;
      [|by cbn [collect_pins] in Hc; rewrite Hkx in Hc].
    rewrite (collect_pins_cons _ _ _ _ Hkx) in Hc.
    rewrite (IH _ Hl Hc). destruct (dict_has kx upgrade_install_reqs); [done|].
    cbn. apply lookup_insert_ne. by intros ->.
Qed.

(** A key of the upgrade list never gets a binding. *)
Lemma collect_pins_upgraded (ireqs : list InstallRequirement) (k : string)
    (st st' : gmap string InstallRequirement * gset string) :
  k ∈ upgrade_install_reqs.*1 →
  collect_pins upgrade_install_reqs ireqs st = Ok st' →
  st'.1 !! k = st.1 !! k.
Proof.
  intros Hin. revert st. induction ireqs as [|x l IH]; intros st Hc.
  - cbn in Hc. by injection Hc as <-.
  - destruct (key_from_ireq x) as [kx|e] eqn:Hkx;
      [|by cbn [collect_pins] in Hc; rewrite Hkx in Hc].
    rewrite (collect_pins_cons _ _ _ _ Hkx) in Hc. rewrite (IH _ Hc).
    destruct (dict_has kx upgrade_install_reqs) eqn:Hhas; [done|].
    cbn. apply lookup_insert_ne. intros ->.
    apply dict_has_false in Hhas. done.
Qed.

(** Every binding was there before or comes from the list. *)
Lemma collect_pins_origin (ireqs : list InstallRequirement) (k : string)
    (v : InstallRequirement)
    (st st' : gmap string InstallRequirement * gset string) :
  collect_pins upgrade_install_reqs ireqs st = Ok st' →
  st'.1 !! k = Some v →
  st.1 !! k = Some v ∨
  (v ∈ ireqs ∧ key_from_ireq v = Ok k ∧ k ∉ upgrade_install_reqs.*1).
Proof.
  revert st. induction ireqs as [|x l IH]; intros st Hc Hv.
  - cbn in Hc. injection Hc as <-. by left.
  - destruct (key_from_ireq x) as [kx|e] eqn:Hkx;
      [|by cbn [collect_pins] in Hc; rewrite Hkx in Hc].
    rewrite (collect_pins_cons _ _ _ _ Hkx) in Hc.
    destruct (IH _ Hc Hv) as [Hst|(Hin & Hkv & Hnot)].
    + destruct (dict_has kx upgrade_install_reqs) eqn:Hhas; [by left|].
      cbn in Hst. rewrite lookup_insert in Hst. case_decide as Hkk; [|by left].
      subst kx. injection Hst as <-. right.
      split; [by left|]. split; [done|]. by apply dict_has_false.
    + right. split; [by right|done].
Qed.

(** The last requirement with a key that is not upgraded is the one bound. *)
Lemma collect_pins_last (before after : list InstallRequirement)
    (ireq : InstallRequirement) (k : string)
    (st st' : gmap string InstallRequirement * gset string) :
  key_from_ireq ireq = Ok k → k ∉ upgrade_install_reqs.*1 →
  Forall (λ later, key_from_ireq later ≠ Ok k) after →
  collect_pins upgrade_install_reqs (before ++ ireq :: after) st = Ok st' →
  st'.1 !! k = Some ireq.
Proof.
  intros Hk Hnot Hlater Hc. rewrite collect_pins_app in Hc.
  destruct (collect_pins upgrade_install_reqs before st) as [st1|e]; [|done].
  cbn [rbind] in Hc. rewrite (collect_pins_cons _ _ _ _ Hk) in Hc.
  apply dict_has_false in Hnot. rewrite Hnot in Hc.
  rewrite (collect_pins_other _ _ _ _ Hlater Hc). cbn.
  apply lookup_insert_eq.
Qed.

(** The keys gathered in [existing_pins_to_upgrade]. *)
Lemma collect_pins_to_upgrade (ireqs : list InstallRequirement) (k : string)
    (st st' : gmap string InstallRequirement * gset string) :
  collect_pins upgrade_install_reqs ireqs st = Ok st' →
  k ∈ st'.2 ↔
  k ∈ st.2 ∨ (k ∈ upgrade_install_reqs.*1 ∧
              ∃ ireq, ireq ∈ ireqs ∧ key_from_ireq ireq = Ok k).
Proof.
  revert st. induction ireqs as [|x l IH]; intros st Hc.
  - cbn in Hc. injection Hc as <-. split; [by left|].
    intros [?|(_ & ? & []%elem_of_nil & _)]. done.
  - destruct (key_from_ireq x) as [kx|e] eqn:Hkx;
      [|by cbn [collect_pins] in Hc; rewrite Hkx in Hc].
    rewrite (collect_pins_cons _ _ _ _ Hkx) in Hc. rewrite (IH _ Hc).
    destruct (dict_has kx upgrade_install_reqs) eqn:Hhas; cbn.
    + apply dict_has_spec in Hhas.
      rewrite elem_of_union, elem_of_singleton. split.
      * intros [[->|?]|(? & i & ? & ?)]; [|by left|].
        -- right. split; [done|]. exists x. split; [by left|done].
        -- right. split; [done|]. exists i. split; [by right|done].
      * intros [?|(? & i & [->|?]%elem_of_cons & Hi)]; [by left; right| |].
        -- rewrite Hkx in Hi. injection Hi as ->. by left; left.
        -- right. split; [done|]. by exists i.
    + apply dict_has_false in Hhas. split.
      * intros [?|(? & i & ? & ?)]; [by left|].
        right. split; [done|]. exists i. split; [by right|done].
      * intros [?|(Hin & i & [->|?]%elem_of_cons & Hi)]; [by left| |].
        -- rewrite Hkx in Hi. injection Hi as ->. done.
        -- right. split; [done|]. by exists i.
Qed.

End ExistingPins.

Section ReusedPins.
Import Compile.
Context (env : Env).

(** Bindings are never removed by the loop. *)
Lemma collect_pins_mono (d : list (string * InstallRequirement))
    (ireqs : list InstallRequirement) (k : string)
    (st st' : gmap string InstallRequirement * gset string) :
  collect_pins d ireqs st = Ok st' →
  is_Some (st.1 !! k) → is_Some (st'.1 !! k).
Proof.
  revert st. induction ireqs as [|x l IH]; intros st Hc Hsome.
  - cbn in Hc. by injection Hc as <-.
  - destruct (key_from_ireq x) as [kx|e] eqn:Hkx;
      [|by cbn [collect_pins] in Hc; rewrite Hkx in Hc].
    rewrite (collect_pins_cons _ _ _ _ _ Hkx) in Hc.
    apply (IH _ Hc). destruct (dict_has kx d); [done|]. cbn.
    rewrite lookup_insert. by case_decide.
Qed.

(** A requirement of the list whose key is not upgraded leaves its key
    bound. *)
Lemma collect_pins_bound (d : list (string * InstallRequirement))
    (ireqs : list InstallRequirement) (ireq : InstallRequirement) (k : string)
    (st st' : gmap string InstallRequirement * gset string) :
  ireq ∈ ireqs → key_from_ireq ireq = Ok k → k ∉ d.*1 →
  collect_pins d ireqs st = Ok st' →
  is_Some (st'.1 !! k).
Proof.
  intros (before & after & ->)%list_elem_of_split Hk Hnot Hc.
  rewrite collect_pins_app in Hc.
  destruct (collect_pins d before st) as [st1|e]; [|done].
  cbn [rbind] in Hc. rewrite (collect_pins_cons _ _ _ _ _ Hk) in Hc.
  apply dict_has_false in Hnot. rewrite Hnot in Hc.
  apply (collect_pins_mono _ _ _ _ _ Hc). cbn.
  rewrite lookup_insert_eq. by eexists.
Qed.

(** The keys of [upgrade_install_reqs] are the keys of the requirements
    given with [--upgrade-package]. *)
Lemma upgrade_reqs_keys (parse : string → bool → result InstallRequirement)
    (packages : list string) (acc up : list (string * InstallRequirement))
    (k : string) :
  upgrade_reqs parse packages acc = Ok up →
  k ∈ up.*1 ↔
  k ∈ acc.*1 ∨ ∃ pkg r, pkg ∈ packages ∧ parse pkg false = Ok r ∧
                        key_from_ireq r = Ok k.
Proof.
  revert acc. induction packages as [|pkg rest IH]; intros acc Hup.
  - cbn in Hup. injection Hup as <-. split; [by left|].
    intros [?|(? & ? & []%elem_of_nil & _)]. done.
  - cbn [upgrade_reqs] in Hup.
    destruct (parse pkg false) as [r|e] eqn:Hr; [|done]. cbn [rbind] in Hup.
    destruct (key_from_ireq r) as [kr|e] eqn:Hkr; [|done]. cbn [rbind] in Hup.
    rewrite (IH _ Hup), dict_set_keys. split.
    + intros [[->|?]|(p & r' & ? & ? & ?)]; [|by left|].
      * right. exists pkg, r. split; [by left|done].
      * right. exists p, r'. split; [by right|done].
    + intros [?|(p & r' & [->|?]%elem_of_cons & Hp & Hk')]; [by left; right| |].
      * rewrite Hr in Hp. injection Hp as <-. rewrite Hkr in Hk'.
        injection Hk' as ->. by left; left.
      * right. by exists p, r'.
Qed.

Lemma existing_pins_of_spec (args : gmap string value)
    (v : value) (packages : list string)
    (up : list (string * InstallRequirement))
    (ireqs : list InstallRequirement)
    (pins : gmap string InstallRequirement) (to_upgrade : gset string) :
  getattr args "upgrade_packages" = Ok v → as_list v = Ok packages →
  upgrade_reqs (install_req_from_line env) packages [] = Ok up →
  existing_pins_of up ireqs = Ok (pins, to_upgrade) →
  pins_of_output env args ireqs pins.
Proof.
  intros Hv Hpk Hup Hpins. unfold existing_pins_of in Hpins.
  assert (∀ k, in_upgrade_list env args k ↔ k ∈ up.*1) as Hin.
  { intros k. rewrite (upgrade_reqs_keys _ _ _ _ k Hup). split.
    - intros (v' & pk' & pkg & r & Hv' & Hpk' & ? & ? & ?).
      rewrite Hv in Hv'. injection Hv' as <-. rewrite Hpk in Hpk'.
      injection Hpk' as <-. right. by exists pkg, r.
    - intros [[]%elem_of_nil|(pkg & r & ? & ? & ?)].
      by exists v, packages, pkg, r. }
  split; [|split; [|split]].
  - intros ireq k Hi Hp Hk Hnot. rewrite Hin in Hnot.
    assert (ireq ∈ filter (λ i, is_pinned_requirement i = true) ireqs) as Hf.
    { by apply list_elem_of_filter. }
    destruct (collect_pins_bound _ _ _ _ _ _ Hf Hk Hnot Hpins) as [kept Hkept].
    exists kept. split; [done|].
    destruct (collect_pins_origin _ _ _ _ _ _ Hpins Hkept)
      as [Habs|(Hkin & Hkk & _)]; [by cbn in Habs; rewrite lookup_empty in Habs|].
    apply list_elem_of_filter in Hkin as [? ?]. done.
  - intros before ireq after k -> Hp Hk Hnot Hlater. rewrite Hin in Hnot.
    rewrite filter_app, filter_cons_True in Hpins by done.
    change pins with (pins, to_upgrade).1.
    eapply (collect_pins_last _ _ _ _ _ _ _ Hk Hnot); [|exact Hpins].
    apply Forall_forall. intros later [Hlp Hlin]%list_elem_of_filter.
    rewrite Forall_forall in Hlater. by apply Hlater.
  - intros ireq k _ _ _ Hup'. rewrite Hin in Hup'.
    change pins with (pins, to_upgrade).1.
    by rewrite (collect_pins_upgraded _ _ _ _ _ Hup' Hpins).
  - intros k kept Hkept.
    destruct (collect_pins_origin _ _ _ _ _ _ Hpins Hkept)
      as [Habs|(Hkin & Hkk & Hnot)]; [by cbn in Habs; rewrite lookup_empty in Habs|].
    apply list_elem_of_filter in Hkin as [? ?]. by rewrite Hin.
Qed.

(** The loop over the pinned requirements never raises. *)
Lemma existing_pins_of_total (up : list (string * InstallRequirement))
    (ireqs : list InstallRequirement) :
  ∃ st, existing_pins_of up ireqs = Ok st.
Proof.
  apply collect_pins_total, Forall_forall.
  intros ireq [Hp _]%list_elem_of_filter. by apply key_from_ireq_pinned.
Qed.

Lemma choose_repository_reuse (args : gmap string value)
    (pip_args : list string) (path : string) (s s' : State)
    (chosen : Repository * list (string * InstallRequirement) * gset string) :
  reuses_output env args path →
  choose_repository env args pip_args (Some path) s = (Ok chosen, s') →
  ∃ ireqs pins proxied reuse,
    parse_requirements env path = Ok ireqs ∧
    chosen.1.1 = LocalRequirementsRepository pins proxied reuse ∧
    pins_of_output env args ireqs pins.
Proof.
  intros ((vu & Hvu & Hfalse) & Hne & Hex) Hc. unfold choose_repository in Hc.
  apply bind_ok_inv in Hc as (cache_dir & s1 & _ & Hc).
  apply bind_ok_inv in Hc as (packages & s2 & Hpk & Hc).
  apply attr_list_ok_inv in Hpk as (v & Hv & Hpk & _).
  apply bind_ok_inv in Hc as (up & s3 & [Hup _]%lift_ok_inv & Hc).
  apply bind_ok_inv in Hc as (upgrade & s4 & Hu & Hc).
  apply attr_truthy_ok_inv in Hu as (vu' & Hvu' & -> & _).
  rewrite Hvu in Hvu'. injection Hvu' as <-. rewrite Hfalse in Hc.
  cbn [negb andb from_option id Sync.nonempty] in Hc.
  rewrite bool_decide_eq_false_2 in Hc by done. rewrite Hex in Hc.
  cbn [negb andb] in Hc.
  apply bind_ok_inv in Hc as (? & s5 & _ & Hc).
  apply bind_ok_inv in Hc as ([] & s6 & _ & Hc).
  apply bind_ok_inv in Hc as (ireqs & s7 & [Hparse _]%lift_ok_inv & Hc).
  apply bind_ok_inv in Hc as ([pins to_up] & s8 & [Hpins _]%lift_ok_inv & Hc).
  apply bind_ok_inv in Hc as (reuse & s9 & _ & Hc).
  apply ret_ok_inv in Hc as [-> _].
  exists ireqs, pins, (PyPIRepository pip_args cache_dir), reuse.
  split; [done|]. split; [done|].
  by eapply existing_pins_of_spec.
Qed.

Lemma setup_inv (args : gmap string value) (s s' : State) (r : Setup) :
  setup env args s = (Ok r, s') →
  ∃ pip_args s1 s2 chosen,
    choose_repository env args pip_args (setup_output_file r) s1
      = (Ok chosen, s2) ∧
    setup_repository r = chosen.1.1.
Proof.
  unfold setup. intros Hs.
  apply bind_ok_inv in Hs as (src_files & s1 & _ & Hs).
  apply bind_ok_inv in Hs as (output_file & s2 & _ & Hs).
  apply bind_ok_inv in Hs as (pip_args & s3 & _ & Hs).
  apply bind_ok_inv in Hs as (chosen & s4 & Hc & Hs).
  apply bind_ok_inv in Hs as (constraints0 & s5 & _ & Hs).
  apply bind_ok_inv in Hs as ([] & s6 & _ & Hs).
  apply ret_ok_inv in Hs as [-> _]. cbn. by exists pip_args, s3, s4, chosen.
Qed.

(** C4 (amended): when [--upgrade] is not given and the output file
    exists, the repository of the run is a [LocalRequirementsRepository]
    whose [existing_pins] binds the key of every pinned requirement of the
    prior output that is not in the [--upgrade-package] list, to the last
    pinned requirement of the prior output with that key; keys in the
    [--upgrade-package] list are unbound; and every binding is a pinned
    requirement of the prior output. *)
Theorem existing_pins_reused (args : gmap string value) (s s' : State)
    (r : Setup) (path : string) :
  setup env args s = (Ok r, s') →
  setup_output_file r = Some path →
  reuses_output env args path →
  ∃ ireqs pins proxied reuse,
    parse_requirements env path = Ok ireqs ∧
    setup_repository r = LocalRequirementsRepository pins proxied reuse ∧
    pins_of_output env args ireqs pins.
Proof.
  intros (pip_args & s1 & s2 & chosen & Hc & Hrepo)%setup_inv Hout Hreuse.
  rewrite Hout in Hc. rewrite Hrepo.
  by eapply choose_repository_reuse.
Qed.

End ReusedPins.

Section ReusedPinsExamples.
Import Compile.

(** C4, as stated, fails: of two pinned lines for one package in the prior
    output, only the later one is in [existing_pins]. *)
Lemma existing_pins_duplicate_key :
  let env := Demo.env [Demo.pin "foo" "1.0"]
               [Demo.pin "foo" "1.0"; Demo.pin "foo" "2.0"] Demo.resolves in
  let args := Demo.compile_args [] in
  parse_requirements env "requirements.txt"
    = Ok [Demo.pin "foo" "1.0"; Demo.pin "foo" "2.0"] ∧
  is_pinned_requirement (Demo.pin "foo" "1.0") = true ∧
  key_from_ireq (Demo.pin "foo" "1.0") = Ok "foo" ∧
  ¬ in_upgrade_list env args "foo" ∧
  ∃ r s' pins,
    setup env args initial_state = (Ok r, s') ∧
    setup_repository r =
      LocalRequirementsRepository pins (PyPIRepository [] (Some "/cache")) true ∧
    pins !! "foo" = Some (Demo.pin "foo" "2.0") ∧
    ∀ k, pins !! k ≠ Some (Demo.pin "foo" "1.0").
Proof.
  intros env args. split; [reflexivity|]. split; [reflexivity|].
  split; [reflexivity|]. split.
  - intros (v & packages & pkg & r & Hv & Hpk & Hin & _).
    vm_compute in Hv. injection Hv as <-. cbn in Hpk. injection Hpk as <-.
    by apply elem_of_nil in Hin.
  - eexists _, _, {[ "foo" := Demo.pin "foo" "2.0" ]}.
    split; [vm_compute; reflexivity|].
    split; [vm_compute; reflexivity|].
    split; [apply lookup_singleton_eq|].
    intros k. rewrite lookup_singleton. case_decide; [|done].
    by intros [=].
Qed.

(** A run that reuses [foo==1.0] and [bar==2.0] while [--upgrade-package
    bar] is given. *)
Lemma existing_pins_reused_witness :
  let env := Demo.env [Demo.pin "foo" "1.0"]
               [Demo.pin "foo" "1.0"; Demo.pin "bar" "2.0"] Demo.resolves in
  let args := Demo.compile_args [("upgrade_packages", VList ["bar"])] in
  ∃ r s' pins proxied reuse,
    setup env args initial_state = (Ok r, s') ∧
    setup_repository r = LocalRequirementsRepository pins proxied reuse ∧
    pins_of_output env args
      [Demo.pin "foo" "1.0"; Demo.pin "bar" "2.0"] pins.
Proof.
  intros env args.
  destruct (setup env args initial_state) as [[r|e] s'] eqn:Hs;
    [|by vm_compute in Hs].
  assert (setup_output_file r = Some "requirements.txt") as Hout.
  { vm_compute in Hs. by injection Hs as <- _. }
  destruct (existing_pins_reused env args initial_state s' r
              "requirements.txt" Hs Hout)
    as (ireqs & pins & proxied & reuse & Hparse & Hrepo & Hpins).
  { split; [|split]; [|done|reflexivity].
    exists (VBool false). split; [vm_compute|]; reflexivity. }
  injection Hparse as <-. by exists r, s', pins, proxied, reuse.
Defined.

End ReusedPinsExamples.

(** ** Traces: what a computation can add *)

Section Traces.
Context (P : event → Prop).

Lemma adds_only_ret {A} (a : A) : adds_only P (ret a).
Proof. intros s. exists []. by rewrite app_nil_r. Qed.

Lemma adds_only_raise {A} (e : exn) : adds_only P (@raise A e).
Proof. intros s. exists []. by rewrite app_nil_r. Qed.

Lemma adds_only_lift {A} (r : result A) : adds_only P (lift r).
Proof. intros s. exists []. by rewrite app_nil_r. Qed.

Lemma adds_only_get_log : adds_only P get_log.
Proof. intros s. exists []. by rewrite app_nil_r. Qed.

Lemma adds_only_set_log (l : LogContext) : adds_only P (set_log l).
Proof. intros s. exists []. by rewrite app_nil_r. Qed.

Lemma adds_only_emit (e : event) : P e → adds_only P (emit e).
Proof. intros He s. exists [e]. split; [done|]. by constructor. Qed.

Lemma adds_only_bind {A B} (m : M A) (k : A → M B) :
  adds_only P m → (∀ a, adds_only P (k a)) → adds_only P (bind m k).
Proof.
  intros Hm Hk s. unfold bind. destruct (Hm s) as (n1 & E1 & F1).
  destruct (m s) as [[a|e] s1]; cbn in E1.
  - destruct (Hk a s1) as (n2 & E2 & F2). exists (n1 ++ n2).
    rewrite E2, E1, app_assoc. split; [done|]. by apply Forall_app.
  - by exists n1.
Qed.

Lemma adds_only_try_except {A} (body : M A) (handler : string → M A) :
  adds_only P body → (∀ e, adds_only P (handler e)) →
  adds_only P (try_except_PipToolsError body handler).
Proof.
  intros Hm Hk s. unfold try_except_PipToolsError.
  destruct (Hm s) as (n1 & E1 & F1).
  destruct (body s) as [[a|e] s1]; cbn in E1; [by exists n1|].
  destruct e; try by exists n1.
  destruct (Hk msg s1) as (n2 & E2 & F2). exists (n1 ++ n2).
  rewrite E2, E1, app_assoc. split; [done|]. by apply Forall_app.
Qed.

Lemma adds_only_try_finally {A} (body : M A) (cleanup : M unit) :
  adds_only P body → adds_only P cleanup → adds_only P (try_finally body cleanup).
Proof.
  intros Hm Hk s. unfold try_finally.
  destruct (Hm s) as (n1 & E1 & F1). destruct (body s) as [r s1]; cbn in E1.
  destruct (Hk s1) as (n2 & E2 & F2).
  exists (n1 ++ n2). rewrite app_assoc, <- E1.
  destruct (cleanup s1) as [[[]|e] s2]; cbn in E2 |- *;
    (split; [done|by apply Forall_app]).
Qed.

Lemma adds_only_for_each {A} (xs : list A) (body : A → M unit) :
  (∀ x, adds_only P (body x)) → adds_only P (for_each xs body).
Proof.
  intros Hb. induction xs as [|x xs IH]; cbn.
  - apply adds_only_ret.
  - apply adds_only_bind; [apply Hb|done].
Qed.

Lemma adds_only_map_M {A B} (f : A → M B) (xs : list A) :
  (∀ x, adds_only P (f x)) → adds_only P (map_M f xs).
Proof.
  intros Hb. induction xs as [|x xs IH]; cbn.
  - apply adds_only_ret.
  - apply adds_only_bind; [apply Hb|intros y].
    apply adds_only_bind; [done|intros ys]. apply adds_only_ret.
Qed.

(** What holds of the whole trace before a run, and of what the run adds,
    holds of the whole trace after it. *)
Lemma adds_only_Forall {A} (m : M A) (s : State) :
  adds_only P m → Forall P (trace s) → Forall P (trace (m s).2).
Proof.
  intros Hm Hs. destruct (Hm s) as (new & -> & Hnew). by apply Forall_app.
Qed.

End Traces.

(** Decomposes a computation along its binds, branches and loops. *)
Ltac adds_only_step :=
  first
    [ apply adds_only_ret | apply adds_only_raise | apply adds_only_lift
    | apply adds_only_get_log | apply adds_only_set_log
    | apply adds_only_bind; [|intros ?]
    | apply adds_only_try_except; [|intros ?]
    | apply adds_only_try_finally
    | apply adds_only_for_each; intros ?
    | apply adds_only_map_M; intros ?
    | apply adds_only_emit; done
    | match goal with
      | |- adds_only _ (if ?b then _ else _) => destruct b
      | |- adds_only _ (match ?x with _ => _ end) => destruct x
      | |- adds_only _ (let '(_, _) := ?x in _) => destruct x
      end ].

Ltac adds_only := repeat adds_only_step.

Section LogTraces.
Context (P : event → Prop) (Hstderr : ∀ fore line, P (Stderr fore line)).

Lemma adds_only_log_ fore message : adds_only P (Log.log_ fore message).
Proof.
  unfold Log.log_. adds_only; try (apply adds_only_emit, Hstderr).
Qed.

Lemma adds_only_debug message : adds_only P (Log.debug message).
Proof. unfold Log.debug. adds_only; apply adds_only_log_. Qed.

Lemma adds_only_info message : adds_only P (Log.info message).
Proof. unfold Log.info. adds_only; apply adds_only_log_. Qed.

Lemma adds_only_warning message : adds_only P (Log.warning message).
Proof. apply adds_only_log_. Qed.

Lemma adds_only_error message : adds_only P (Log.error message).
Proof. apply adds_only_log_. Qed.

Lemma adds_only_indentation {A} (body : M A) :
  adds_only P body → adds_only P (Log.indentation body).
Proof.
  intros Hb. unfold Log.indentation, Log._indent, Log._dedent. adds_only; done.
Qed.

Lemma adds_only_set_verbosity_from args :
  adds_only P (set_verbosity_from args).
Proof. unfold set_verbosity_from, Log.set_verbosity. adds_only. Qed.

Lemma adds_only_attr_truthy args attr : adds_only P (attr_truthy args attr).
Proof. unfold attr_truthy. adds_only. Qed.

Lemma adds_only_attr_list args attr : adds_only P (attr_list args attr).
Proof. unfold attr_list. adds_only. Qed.

Lemma adds_only_attr_opt_str args attr : adds_only P (attr_opt_str args attr).
Proof. unfold attr_opt_str. adds_only. Qed.

End LogTraces.

Ltac adds_only_log :=
  repeat first
    [ adds_only_step
    | apply adds_only_debug | apply adds_only_info | apply adds_only_warning
    | apply adds_only_error | apply adds_only_indentation
    | apply adds_only_attr_truthy | apply adds_only_attr_list
    | apply adds_only_attr_opt_str | apply adds_only_set_verbosity_from ];
  try done.

(** ** compile.py: nothing is written before resolution succeeds *)

Section CompileTraces.
Import Compile.
Context (env : Env).

Lemma setup_leaves_output (args : gmap string value) :
  adds_only leaves_output (setup env args).
Proof.
  unfold setup, choose_src_files, choose_output_file, compose_pip_args,
    choose_repository, collect_constraints, parse_source, log_sources.
  adds_only_log.
Qed.

Lemma resolution_leaves_output (args : gmap string value) (r : Setup) :
  adds_only leaves_output (resolution env args r).
Proof.
  unfold resolution, resolver_args, sys_exit. adds_only_log.
Qed.

End CompileTraces.

Section CompileFailure.
Import Compile.
Context (env : Env).

(** The message is logged as an error and the script exits with status 2. *)
Lemma resolution_exit_2 (args : gmap string value) (r : Setup)
    (rargs : ResolverArgs) (msg : string) (s1 s2 : State) :
  resolver_args env args r s1 = (Ok rargs, s2) →
  resolution_fails env args rargs msg →
  ∃ s3 line,
    resolution env args r s1 = (Raise (SystemExit 2), s3) ∧
    last (trace s3) = Some (Stderr (Some Log.RED) line).
Proof.
  intros Hargs Hfail. unfold resolution, try_except_PipToolsError.
  rewrite (bind_ok _ _ _ _ _ Hargs).
  assert (∀ s, ∃ s3 line,
            bind (Log.error msg) (λ _, sys_exit 2) s
              = (@Raise (Resolution * option (list (InstallRequirement * list string)))
                   (SystemExit 2), s3) ∧
            last (trace s3) = Some (Stderr (Some Log.RED) line)) as Hexit.
  { intros s. eexists _, _. split; [reflexivity|]. cbn. apply last_snoc. }
  destruct Hfail as [Hres|(resolved & v & Hres & Hv & Htrue & Hhash)].
  - unfold bind at 1. cbn [emit]. unfold bind at 1. unfold lift at 1.
    rewrite Hres. apply Hexit.
  - unfold bind at 1. cbn [emit]. unfold bind at 1. unfold lift at 1.
    rewrite Hres. unfold bind at 1, attr_truthy at 1, bind at 1, lift at 1.
    rewrite Hv. unfold ret at 1. rewrite Htrue.
    unfold bind at 1. cbn [emit]. unfold bind at 1. unfold lift at 1.
    rewrite Hhash. apply Hexit.
Qed.

(** C5: when resolution fails with a [PipToolsError], [pip-compile] exits
    with status 2, and the output file has been neither opened for writing
    nor written. *)
Theorem resolution_failure_writes_nothing (args : gmap string value)
    (s0 s1 s2 : State) (r : Setup) (rargs : ResolverArgs) (msg : string) :
  Forall leaves_output (trace s0) →
  bind (set_verbosity_from args) (λ _, setup env args) s0 = (Ok r, s1) →
  resolver_args env args r s1 = (Ok rargs, s2) →
  resolution_fails env args rargs msg →
  ∃ s3,
    cli env args s0 = (Raise (SystemExit 2), s3) ∧
    exit_status (cli env args s0).1 = 2 ∧
    Forall leaves_output (trace s3) ∧
    (∀ path, EvOpenWrite path ∉ trace s3) ∧
    (∀ dry_run, EvWriterWrite dry_run ∉ trace s3).
Proof.
  intros Hs0 Hsetup Hargs Hfail.
  destruct (resolution_exit_2 args r rargs msg s1 s2 Hargs Hfail)
    as (s3 & line & Hres & _).
  apply bind_ok_inv in Hsetup as (u & sa & Hverb & Hsetup).
  assert (cli env args s0 = (Raise (SystemExit 2), s3)) as Hcli.
  { unfold cli. rewrite (bind_ok _ _ _ _ _ Hverb).
    rewrite (bind_ok _ _ _ _ _ Hsetup). by rewrite (bind_raise _ _ _ _ _ Hres). }
  assert (Forall leaves_output (trace s3)) as Hquiet.
  { pose proof (adds_only_Forall _ _ s1 (resolution_leaves_output env args r)) as H3.
    rewrite Hres in H3. apply H3.
    pose proof (adds_only_Forall _ _ sa (setup_leaves_output env args)) as H1.
    rewrite Hsetup in H1. apply H1.
    pose proof (adds_only_Forall leaves_output _ s0
                  (adds_only_set_verbosity_from _ args)) as H0.
    rewrite Hverb in H0. by apply H0. }
  exists s3. split; [done|]. split; [by rewrite Hcli|]. split; [done|].
  rewrite Forall_forall in Hquiet.
  split; intros x Hin; apply (Hquiet _ Hin).
Qed.

(** Conversely, the output file is opened for writing only after
    resolution has succeeded. *)
Lemma output_opened_after_resolution (args : gmap string value)
    (s0 : State) (path : string) :
  Forall leaves_output (trace s0) →
  EvOpenWrite path ∈ trace (cli env args s0).2 →
  ∃ r s1 resolved s2,
    bind (set_verbosity_from args) (λ _, setup env args) s0 = (Ok r, s1) ∧
    resolution env args r s1 = (Ok resolved, s2).
Proof.
  intros Hs0 Hopen.
  assert (∀ s, Forall leaves_output (trace s) → EvOpenWrite path ∉ trace s)
    as Hno.
  { intros s Hs Hin. rewrite Forall_forall in Hs. apply (Hs _ Hin). }
  pose proof (adds_only_Forall leaves_output _ s0
                (adds_only_set_verbosity_from _ args) Hs0) as H0.
  unfold cli in Hopen. unfold bind at 1 in Hopen. unfold bind at 1.
  destruct (set_verbosity_from args s0) as [[u|e] sa]; cbn in H0;
    [|by apply Hno in Hopen].
  pose proof (adds_only_Forall _ _ sa (setup_leaves_output env args) H0) as H1.
  unfold bind at 1 in Hopen.
  destruct (setup env args sa) as [[r|e] s1]; cbn in H1;
    [|by apply Hno in Hopen].
  pose proof (adds_only_Forall _ _ s1 (resolution_leaves_output env args r) H1)
    as H2.
  unfold bind at 1 in Hopen.
  destruct (resolution env args r s1) as [[resolved|e] s2] eqn:Hres; cbn in H2;
    [|by apply Hno in Hopen].
  by exists r, s1, resolved, s2.
Qed.

End CompileFailure.

Section CompileFailureExamples.
Import Compile.

(** [pip-compile] in a directory with [requirements.in] and an earlier
    [requirements.txt], when no candidate is found. *)
Lemma resolution_failure_writes_nothing_witness :
  let env := Demo.env [Demo.pin "foo" "1.0"] [Demo.pin "foo" "1.0"] Demo.fails in
  let args := Demo.compile_args [] in
  ∃ s3,
    cli env args initial_state = (Raise (SystemExit 2), s3) ∧
    exit_status (cli env args initial_state).1 = 2 ∧
    Forall leaves_output (trace s3) ∧
    (∀ path, EvOpenWrite path ∉ trace s3) ∧
    (∀ dry_run, EvWriterWrite dry_run ∉ trace s3).
Proof.
  intros env args.
  destruct (bind (set_verbosity_from args) (λ _, setup env args) initial_state)
    as [[r|e] s1] eqn:Hsetup; [|by vm_compute in Hsetup].
  destruct (resolver_args env args r s1) as [[rargs|e] s2] eqn:Hargs.
  2:{ vm_compute in Hsetup. injection Hsetup as <- <-. by vm_compute in Hargs. }
  apply (resolution_failure_writes_nothing env args initial_state s1 s2 r rargs
           "Could not find a version that matches foo");
    [constructor|exact Hsetup|exact Hargs|by left].
Defined.

End CompileFailureExamples.

(** ** argparse: the attributes of a parsed namespace *)

Section Namespace.
Import Argparse.

Lemma defaults_lookup_None (parser : list Argument) (d : string) :
  d ∉ dest <$> parser → defaults parser !! d = None.
Proof.
  unfold defaults. intros Hd.
  assert (∀ ns : gmap string value, ns !! d = None →
            foldl (λ ns a, <[dest a := default a]> ns) ns parser !! d = None)
    as Hfold; [|by apply Hfold].
  induction parser as [|a parser IH]; intros ns Hns; [done|].
  cbn. apply not_elem_of_cons in Hd as [Hne Hd]. apply (IH Hd).
  by rewrite lookup_insert_ne.
Qed.

Lemma accepts_declared (parser : list Argument) (d : string) (v : value) :
  accepts parser d v = true → d ∈ dest <$> parser.
Proof.
  unfold accepts. intros (a & Ha & Hd)%existsb_exists.
  apply andb_true_iff in Hd as [Hd%bool_decide_eq_true _]. subst d.
  apply list_elem_of_fmap. exists a. split; [done|]. by apply list_elem_of_In.
Qed.

(** A namespace has no attribute but the declared destinations. *)
Lemma parse_args_lookup_None (parser : list Argument)
    (given : list (string * value)) (d : string) :
  d ∉ dest <$> parser → parse_args parser given !! d = None.
Proof.
  unfold parse_args. intros Hd.
  pose proof (defaults_lookup_None parser d Hd) as H0.
  revert H0. generalize (defaults parser) as ns.
  induction given as [|[d' v] given IH]; intros ns Hns; [done|].
  cbn. apply IH. destruct (accepts parser d' v) eqn:Hacc; [|done].
  rewrite lookup_insert_ne; [done|].
  intros ->. by apply accepts_declared in Hacc.
Qed.

(** Every declared destination is an attribute. *)
Lemma parse_args_lookup_Some (parser : list Argument)
    (given : list (string * value)) (d : string) :
  d ∈ dest <$> parser → is_Some (parse_args parser given !! d).
Proof.
  unfold parse_args. intros Hd.
  assert (is_Some (defaults parser !! d)) as H0.
  { unfold defaults.
    assert (∀ ns : gmap string value,
              is_Some (ns !! d) ∨ d ∈ dest <$> parser →
              is_Some (foldl (λ ns a, <[dest a := default a]> ns) ns parser !! d))
      as Hfold; [|by apply Hfold; right].
    clear Hd. induction parser as [|a parser IH]; intros ns [Hns|Hin].
    - done.
    - by apply elem_of_nil in Hin.
    - cbn. apply IH. left. rewrite lookup_insert. by case_decide.
    - cbn. apply IH. apply elem_of_cons in Hin as [->|Hin]; [left|by right].
      by rewrite lookup_insert_eq. }
  revert H0. generalize (defaults parser) as ns.
  induction given as [|[d' v] given IH]; intros ns Hns; [done|].
  cbn. apply IH. destruct (accepts parser d' v); [|done].
  rewrite lookup_insert. by case_decide.
Qed.

End Namespace.

(** ** sync.py: [args.verbose] *)

(** [add_args] of pip-sync declares no [--verbose], the option [cli] reads
    first; [add_args] of pip-compile declares it. *)
Lemma sync_add_args_no_verbose :
  ("verbose" ∉ Argparse.dest <$> Sync.add_args) ∧
  ("verbose" ∈ Argparse.dest <$> Compile.add_args EmptyString).
Proof. split; apply (bool_decide_unpack _); by vm_compute. Qed.

Section SyncCrash.
Context (env : Env).

(** Whatever the command line, [pip-sync] stops at its first statement
    with an [AttributeError]: nothing is logged, parsed or run, and the
    interpreter exits with status 1. *)
Lemma sync_cli_attribute_error (given : list (string * value)) (s : State) :
  Sync.cli env (Argparse.parse_args Sync.add_args given) s
    = (Raise (AttributeError "verbose"), s).
Proof.
  unfold Sync.cli, set_verbosity_from, bind, lift, getattr.
  rewrite parse_args_lookup_None; [done|]. apply sync_add_args_no_verbose.
Qed.


End SyncCrash.

(** ** sync.py: what [cli] does once [args.verbose] can be read *)

Lemma set_verbosity_from_ok (args : gmap string value) (v q : Z) (s : State) :
  getattr args "verbose" = Ok (VInt v) → getattr args "quiet" = Ok (VInt q) →
  set_verbosity_from args s = (Ok tt, with_verbosity (v - q) s).
Proof.
  intros Hv Hq. unfold set_verbosity_from, bind, lift. by rewrite Hv, Hq.
Qed.

Lemma log_error_run (message : string) (s : State) :
  Log.error message s = (Ok tt, logged Log.RED message s).
Proof. reflexivity. Qed.

Lemma log_warning_run (message : string) (s : State) :
  Log.warning message s = (Ok tt, logged Log.YELLOW message s).
Proof. reflexivity. Qed.

Section SyncIntended.
Context (env : Env).

(** Lines 90-97, with no source file and no [requirements.txt]. *)
Lemma choose_src_files_missing (args : gmap string value) (s : State) (v : value) :
  getattr args "src_files" = Ok v → truthy v = false →
  path_exists env Sync.DEFAULT_REQUIREMENTS_FILE = false →
  Sync.choose_src_files env args s
    = (Raise (SystemExit 2), logged Log.RED Sync.no_requirements_message s).
Proof.
  intros Hv Hf Hp. unfold Sync.choose_src_files, bind at 1, lift.
  rewrite Hv, Hf, Hp. reflexivity.
Qed.

(** With [--verbose] readable, no source file and no [requirements.txt]:
    one error line and exit status 2. *)
Lemma sync_no_requirements_file_intended (args : gmap string value)
    (s : State) (v q : Z) (src : value) :
  getattr args "verbose" = Ok (VInt v) → getattr args "quiet" = Ok (VInt q) →
  getattr args "src_files" = Ok src → truthy src = false →
  path_exists env Sync.DEFAULT_REQUIREMENTS_FILE = false →
  Sync.cli env args s
    = (Raise (SystemExit 2),
       logged Log.RED Sync.no_requirements_message (with_verbosity (v - q) s)).
Proof.
  intros Hv Hq Hsrc Hf Hp. unfold Sync.cli.
  rewrite (bind_ok _ _ _ _ _ (set_verbosity_from_ok _ _ _ _ Hv Hq)).
  by rewrite (bind_raise _ _ _ _ _ (choose_src_files_missing _ _ _ Hsrc Hf Hp)).
Qed.

Lemma choose_src_files_given (args : gmap string value) (s : State)
    (src_files : list string) :
  getattr args "src_files" = Ok (VList src_files) → src_files ≠ [] →
  Sync.choose_src_files env args s = (Ok src_files, s).
Proof.
  intros Hv Hne. unfold Sync.choose_src_files, bind at 1, lift.
  rewrite Hv. cbn. by rewrite bool_decide_eq_false_2.
Qed.

(** With [--verbose] readable and a source file ending in [.in]: without
    [--force] one error line and exit status 2, before anything is parsed;
    with [--force] one warning line, and the run goes on as for any other
    file. *)
Lemma sync_dot_in_intended (args : gmap string value) (s : State) (v q : Z)
    (src_files : list string) (force : value) :
  getattr args "verbose" = Ok (VInt v) → getattr args "quiet" = Ok (VInt q) →
  getattr args "src_files" = Ok (VList src_files) →
  existsb (λ src_file, PyStr.endswith src_file ".in") src_files = true →
  getattr args "force" = Ok force →
  Sync.cli env args s =
    if truthy force then
      bind (Sync.merge_requirements env args src_files)
           (Sync.run_sync env args)
           (logged Log.YELLOW ("WARNING: " +:+ Sync.dot_in_message)
              (with_verbosity (v - q) s))
    else
      (Raise (SystemExit 2),
       logged Log.RED ("ERROR: " +:+ Sync.dot_in_message)
         (with_verbosity (v - q) s)).
Proof.
  intros Hv Hq Hsrc Hin Hforce. unfold Sync.cli.
  rewrite (bind_ok _ _ _ _ _ (set_verbosity_from_ok _ _ _ _ Hv Hq)).
  assert (src_files ≠ []) as Hne by (by intros ->).
  rewrite (bind_ok _ _ _ _ _ (choose_src_files_given _ _ _ Hsrc Hne)).
  unfold Sync.check_extensions. rewrite Hin.
  unfold bind at 1, attr_truthy at 1, bind at 1, lift at 1.
  rewrite Hforce. unfold ret at 1. unfold bind at 1.
  destruct (truthy force); reflexivity.
Qed.

(** Lines 118-126: a [PipToolsError] of [sync.merge] is logged and the
    script exits with status 2. *)
Lemma merge_requirements_error (args : gmap string value) (s s1 : State)
    (src_files : list string) (force : value)
    (parsed : list InstallRequirement) (msg : string) :
  getattr args "force" = Ok force →
  Sync.parse_all env src_files s = (Ok parsed, s1) →
  merge env parsed (truthy force) = Raise (PipToolsError msg) →
  Sync.merge_requirements env args src_files s
    = (Raise (SystemExit 2), logged Log.RED msg s1).
Proof.
  intros Hforce Hparse Hmerge.
  unfold Sync.merge_requirements, try_except_PipToolsError.
  unfold bind at 1, attr_truthy at 1, bind at 1, lift at 1.
  rewrite Hforce. unfold ret at 1.
  rewrite (bind_ok _ _ _ _ _ Hparse). unfold lift at 1. rewrite Hmerge.
  reflexivity.
Qed.

(** With [--force], [ignore_conflicts] is set: whatever [sync.merge] then
    returns is the set of requirements the run goes on with. *)
Lemma merge_requirements_ok (args : gmap string value) (s s1 : State)
    (src_files : list string) (force : value)
    (parsed merged : list InstallRequirement) :
  getattr args "force" = Ok force →
  Sync.parse_all env src_files s = (Ok parsed, s1) →
  merge env parsed (truthy force) = Ok merged →
  Sync.merge_requirements env args src_files s = (Ok merged, s1).
Proof.
  intros Hforce Hparse Hmerge.
  unfold Sync.merge_requirements, try_except_PipToolsError.
  unfold bind at 1, attr_truthy at 1, bind at 1, lift at 1.
  rewrite Hforce. unfold ret at 1.
  rewrite (bind_ok _ _ _ _ _ Hparse). unfold lift at 1. by rewrite Hmerge.
Qed.

End SyncIntended.

(** ** sync.py: ask-mode with the confirmation declined

    [sync.sync] taken as the specification describes it, on any [args]
    object on which [ask] is set. *)

Lemma report_no_command (to_install : list InstallRequirement)
    (to_uninstall : list Distribution) (command : list string) (answer : bool) :
  CheckCall command ∉ PipSync.report to_install to_uninstall ++ [Confirm answer].
Proof.
  unfold PipSync.report. rewrite !elem_of_app, list_elem_of_singleton.
  intros [[H|H]|H]; [| |done].
  - destruct to_uninstall; [by apply elem_of_nil in H|].
    apply elem_of_cons in H as [|H]; [done|].
    by apply list_elem_of_fmap in H as (? & ? & _).
  - destruct to_install; [by apply elem_of_nil in H|].
    apply elem_of_cons in H as [|H]; [done|].
    by apply list_elem_of_fmap in H as (? & ? & _).
Qed.

(** In ask-mode with the answer no, [sync] starts no command, and where it
    asks it returns 1. *)
Lemma spec_sync_declined (to_install : list InstallRequirement)
    (to_uninstall : list Distribution) (dry_run : bool)
    (install_flags : list string) :
  (∀ command,
     CheckCall command
       ∉ (PipSync.sync false to_install to_uninstall dry_run install_flags true).1) ∧
  (Confirm false
     ∈ (PipSync.sync false to_install to_uninstall dry_run install_flags true).1 →
   (PipSync.sync false to_install to_uninstall dry_run install_flags true).2
     = Ok 1).
Proof.
  unfold PipSync.sync. split.
  - intros command.
    destruct to_install, to_uninstall; cbn [fst snd];
      first [apply report_no_command | apply not_elem_of_nil].
  - destruct to_install, to_uninstall; cbn [fst snd];
      [by intros ?%elem_of_nil|done..].
Qed.

Lemma for_each_emit (effects : list sync_effect) (s : State) :
  for_each effects (λ e, emit (EvSync e)) s
    = (Ok tt, {| log := log s; trace := trace s ++ (EvSync <$> effects) |}).
Proof.
  revert s. induction effects as [|e effects IH]; intros s; cbn.
  - unfold ret. rewrite app_nil_r. by destruct s.
  - unfold bind, emit. rewrite IH. cbn. by rewrite <- app_assoc.
Qed.

Lemma declines_bind {A} (m : M A) (k : A → M unit) :
  adds_only (λ e, ∀ x, e ≠ EvSync x) m → (∀ a, declines (k a)) →
  declines (bind m k).
Proof.
  intros Hm Hk s. unfold bind. destruct (Hm s) as (n1 & E1 & F1).
  assert (∀ x, EvSync x ∉ n1) as Hn1.
  { intros x Hx. rewrite Forall_forall in F1. by apply (F1 _ Hx x). }
  destruct (m s) as [[a|e] s1]; cbn in E1.
  - destruct (Hk a s1) as (n2 & E2 & C2 & D2). exists (n1 ++ n2).
    rewrite E2, E1, app_assoc. split; [done|]. split.
    + intros command [H|H]%elem_of_app; [by apply (Hn1 _ H)|by apply (C2 _ H)].
    + intros [H|H]%elem_of_app; [by destruct (Hn1 _ H)|by apply D2].
  - exists n1. split; [done|]. split; [by intros command H; apply (Hn1 _ H)|].
    intros H. by destruct (Hn1 _ H).
Qed.

Lemma declines_ext (m m' : M unit) :
  (∀ s, m s = m' s) → declines m → declines m'.
Proof. intros E H s. rewrite <- E. apply H. Qed.

Lemma attr_truthy_ok (args : gmap string value) (attr : string) (v : value)
    (s : State) :
  getattr args attr = Ok v → attr_truthy args attr s = (Ok (truthy v), s).
Proof. intros H. unfold attr_truthy, bind, lift. by rewrite H. Qed.

Section SyncDeclined.
Context (env : Env).
Hypothesis spec_sync : sync env = PipSync.sync false.

(** Lines 142-150: the effects of [sync.sync], then its status as the exit
    status. *)
Lemma sync_exit_declines (to_install : list InstallRequirement)
    (to_uninstall : list Distribution) (dry_run : bool)
    (install_flags : list string) :
  declines
    (let '(effects, status) :=
       sync env to_install to_uninstall dry_run install_flags true in
     for_each effects (λ e, emit (EvSync e)) >>
     let! code := lift status in
     sys_exit code).
Proof.
  rewrite spec_sync.
  destruct (spec_sync_declined to_install to_uninstall dry_run install_flags)
    as [Hc Hd].
  destruct (PipSync.sync false to_install to_uninstall dry_run install_flags true)
    as [effects status]; cbn [fst snd] in Hc, Hd.
  intros s. exists (EvSync <$> effects).
  unfold bind, lift, sys_exit, raise. rewrite for_each_emit.
  split; [by destruct status|]. split.
  - intros command H. apply list_elem_of_fmap in H as (e & E & He).
    injection E as <-. by apply (Hc command).
  - intros H. apply list_elem_of_fmap in H as (e & E & He).
    injection E as <-. by rewrite (Hd He).
Qed.

Lemma run_sync_declines (args : gmap string value)
    (requirements : list InstallRequirement) (v : value) :
  getattr args "ask" = Ok v → truthy v = true →
  declines (Sync.run_sync env args requirements).
Proof.
  intros Hv Ht. unfold Sync.run_sync.
  apply declines_bind; [adds_only_log|intros user_only].
  apply declines_bind; [adds_only|intros _].
  destruct (diff env requirements _) as [to_install to_uninstall].
  do 11 (apply declines_bind; [adds_only_log|intros ?]).
  eapply declines_ext; cycle 1; [apply sync_exit_declines|].
  intros s. symmetry. unfold bind at 1.
  by rewrite (attr_truthy_ok _ _ _ _ Hv), Ht.
Qed.

Lemma sync_cli_declines (args : gmap string value) (v : value) :
  getattr args "ask" = Ok v → truthy v = true → declines (Sync.cli env args).
Proof.
  intros Hv Ht. unfold Sync.cli.
  apply declines_bind; [adds_only_log|intros _].
  apply declines_bind.
  { unfold Sync.choose_src_files. adds_only_log. }
  intros src_files. apply declines_bind.
  { unfold Sync.check_extensions. adds_only_log. }
  intros _. apply declines_bind.
  { unfold Sync.merge_requirements, Sync.parse_all. adds_only_log. }
  intros requirements. by eapply run_sync_declines.
Qed.

(** On every [args] object with [ask] set, whether [verbose] can be read
    or not: a run in which the confirmation is declined starts no command,
    and its exit status is 1. *)
Lemma sync_ask_declined_intended (args : gmap string value) (v : value)
    (s : State) :
  getattr args "ask" = Ok v → truthy v = true →
  let run := Sync.cli env args s in
  (∀ command, EvSync (CheckCall command) ∈ trace run.2 →
              EvSync (CheckCall command) ∈ trace s) ∧
  (EvSync (Confirm false) ∈ trace run.2 →
   EvSync (Confirm false) ∈ trace s ∨ exit_status run.1 = 1).
Proof.
  intros Hv Ht run.
  destruct (sync_cli_declines args v Hv Ht s) as (new & E & Hc & Hd).
  fold run in E, Hd. rewrite E. split.
  - intros command [H|H]%elem_of_app; [done|by destruct (Hc _ H)].
  - intros [H|H]%elem_of_app; [by left|right; by apply Hd].
Qed.

End SyncDeclined.

(** With [verbose] readable, [--ask] and a declined confirmation in the demo
    world: the plan is shown, no command runs, and the exit status is the 1
    that [sync.sync] returns. *)
Example sync_ask_declined_example :
  Sync.cli (Demo.env [] [Demo.pin "small-fake-a" "1.10.0"] Demo.resolves)
    (<["verbose" := VInt 0]> (Demo.sync_args [("ask", VBool true)]))
    initial_state
  = (Raise (SystemExit 1),
     {| log := log initial_state;
        trace := [EvParse "requirements.txt"; EvInstalledDistributions;
                  EvSync (Stdout "Would install:");
                  EvSync (Stdout "  small-fake-a");
                  EvSync (Confirm false)] |}).
Proof. vm_compute. reflexivity. Qed.

(** ** sync.py: the runs of [cli] as [add_args] lets them start *)

Section SyncRuns.
Context (env : Env).

(** C6, on the code: [pip-sync] without arguments does not get to the
    check for [requirements.txt]: whether the file exists or not, [cli]
    raises [AttributeError] at [args.verbose], logs nothing, and the exit
    status is 1, not 2. *)
Theorem sync_no_requirements_file_crash (s : State) :
  let args := Argparse.parse_args Sync.add_args [] in
  Sync.cli env args s = (Raise (AttributeError "verbose"), s) ∧
  exit_status (Sync.cli env args s).1 = 1 ∧
  trace (Sync.cli env args s).2 = trace s.
Proof. cbv zeta. by rewrite sync_cli_attribute_error. Qed.

(** C10, on the code: with a source file ending in [.in], with or without
    [--force], [cli] raises [AttributeError] at [args.verbose]: neither the
    error nor the warning is logged, and the exit status is 1. *)
Theorem sync_dot_in_crash (force : bool) (s : State) :
  let args :=
    Argparse.parse_args Sync.add_args
      (("src_files", VList ["requirements.in"]) ::
       if force then [("force", VBool true)] else []) in
  getattr args "src_files" = Ok (VList ["requirements.in"]) ∧
  getattr args "force" = Ok (VBool force) ∧
  Sync.cli env args s = (Raise (AttributeError "verbose"), s) ∧
  exit_status (Sync.cli env args s).1 = 1 ∧
  trace (Sync.cli env args s).2 = trace s.
Proof.
  cbv zeta. rewrite sync_cli_attribute_error.
  by destruct force; repeat split; vm_compute.
Qed.

(** C3, on the code: whatever the requirement files hold and whatever
    [sync.merge] would answer, [cli] raises [AttributeError] at
    [args.verbose] before anything is parsed or merged: no
    [IncompatibleRequirements] is reported and the exit status is 1. *)
Theorem sync_merge_error_crash (force : bool) (s : State) :
  let args :=
    Argparse.parse_args Sync.add_args
      (("dry_run", VBool true) ::
       if force then [("force", VBool true)] else []) in
  Sync.cli env args s = (Raise (AttributeError "verbose"), s) ∧
  exit_status (Sync.cli env args s).1 = 1 ∧
  (∀ filename, EvParse filename ∈ trace (Sync.cli env args s).2 →
               EvParse filename ∈ trace s) ∧
  (∀ fore line, Stderr fore line ∈ trace (Sync.cli env args s).2 →
                Stderr fore line ∈ trace s).
Proof. cbv zeta. by rewrite sync_cli_attribute_error. Qed.


End SyncRuns.

(** ** Further properties of the scripts *)

(** [as_tuple] returns a tuple exactly on the pinned requirements. *)
Theorem as_tuple_defined_iff_pinned (ireq : InstallRequirement) :
  (∃ t, as_tuple ireq = Ok t) ↔ is_pinned_requirement ireq = true.
Proof. symmetry. apply as_tuple_ok_iff. Qed.

(** [key_from_req] may replace before or after lower-casing: the key is the
    same. *)
Theorem key_from_req_order (r : DistOrReq) :
  key_from_req r =
  PyStr.replace "_" "-"
    (PyStr.lower match r with
                 | OfDistribution d => key d
                 | OfRequirement q => name q
                 end).
Proof. apply key_from_req_normalized. Qed.




(** [pip-compile] reads every attribute [set_verbosity_from] needs: the
    first statement of its [cli] never fails on a parsed namespace whose
    counters are integers. *)
Theorem compile_declares_verbose (cache_dir : string)
    (given : list (string * value)) :
  is_Some (Argparse.parse_args (Compile.add_args cache_dir) given !! "verbose") ∧
  is_Some (Argparse.parse_args (Compile.add_args cache_dir) given !! "quiet").
Proof.
  split; apply parse_args_lookup_Some; apply (bool_decide_unpack _);
    by vm_compute.
Qed.

(** Before the resolver is built, [pip-compile] neither opens the output
    file for writing nor writes it. *)
Theorem compile_setup_leaves_output (env : Env) (args : gmap string value)
    (s : State) :
  ∃ new, trace (Compile.setup env args s).2 = trace s ++ new ∧
         Forall leaves_output new.
Proof. apply setup_leaves_output. Qed.

(** The loop that gathers the pins of the prior output never raises. *)
Theorem existing_pins_never_raise
    (up : list (string * InstallRequirement))
    (ireqs : list InstallRequirement) :
  ∃ st, Compile.existing_pins_of up ireqs = Ok st.
Proof. apply existing_pins_of_total. Qed.

(** When [pip-compile] has opened the output file for writing, resolution
    had succeeded. *)
Theorem compile_output_after_resolution (env : Env)
    (args : gmap string value) (s0 : State) (path : string) :
  Forall leaves_output (trace s0) →
  EvOpenWrite path ∈ trace (Compile.cli env args s0).2 →
  ∃ r s1 resolved s2,
    bind (set_verbosity_from args) (λ _, Compile.setup env args) s0
      = (Ok r, s1) ∧
    Compile.resolution env args r s1 = (Ok resolved, s2).
Proof. apply output_opened_after_resolution. Qed.

Lemma compile_output_after_resolution_witness :
  let env := Demo.env [Demo.pin "foo" "1.0"] [] Demo.resolves in
  let args := Demo.compile_args [] in
  ∃ r s1 resolved s2,
    bind (set_verbosity_from args) (λ _, Compile.setup env args) initial_state
      = (Ok r, s1) ∧
    Compile.resolution env args r s1 = (Ok resolved, s2).
Proof.
  intros env args.
  apply (compile_output_after_resolution env args initial_state
           "requirements.txt"); [constructor|].
  apply (bool_decide_unpack _). by vm_compute.
Defined.

(** With [verbose] readable, no source file and no [requirements.txt],
    lines 90-97 of sync.py log one error and exit with status 2. *)
Theorem sync_lines_90_97 (env : Env) (args : gmap string value)
    (s : State) (v q : Z) (src : value) :
  getattr args "verbose" = Ok (VInt v) → getattr args "quiet" = Ok (VInt q) →
  getattr args "src_files" = Ok src → truthy src = false →
  path_exists env Sync.DEFAULT_REQUIREMENTS_FILE = false →
  Sync.cli env args s
    = (Raise (SystemExit 2),
       logged Log.RED Sync.no_requirements_message (with_verbosity (v - q) s)) ∧
  exit_status (Sync.cli env args s).1 = 2.
Proof.
  intros Hv Hq Hsrc Hf Hp.
  by rewrite (sync_no_requirements_file_intended env args s v q src).
Qed.

Lemma sync_lines_90_97_witness :
  exit_status
    (Sync.cli Demo.empty_directory (<["verbose" := VInt 0]> (Demo.sync_args []))
       initial_state).1 = 2.
Proof.
  apply (sync_lines_90_97 Demo.empty_directory
           (<["verbose" := VInt 0]> (Demo.sync_args [])) initial_state 0 0
           (VList [])); by vm_compute.
Defined.

(** With [verbose] readable and a source file ending in [.in], lines 99-109
    of sync.py exit with status 2 after one error line when [--force] is not
    given, and go on after one warning line when it is. *)
Theorem sync_lines_99_109 (env : Env) (args : gmap string value)
    (s : State) (v q : Z) (src_files : list string) (force : value) :
  getattr args "verbose" = Ok (VInt v) → getattr args "quiet" = Ok (VInt q) →
  getattr args "src_files" = Ok (VList src_files) →
  existsb (λ src_file, PyStr.endswith src_file ".in") src_files = true →
  getattr args "force" = Ok force →
  Sync.cli env args s =
    if truthy force then
      bind (Sync.merge_requirements env args src_files)
           (Sync.run_sync env args)
           (logged Log.YELLOW ("WARNING: " +:+ Sync.dot_in_message)
              (with_verbosity (v - q) s))
    else
      (Raise (SystemExit 2),
       logged Log.RED ("ERROR: " +:+ Sync.dot_in_message)
         (with_verbosity (v - q) s)).
Proof. apply sync_dot_in_intended. Qed.

Lemma sync_lines_99_109_witness :
  Sync.cli Demo.empty_directory
    (<["verbose" := VInt 0]>
       (Demo.sync_args [("src_files", VList ["requirements.in"])]))
    initial_state
  = (Raise (SystemExit 2),
     logged Log.RED ("ERROR: " +:+ Sync.dot_in_message)
       (with_verbosity (0 - 0) initial_state)).
Proof.
  apply (sync_lines_99_109 Demo.empty_directory
           (<["verbose" := VInt 0]>
              (Demo.sync_args [("src_files", VList ["requirements.in"])]))
           initial_state 0 0 ["requirements.in"] (VBool false)); by vm_compute.
Defined.

(** ** utils.py: [dedup] *)

Section Dedup.
Import Compile.

Lemma dedup_go_elem_of (seen xs : list string) (x : string) :
  x ∈ dedup_go seen xs ↔ x ∈ xs ∧ x ∉ seen.
Proof.
  revert seen. induction xs as [|y xs IH]; intros seen; cbn.
  - rewrite elem_of_nil. tauto.
  - case_bool_decide as Hy.
    + rewrite IH, elem_of_cons. split; [tauto|].
      intros [[->|?] ?]; [done|tauto].
    + rewrite elem_of_cons, IH, !elem_of_cons. split.
      * intros [->|[? ?]]; tauto.
      * intros [[->|?] ?]; [tauto|]. destruct (decide (x = y)); tauto.
Qed.

Lemma dedup_go_NoDup (seen xs : list string) : NoDup (dedup_go seen xs).
Proof.
  revert seen. induction xs as [|y xs IH]; intros seen; cbn.
  - constructor.
  - case_bool_decide; [apply IH|]. constructor; [|apply IH].
    rewrite dedup_go_elem_of, elem_of_cons. tauto.
Qed.

Lemma dedup_go_sublist (seen xs : list string) : sublist (dedup_go seen xs) xs.
Proof.
  revert seen. induction xs as [|y xs IH]; intros seen; cbn; [done|].
  case_bool_decide; [by apply sublist_cons|by apply sublist_skip].
Qed.

Lemma dedup_go_fixed (seen xs : list string) :
  NoDup xs → (∀ x, x ∈ xs → x ∉ seen) → dedup_go seen xs = xs.
Proof.
  revert seen. induction xs as [|y xs IH]; intros seen Hnd Hs; cbn; [done|].
  apply NoDup_cons in Hnd as [Hy Hnd].
  rewrite bool_decide_eq_false_2 by (apply Hs; left). f_equal.
  apply IH; [done|]. intros x Hx [->|?]%elem_of_cons; [done|].
  by apply (Hs x); [right|].
Qed.

Lemma dedup_go_seen (seen seen' xs : list string) :
  (∀ x, x ∈ seen ↔ x ∈ seen') → dedup_go seen xs = dedup_go seen' xs.
Proof.
  revert seen seen'. induction xs as [|y xs IH]; intros seen seen' E; cbn;
    [done|].
  rewrite (bool_decide_ext _ _ (E y)). case_bool_decide; [by apply IH|].
  f_equal. apply IH. intros x. rewrite !elem_of_cons, E. done.
Qed.

Lemma dedup_go_filter (seen seen0 ys : list string) :
  dedup_go (seen ++ seen0) ys
  = filter (λ y, y ∉ seen) (dedup_go seen0 ys).
Proof.
  revert seen0. induction ys as [|y ys IH]; intros seen0; cbn; [done|].
  destruct (decide (y ∈ seen0)) as [Hy0|Hy0].
  - rewrite !bool_decide_eq_true_2; [apply IH|done|].
    apply elem_of_app. by right.
  - rewrite (bool_decide_eq_false_2 (y ∈ seen0)) by done.
    destruct (decide (y ∈ seen)) as [Hy|Hy].
    + rewrite bool_decide_eq_true_2 by (apply elem_of_app; by left).
      rewrite filter_cons_False by tauto. rewrite <- IH.
      apply dedup_go_seen. intros x. rewrite !elem_of_app, elem_of_cons.
      split; [tauto|]. intros [?|[->|?]]; tauto.
    + rewrite bool_decide_eq_false_2 by (rewrite elem_of_app; tauto).
      rewrite filter_cons_True by done. f_equal. rewrite <- IH.
      apply dedup_go_seen. intros x. rewrite !elem_of_app, !elem_of_cons,
        elem_of_app. tauto.
Qed.

Lemma dedup_go_app (seen xs ys : list string) :
  dedup_go seen (xs ++ ys) = dedup_go seen xs ++ dedup_go (xs ++ seen) ys.
Proof.
  revert seen. induction xs as [|x xs IH]; intros seen; cbn; [done|].
  case_bool_decide as Hx.
  - rewrite IH. f_equal. apply dedup_go_seen. intros y.
    rewrite elem_of_cons, !elem_of_app.
    destruct (decide (y = x)) as [->|]; tauto.
  - cbn. f_equal. rewrite IH. f_equal. apply dedup_go_seen. intros y.
    rewrite !elem_of_cons, !elem_of_app, elem_of_cons. tauto.
Qed.

Lemma dedup_append (xs ys : list string) :
  dedup (xs ++ ys) = dedup xs ++ filter (λ y, y ∉ xs) (dedup ys).
Proof. unfold dedup. by rewrite dedup_go_app, <- dedup_go_filter. Qed.

Lemma dedup_elem_of (xs : list string) (x : string) :
  x ∈ dedup xs ↔ x ∈ xs.
Proof.
  unfold dedup. rewrite dedup_go_elem_of. split; [tauto|].
  intros Hx. split; [done|apply not_elem_of_nil].
Qed.

Lemma dedup_cons (x : string) (xs : list string) :
  dedup (x :: xs) = x :: filter (λ y, y ≠ x) (dedup xs).
Proof.
  change (x :: xs) with ([x] ++ xs). rewrite dedup_append.
  change (dedup [x]) with [x]. cbn [app]. f_equal.
  apply list_filter_iff. intros y. by rewrite list_elem_of_singleton.
Qed.

End Dedup.

(** [dedup] keeps one copy of every member, the first one: the result has
    no duplicates and the members of the input, in the order of the input;
    a list without duplicates is returned as it is.  The copy kept is the
    first: a member in front stays in front and its later copies go, and
    what [dedup] gives for the part of the input before the first
    occurrence of a member is what stands before this member in the
    result. *)
Theorem dedup_first_occurrences (xs : list string) :
  NoDup (Compile.dedup xs) ∧
  (∀ x, x ∈ Compile.dedup xs ↔ x ∈ xs) ∧
  sublist (Compile.dedup xs) xs ∧
  (NoDup xs ↔ Compile.dedup xs = xs) ∧
  (∀ x, Compile.dedup (x :: xs)
        = x :: filter (λ y, y ≠ x) (Compile.dedup xs)) ∧
  (∀ x i, xs !! i = Some x → x ∉ take i xs →
          ∃ j, Compile.dedup xs !! j = Some x ∧
               Compile.dedup (take i xs) = take j (Compile.dedup xs)).
Proof.
  split; [apply dedup_go_NoDup|]. split; [apply dedup_elem_of|].
  split; [apply dedup_go_sublist|]. split; [|split].
  - split.
    + intros Hnd. apply dedup_go_fixed; [done|].
      intros; apply not_elem_of_nil.
    + intros <-. apply dedup_go_NoDup.
  - intros x. apply dedup_cons.
  - intros x i Hi Hx.
    assert (∃ rest, Compile.dedup xs
                    = Compile.dedup (take i xs) ++ x :: rest) as [rest E].
    { exists (filter (λ y, y ∉ take i xs)
                (filter (λ y, y ≠ x) (Compile.dedup (drop (S i) xs)))).
      transitivity (Compile.dedup (take i xs ++ x :: drop (S i) xs));
        [by rewrite take_drop_middle|].
      by rewrite dedup_append, dedup_cons, filter_cons_True. }
    exists (length (Compile.dedup (take i xs))). rewrite E. split.
    + by rewrite list_lookup_middle.
    + by rewrite take_app_length.
Qed.

(** The first occurrence is kept, not the last. *)
Example dedup_keeps_first :
  Compile.dedup ["a"; "b"; "a"] = ["a"; "b"].
Proof. reflexivity. Qed.

(** [dedup] of a concatenation: the second part contributes its first
    occurrences that the first part does not hold. *)
Theorem dedup_app (xs ys : list string) :
  Compile.dedup (xs ++ ys)
  = Compile.dedup xs ++ filter (λ y, y ∉ xs) (Compile.dedup ys).
Proof. apply dedup_append. Qed.

(** ** utils.py: [lookup_table] *)

Section LookupTable.
Import Compile.
Context {A : Type} (kv : A → string * string).

Lemma dict_get_dict_set {V} (k k' : string) (v : V) (d : list (string * V)) :
  dict_get k' (dict_set k v d)
  = if bool_decide (k' = k) then Some v else dict_get k' d.
Proof.
  induction d as [|[k0 v0] d IH]; cbn; [done|].
  destruct (decide (k = k0)) as [<-|E].
  - rewrite bool_decide_eq_true_2 by done. cbn. by case_bool_decide.
  - rewrite bool_decide_eq_false_2 by done. cbn. rewrite IH.
    repeat case_bool_decide; congruence.
Qed.

Lemma dict_get_None {V} (k : string) (d : list (string * V)) :
  dict_get k d = None ↔ k ∉ d.*1.
Proof.
  induction d as [|[k0 v0] d IH]; cbn.
  - split; [intros _; apply not_elem_of_nil|done].
  - rewrite not_elem_of_cons. case_bool_decide; [|tauto].
    split; [done|tauto].
Qed.

Lemma dict_set_keys_order {V} (k : string) (v : V) (d : list (string * V)) :
  (dict_set k v d).*1 = d.*1 ++ (if decide (k ∈ d.*1) then [] else [k]).
Proof.
  induction d as [|[k0 v0] d IH]; cbn.
  - rewrite decide_False; [done|apply not_elem_of_nil].
  - destruct (decide (k = k0)) as [<-|E].
    + rewrite bool_decide_eq_true_2 by done. cbn.
      rewrite decide_True by left. by rewrite app_nil_r.
    + rewrite bool_decide_eq_false_2 by done. cbn. rewrite IH. f_equal.
      destruct (decide (k ∈ d.*1)) as [Hk|Hk].
      * rewrite decide_True; [done|by right].
      * rewrite decide_False; [done|]. rewrite elem_of_cons. tauto.
Qed.

Lemma dedup_snoc (xs : list string) (x : string) :
  dedup (xs ++ [x]) = dedup xs ++ (if decide (x ∈ xs) then [] else [x]).
Proof.
  rewrite dedup_append. f_equal. change (dedup [x]) with [x]. case_decide.
  - by rewrite filter_cons_False by tauto.
  - by rewrite filter_cons_True by done.
Qed.

Lemma filed_under_snoc (values : list A) (x : A) (k : string) :
  filed_under kv (values ++ [x]) k
  = filed_under kv values k ++ (if decide ((kv x).1 = k) then [(kv x).2] else []).
Proof.
  unfold filed_under. rewrite filter_app, fmap_app. f_equal.
  case_decide; [by rewrite filter_cons_True|by rewrite filter_cons_False].
Qed.

Lemma filed_under_nil_iff (values : list A) (k : string) :
  filed_under kv values k = [] ↔ k ∉ (λ v, (kv v).1) <$> values.
Proof.
  unfold filed_under. induction values as [|x values IH].
  - split; [intros _; apply not_elem_of_nil|done].
  - rewrite fmap_cons, not_elem_of_cons, <- IH.
    destruct (decide ((kv x).1 = k)) as [E|E].
    + rewrite filter_cons_True by done. rewrite fmap_cons.
      split; [done|]. intros [? _]. congruence.
    + rewrite filter_cons_False by done. split; [|tauto]. intros ?.
      split; [congruence|done].
Qed.

(** The loop of [lookup_table], for any way [combine] of filing a value
    under a key that [repr] describes. *)
Lemma table_fold_spec (combine : option table_entry → string → table_entry)
    (repr : list string → table_entry) (values : list A) :
  (∀ v, combine None v = repr [v]) →
  (∀ vs v, vs ≠ [] → combine (Some (repr vs)) v = repr (vs ++ [v])) →
  ∃ lut,
    foldl (λ acc value,
             rbind acc (λ lut,
             rbind (Ok (kv value)) (λ p,
             Ok (dict_set p.1 (combine (dict_get p.1 lut) p.2) lut))))
          (Ok []) values = Ok lut ∧
    lut.*1 = dedup ((λ v, (kv v).1) <$> values) ∧
    ∀ k, dict_get k lut =
         match filed_under kv values k with
         | [] => None
         | vs => Some (repr vs)
         end.
Proof.
  intros Hnew Hadd. induction values as [|x values IH] using rev_ind.
  - exists []. by repeat split.
  - destruct IH as (lut & E & Hkeys & Hget).
    rewrite foldl_snoc, E. cbn [rbind].
    eexists. split; [done|]. split.
    + rewrite dict_set_keys_order, Hkeys, fmap_app.
      change ((λ v, (kv v).1) <$> [x]) with [(kv x).1].
      rewrite dedup_snoc. cbn [fst]. f_equal.
      pose proof (dedup_elem_of ((λ v, (kv v).1) <$> values) (kv x).1) as Hd.
      destruct (decide ((kv x).1 ∈ dedup ((λ v, (kv v).1) <$> values)));
        [rewrite decide_True|rewrite decide_False]; tauto.
    + intros k. rewrite dict_get_dict_set, filed_under_snoc, Hget.
      case_bool_decide as Ek.
      * subst k. rewrite decide_True by done.
        destruct (filed_under kv values (kv x).1) as [|v vs] eqn:Evs.
        -- by rewrite Hnew.
        -- rewrite Hadd by done. done.
      * rewrite decide_False by done. by rewrite app_nil_r.
Qed.

End LookupTable.

(** [lookup_table] without [unique]: the keys are those of the values, in
    the order of their first occurrence, and every key holds the values
    filed under it, as a list in the order of the input ([use_lists]) or as
    a set. *)
Theorem lookup_table_groups {A} (kv : A → string * string) (values : list A) :
  (∃ lut,
     lookup_table (λ v, Ok (kv v)) false true values = Ok lut ∧
     lut.*1 = Compile.dedup ((λ v, (kv v).1) <$> values) ∧
     ∀ k, dict_get k lut =
          match filed_under kv values k with
          | [] => None
          | vs => Some (ListOf vs)
          end) ∧
  (∃ lut,
     lookup_table (λ v, Ok (kv v)) false false values = Ok lut ∧
     lut.*1 = Compile.dedup ((λ v, (kv v).1) <$> values) ∧
     ∀ k, dict_get k lut =
          match filed_under kv values k with
          | [] => None
          | vs => Some (SetOf (list_to_set vs))
          end).
Proof.
  split.
  - apply (table_fold_spec kv (add_to_entry true) ListOf); [done|].
    by intros vs v _.
  - apply (table_fold_spec kv (add_to_entry false)
             (λ vs, SetOf (list_to_set vs))).
    + intros v. unfold add_to_entry.
      by rewrite union_empty_l_L, list_to_set_singleton_L.
    + intros vs v _. unfold add_to_entry. by rewrite list_to_set_snoc_L.
Qed.

(** [lookup_table] with [unique]: every key holds the last value filed under
    it, and takes the place of its first occurrence. *)
Theorem lookup_table_unique {A} (kv : A → string * string) (values : list A)
    (use_lists : bool) :
  ∃ lut,
    lookup_table (λ v, Ok (kv v)) true use_lists values = Ok lut ∧
    lut.*1 = Compile.dedup ((λ v, (kv v).1) <$> values) ∧
    ∀ k, dict_get k lut = Single <$> last (filed_under kv values k).
Proof.
  destruct (table_fold_spec kv (λ _ v, Single v)
              (λ vs, Single (default EmptyString (last vs))) values)
    as (lut & E & Hkeys & Hget).
  - done.
  - intros vs v _. by rewrite last_snoc.
  - exists lut. split; [exact E|]. split; [done|]. intros k. rewrite Hget.
    destruct (filed_under kv values k) as [|v vs]; [done|].
    by destruct (last (v :: vs)) eqn:El; [|apply last_None in El].
Qed.

(** Values that are pairs already, filed as they are. *)
Example lookup_table_pairs :
  lookup_table keyval_identity true false
    [("django", "1.8"); ("six", "1.10.0"); ("django", "2.0")]
  = Ok [("django", Single "2.0"); ("six", Single "1.10.0")] ∧
  lookup_table keyval_identity false true
    [("django", "1.8"); ("six", "1.10.0"); ("django", "2.0")]
  = Ok [("django", ListOf ["1.8"; "2.0"]); ("six", ListOf ["1.10.0"])].
Proof. split; by vm_compute. Qed.

(** The examples of the docstring. *)
Example lookup_table_docstring :
  let values := ["foo"; "bar"; "baz"; "qux"; "quux"] in
  lookup_table (keyval_of_key first_character) false false values
    = Ok [("f", SetOf {["foo"]}); ("b", SetOf {["bar"; "baz"]});
          ("q", SetOf {["qux"; "quux"]})] ∧
  lookup_table (keyval_of_key first_character) true false values
    = Ok [("f", Single "foo"); ("b", Single "baz"); ("q", Single "quux")] ∧
  lookup_table (keyval_of_key first_character) false true values
    = Ok [("f", ListOf ["foo"]); ("b", ListOf ["bar"; "baz"]);
          ("q", ListOf ["qux"; "quux"])] ∧
  lookup_table
    (λ s, match s with
          | String c s' => Ok (String c EmptyString, s')
          | EmptyString => Raise (OtherError "IndexError")
          end) false true values
    = Ok [("f", ListOf ["oo"]); ("b", ListOf ["ar"; "az"]);
          ("q", ListOf ["ux"; "uux"])].
Proof. repeat split; by vm_compute. Qed.

(** ** utils.py: [format_specifier], [format_requirement], keys *)

Section FormatSpecifier.

Lemma insert_by_version_perm (x : Specifier) (l : list Specifier) :
  insert_by_version x l ≡ₚ x :: l.
Proof.
  induction l as [|y l IH]; cbn; [done|].
  case_decide; [done|]. rewrite IH. apply Permutation_swap.
Qed.

Lemma sorted_by_version_perm (l : list Specifier) : sorted_by_version l ≡ₚ l.
Proof.
  induction l as [|x l IH]; cbn; [done|].
  by rewrite insert_by_version_perm, IH.
Qed.

Lemma insert_by_version_sorted (x : Specifier) (l : list Specifier) :
  Sorted String.le (version <$> l) →
  Sorted String.le (version <$> insert_by_version x l).
Proof.
  induction l as [|y l IH]; cbn; intros Hs.
  - repeat constructor.
  - case_decide as Hxy.
    + cbn. constructor; [done|]. by constructor.
    + apply Sorted_inv in Hs as [Hs Hhd]. cbn. constructor; [by apply IH|].
      destruct l as [|z l]; cbn.
      * constructor. by destruct (total String.le (version x) (version y)).
      * case_decide.
        -- constructor. by destruct (total String.le (version x) (version y)).
        -- constructor. by apply HdRel_inv in Hhd.
Qed.

Lemma sorted_by_version_sorted (l : list Specifier) :
  Sorted String.le (version <$> sorted_by_version l).
Proof.
  induction l as [|x l IH]; cbn; [constructor|].
  by apply insert_by_version_sorted.
Qed.

(** Two lists with the same members and the same keys in the same places
    are equal when the keys are pairwise different. *)
Lemma perm_same_keys {A B} (f : A → B) (l l' : list A) :
  l ≡ₚ l' → NoDup (f <$> l) → f <$> l = f <$> l' → l = l'.
Proof.
  revert l'. induction l as [|x l IH]; intros l' Hp Hnd Hf.
  - by apply Permutation_nil_l in Hp.
  - destruct l' as [|x' l']; [by apply Permutation_nil_r in Hp|].
    injection Hf as Hx Hf. apply NoDup_cons in Hnd as [Hx_notin Hnd].
    assert (x' = x) as ->.
    { assert (x' ∈ x :: l) as [->|Hin]%elem_of_cons
        by (rewrite Hp; left); [done|].
      destruct Hx_notin. rewrite Hx. by apply list_elem_of_fmap_2. }
    f_equal. apply IH; [by eapply Permutation_cons_inv|done..].
Qed.

(** The sort is stable: the specifiers of one version keep their order. *)
Lemma insert_by_version_stable (v : string) (x : Specifier)
    (l : list Specifier) :
  filter (λ y, version y = v) (insert_by_version x l)
  = filter (λ y, version y = v) (x :: l).
Proof.
  induction l as [|y l IH]; cbn [insert_by_version]; [done|].
  case_decide as Hxy; [done|].
  rewrite filter_cons, IH, !filter_cons.
  destruct (decide (version x = v)) as [Hx|Hx];
    destruct (decide (version y = v)) as [Hy|Hy]; try done.
  destruct Hxy. rewrite Hx, Hy. reflexivity.
Qed.

Lemma sorted_by_version_stable (v : string) (l : list Specifier) :
  filter (λ y, version y = v) (sorted_by_version l)
  = filter (λ y, version y = v) l.
Proof.
  induction l as [|x l IH]; [done|].
  change (sorted_by_version (x :: l))
    with (insert_by_version x (sorted_by_version l)).
  by rewrite insert_by_version_stable, !filter_cons, IH.
Qed.

Lemma format_specifier_permutation (a b : InstallRequirement)
    (ra rb : Requirement) :
  req a = Some ra → req b = Some rb →
  specifier ra ≡ₚ specifier rb →
  NoDup (version <$> specifier ra) →
  format_specifier a = format_specifier b.
Proof.
  intros Ha Hb Hp Hnd. unfold format_specifier. rewrite Ha, Hb.
  assert (sorted_by_version (specifier ra) = sorted_by_version (specifier rb))
    as ->; [|done].
  apply (perm_same_keys version).
  - by rewrite !sorted_by_version_perm.
  - by rewrite sorted_by_version_perm.
  - apply (Sorted_unique String.le); try apply sorted_by_version_sorted.
    by rewrite !sorted_by_version_perm, Hp.
Qed.

End FormatSpecifier.

(** [format_specifier] sorts by version string: the text is the
    specifiers of the requirement, each as operator and version, joined by
    commas in ascending order of their versions, those of one version in
    the order in which the specifier set enumerates them, and [<any>] when
    this text is empty.  So, when no two specifiers have the same version,
    the text does not depend on the order of enumeration. *)
Theorem format_specifier_order (a : InstallRequirement) (ra : Requirement) :
  req a = Some ra →
  ∃ specs,
    specs ≡ₚ specifier ra ∧
    Sorted String.le (version <$> specs) ∧
    (∀ v, filter (λ spec, version spec = v) specs
          = filter (λ spec, version spec = v) (specifier ra)) ∧
    format_specifier a
    = (if bool_decide (PyStr.join "," (specifier_str <$> specs) = EmptyString)
       then "<any>" else PyStr.join "," (specifier_str <$> specs)) ∧
    (∀ b rb, req b = Some rb → specifier ra ≡ₚ specifier rb →
             NoDup (version <$> specifier ra) →
             format_specifier a = format_specifier b).
Proof.
  intros Ha. exists (sorted_by_version (specifier ra)).
  split; [apply sorted_by_version_perm|].
  split; [apply sorted_by_version_sorted|].
  split; [intros v; apply sorted_by_version_stable|].
  split; [unfold format_specifier; by rewrite Ha|].
  intros b rb Hb Hp Hnd. by eapply format_specifier_permutation.
Qed.

Lemma format_specifier_order_witness :
  ∃ specs,
    specs ≡ₚ [ {| operator := "<"; version := "2.0" |};
               {| operator := ">="; version := "1.8" |} ] ∧
    Sorted String.le (version <$> specs) ∧
    format_specifier
      (requirement_line "django" [ {| operator := "<"; version := "2.0" |};
                                   {| operator := ">="; version := "1.8" |} ])
    = (if bool_decide (PyStr.join "," (specifier_str <$> specs) = EmptyString)
       then "<any>" else PyStr.join "," (specifier_str <$> specs)).
Proof.
  destruct (format_specifier_order
              (requirement_line "django"
                 [ {| operator := "<"; version := "2.0" |};
                   {| operator := ">="; version := "1.8" |} ])
              _ eq_refl) as (specs & Hp & Hs & _ & Ht & _).
  by exists specs.
Defined.

(** The sort is stable and compares versions only: with two specifiers of
    one version the text follows the order of enumeration.  Without a
    requirement or without specifiers the text is [<any>]. *)
Example format_specifier_examples :
  format_specifier
    (requirement_line "django" [ {| operator := "<"; version := "2.0" |};
                                 {| operator := ">="; version := "1.8" |} ])
  = ">=1.8,<2.0" ∧
  format_specifier
    (requirement_line "django" [ {| operator := ">="; version := "1.8" |};
                                 {| operator := "!="; version := "1.8" |} ])
  = ">=1.8,!=1.8" ∧
  format_specifier
    (requirement_line "django" [ {| operator := "!="; version := "1.8" |};
                                 {| operator := ">="; version := "1.8" |} ])
  = "!=1.8,>=1.8" ∧
  format_specifier (requirement_line "django" []) = "<any>" ∧
  format_specifier url_ireq = "<any>".
Proof. repeat split; by vm_compute. Qed.

(** The line without hashes, then one continuation line per hash. *)
Lemma format_requirement_split (p : PrintedRequirement)
    (marker : option string) (hashes : list string) :
  format_requirement p marker (Some hashes)
  = rbind (format_requirement p marker None)
      (λ line, Ok (foldl (λ line hash_, line +:+ hash_line hash_) line
                         (PyStr.sorted hashes))).
Proof.
  unfold format_requirement.
  destruct (if editable (ireq_of p) then _ else _) as [line0|e]; [|done].
  cbn [rbind]. by destruct hashes.
Qed.

(** [format_requirement] sorts the hashes: the line does not depend on the
    order in which they are given; they only add continuation lines to the
    line formatted without them; and an empty marker or no hashes at all is
    the same as none. *)
Theorem format_requirement_hashes (p : PrintedRequirement)
    (marker : option string) (hashes hashes' : list string) :
  hashes ≡ₚ hashes' →
  format_requirement p marker (Some hashes)
    = format_requirement p marker (Some hashes') ∧
  format_requirement p marker (Some hashes)
    = rbind (format_requirement p marker None)
        (λ line, Ok (foldl (λ line hash_, line +:+ hash_line hash_) line
                           (PyStr.sorted hashes))) ∧
  format_requirement p marker (Some []) = format_requirement p marker None ∧
  format_requirement p (Some EmptyString) (Some hashes)
    = format_requirement p None (Some hashes).
Proof.
  intros Hp. split; [|split; [|split]].
  - by rewrite !format_requirement_split, (sorted_perm _ _ Hp).
  - apply format_requirement_split.
  - done.
  - done.
Qed.

Lemma format_requirement_hashes_witness :
  let p := {| ireq_of := Demo.pin "django" "1.8"; original_link := None;
              req_str := "Django==1.8" |} in
  let marker := Some "python_version < '3'" in
  let hashes := ["sha256:bb"; "sha256:aa"] in
  let hashes' := ["sha256:aa"; "sha256:bb"] in
  format_requirement p marker (Some hashes)
    = format_requirement p marker (Some hashes') ∧
  format_requirement p marker (Some hashes)
    = rbind (format_requirement p marker None)
        (λ line, Ok (foldl (λ line hash_, line +:+ hash_line hash_) line
                           (PyStr.sorted hashes))) ∧
  format_requirement p marker (Some []) = format_requirement p marker None ∧
  format_requirement p (Some EmptyString) (Some hashes)
    = format_requirement p None (Some hashes).
Proof.
  intros p marker hashes hashes'.
  apply (format_requirement_hashes p marker hashes hashes').
  apply Permutation_swap.
Defined.

(** The three forms of the first part of the line: an editable requirement
    is printed with [-e] and its link also when it has a requirement; a
    requirement given as a URL by its link; any other in lower case. *)
Example format_requirement_examples :
  format_requirement
    {| ireq_of := Demo.pin "django" "1.8"; original_link := None;
       req_str := "Django==1.8" |}
    (Some "python_version < '3'") (Some ["sha256:bb"; "sha256:aa"])
  = Ok ("django==1.8 ; python_version < '3' \" +:+ Compile.newline
        +:+ "    --hash=sha256:aa \" +:+ Compile.newline +:+ "    --hash=sha256:bb") ∧
  format_requirement
    {| ireq_of := url_ireq; original_link := link url_ireq;
       req_str := "None" |} None None
  = Ok "-e git+https://example.com/Repo_X.git" ∧
  format_requirement
    {| ireq_of := Demo.pin "Django" "1.8"; original_link := None;
       req_str := "Django==1.8" |} None None
  = Ok "django==1.8" ∧
  format_requirement
    {| ireq_of := {| req := None; link := None; editable := true;
                     constraint := false; extras := ∅; markers := None;
                     hash_options := []; comes_from := None |};
       original_link := None; req_str := "None" |} None None
  = Raise AssertionError.
Proof. repeat split; by vm_compute. Qed.

Lemma replace_replace (a b : ascii) (s : string) :
  a ≠ b → PyStr.replace a b (PyStr.replace a b s) = PyStr.replace a b s.
Proof.
  intros Hab. induction s as [|c s IH]; cbn; [done|]. rewrite IH. f_equal.
  destruct (Ascii.eqb_spec c a) as [->|Hc].
  - destruct (Ascii.eqb_spec b a); congruence.
  - by destruct (Ascii.eqb_spec c a).
Qed.

(** A key is its own key: normalising twice is normalising once, so a
    requirement named by the key of another has that key. *)
Theorem key_from_req_idempotent (r : DistOrReq) (specs : list Specifier)
    (project : string) :
  key_from_req (OfRequirement {| name := key_from_req r; specifier := specs |})
    = key_from_req r ∧
  key_from_req (OfDistribution {| key := key_from_req r;
                                  project_name := project |})
    = key_from_req r.
Proof.
  assert (∀ n, PyStr.lower (PyStr.replace "_" "-"
                 (PyStr.lower (PyStr.replace "_" "-" n)))
               = PyStr.lower (PyStr.replace "_" "-" n)) as Hn.
  { intros n. rewrite <- lower_replace_comm, replace_replace by done.
    apply lower_idemp. }
  unfold key_from_req. cbn [name key]. by rewrite !Hn.
Qed.

(** ** logging.py: [unstyle] *)

Section Unstyle.
Import Ansi.

Lemma sub_empty_skip (n : nat) (pre s : string) :
  String.length pre = n → sub_empty n (pre +:+ s) = sub_empty 0 s.
Proof.
  revert n. induction pre as [|c pre IH]; intros n Hn; cbn in Hn; subst n.
  - done.
  - rewrite append_cons. cbn [sub_empty]. by apply IH.
Qed.

Lemma parameters_and_letter_length (parameters : string) (final : ascii)
    (s : string) :
  string_forall is_parameter parameters = true → is_letter final = true →
  parameters_and_letter (parameters +:+ String final s)
  = Some (S (String.length parameters)).
Proof.
  intros Hp Hf. induction parameters as [|c ps IH]; cbn [string_forall] in Hp.
  - rewrite append_nil_l. cbn [parameters_and_letter String.length].
    destruct (is_parameter final) eqn:E; [|by rewrite Hf].
    exfalso. revert E Hf. unfold is_parameter, is_letter.
    destruct final as [[] [] [] [] [] [] [] []]; by cbn.
  - apply andb_true_iff in Hp as [Hc Hp]. rewrite append_cons.
    cbn [parameters_and_letter String.length]. by rewrite Hc, IH.
Qed.

Lemma unstyle_sequence (parameters : string) (final : ascii) (s : string) :
  string_forall is_parameter parameters = true → is_letter final = true →
  unstyle (escape_sequence parameters final +:+ s) = unstyle s.
Proof.
  intros Hp Hf. unfold unstyle, escape_sequence.
  rewrite !append_cons, append_assoc, append_cons, append_nil_l.
  cbn [sub_empty match_length]. rewrite Ascii.eqb_refl.
  rewrite (parameters_and_letter_length _ _ _ Hp Hf). cbn [fmap option_fmap option_map].
  replace (2 + S (String.length parameters) - 1)%nat
    with (S (S (String.length parameters))) by lia.
  cbn [sub_empty].
  replace (parameters +:+ String final s)
    with ((parameters +:+ String final EmptyString) +:+ s)
    by (by rewrite append_assoc).
  apply sub_empty_skip. clear.
  induction parameters as [|c ps IH]; [done|].
  rewrite append_cons. cbn [String.length]. by rewrite IH.
Qed.

Lemma match_length_no_escape (c : ascii) (s : string) :
  c ≠ ESC → match_length (String c s) = None.
Proof.
  intros Hc. cbn. destruct s as [|c' s]; [done|].
  destruct (Ascii.eqb_spec c' "["); [|by destruct c' as [[] [] [] [] [] [] [] []]].
  subst. by destruct (Ascii.eqb_spec c ESC).
Qed.

Lemma unstyle_plain (s : string) :
  string_forall (λ c, negb (Ascii.eqb c ESC)) s = true → unstyle s = s.
Proof.
  unfold unstyle. induction s as [|c s IH]; cbn [string_forall]; [done|].
  intros [Hc Hs]%andb_true_iff. cbn [sub_empty].
  rewrite match_length_no_escape.
  - by rewrite IH.
  - intros ->. by rewrite Ascii.eqb_refl in Hc.
Qed.

Lemma sub_empty_length (n : nat) (s : string) :
  (String.length (sub_empty n s) ≤ String.length s)%nat.
Proof.
  revert n. induction s as [|c s IH]; intros n; cbn [sub_empty]; [done|].
  destruct n as [|n].
  - destruct (match_length (String c s)); cbn [String.length].
    + specialize (IH (n - 1)%nat). lia.
    + specialize (IH 0%nat). lia.
  - specialize (IH n). cbn [String.length]. lia.
Qed.

End Unstyle.

(** A message written after an escape sequence comes back when the line is
    unstyled, as [log] does when stderr is not a terminal: a text without
    [ESC] is left as it is, and a leading sequence is dropped.  [unstyle]
    only removes characters. *)
Theorem unstyle_styled_message (parameters : string) (final : ascii)
    (message : string) :
  string_forall Ansi.is_parameter parameters = true →
  Ansi.is_letter final = true →
  string_forall (λ c, negb (Ascii.eqb c Ansi.ESC)) message = true →
  unstyle (escape_sequence parameters final +:+ message) = message ∧
  unstyle message = message ∧
  ∀ value, (String.length (unstyle value) ≤ String.length value)%nat.
Proof.
  intros Hp Hf Hm. rewrite unstyle_sequence by done.
  rewrite unstyle_plain by done. repeat split. apply sub_empty_length.
Qed.

Lemma unstyle_styled_message_witness :
  unstyle (escape_sequence "31" "m" +:+ "Incompatible requirements found")
    = "Incompatible requirements found" ∧
  unstyle "Incompatible requirements found"
    = "Incompatible requirements found" ∧
  ∀ value, (String.length (unstyle value) ≤ String.length value)%nat.
Proof. by apply unstyle_styled_message. Defined.

(** [unstyle] is not idempotent: removing a sequence can bring the two
    halves of another one together. *)
Example unstyle_twice :
  let value :=
    String Ansi.ESC (escape_sequence "0" "m" +:+ "[0mtext") in
  unstyle value = escape_sequence "0" "m" +:+ "text" ∧
  unstyle (unstyle value) = "text".
Proof. split; by vm_compute. Qed.

(** ** logging.py: the indentation of the log *)

Section Indentation.

Lemma same_indentation_refl (s : State) : same_indentation s s.
Proof. done. Qed.

Lemma same_indentation_trans (s1 s2 s3 : State) :
  same_indentation s1 s2 → same_indentation s2 s3 → same_indentation s1 s3.
Proof. intros [? ?] [? ?]. split; congruence. Qed.

Lemma keeps_ret {A} (a : A) : keeps_indentation (ret a).
Proof. by intros s. Qed.

Lemma keeps_raise {A} (e : exn) : keeps_indentation (@raise A e).
Proof. by intros s. Qed.

Lemma keeps_lift {A} (r : result A) : keeps_indentation (lift r).
Proof. by intros s. Qed.

Lemma keeps_get_log : keeps_indentation get_log.
Proof. by intros s. Qed.

Lemma keeps_emit (e : event) : keeps_indentation (emit e).
Proof. by intros s. Qed.

Lemma keeps_bind {A B} (m : M A) (k : A → M B) :
  keeps_indentation m → (∀ a, keeps_indentation (k a)) →
  keeps_indentation (bind m k).
Proof.
  intros Hm Hk s. unfold bind. specialize (Hm s).
  destruct (m s) as [[a|e] s1]; [|done].
  by eapply same_indentation_trans; [|apply Hk].
Qed.

Lemma keeps_try_except {A} (body : M A) (handler : string → M A) :
  keeps_indentation body → (∀ e, keeps_indentation (handler e)) →
  keeps_indentation (try_except_PipToolsError body handler).
Proof.
  intros Hm Hk s. unfold try_except_PipToolsError. specialize (Hm s).
  destruct (body s) as [[a|e] s1]; [done|]. destruct e; try done.
  by eapply same_indentation_trans; [|apply Hk].
Qed.

Lemma keeps_for_each {A} (xs : list A) (body : A → M unit) :
  (∀ x, keeps_indentation (body x)) → keeps_indentation (for_each xs body).
Proof.
  intros Hb. induction xs as [|x xs IH]; cbn; [apply keeps_ret|].
  by apply keeps_bind.
Qed.

Lemma keeps_map_M {A B} (f : A → M B) (xs : list A) :
  (∀ x, keeps_indentation (f x)) → keeps_indentation (map_M f xs).
Proof.
  intros Hb. induction xs as [|x xs IH]; cbn; [apply keeps_ret|].
  apply keeps_bind; [done|intros y].
  apply keeps_bind; [done|intros ys]. apply keeps_ret.
Qed.

Lemma keeps_log_ fore message : keeps_indentation (Log.log_ fore message).
Proof. by intros s. Qed.

Lemma keeps_debug message : keeps_indentation (Log.debug message).
Proof. intros s. unfold Log.debug, bind, get_log. by destruct (1 <=? _). Qed.

Lemma keeps_info message : keeps_indentation (Log.info message).
Proof. intros s. unfold Log.info, bind, get_log. by destruct (0 <=? _). Qed.

Lemma keeps_set_verbosity_from args : keeps_indentation (set_verbosity_from args).
Proof.
  intros s. unfold set_verbosity_from, bind, lift.
  destruct (getattr args "verbose"); [|done].
  destruct (getattr args "quiet"); [|done].
  by destruct (py_sub _ _).
Qed.

Lemma keeps_attr_truthy args attr : keeps_indentation (attr_truthy args attr).
Proof. intros s. unfold attr_truthy, bind, lift. by destruct (getattr _ _). Qed.

Lemma keeps_attr_list args attr : keeps_indentation (attr_list args attr).
Proof.
  intros s. unfold attr_list, bind, lift.
  destruct (getattr _ _); [|done]. by destruct (as_list _).
Qed.

Lemma keeps_attr_opt_str args attr : keeps_indentation (attr_opt_str args attr).
Proof.
  intros s. unfold attr_opt_str, bind, lift.
  destruct (getattr _ _); [|done]. by destruct (as_opt_str _).
Qed.

(** [with log.indentation():] dedents in its [finally] clause: the block
    as a whole keeps the indentation when its body does, whether the body
    returns or raises. *)
Lemma keeps_indentation_block {A} (body : M A) :
  keeps_indentation body → keeps_indentation (Log.indentation body).
Proof.
  intros Hb s.
  unfold Log.indentation, Log._indent, Log._dedent, try_finally, bind,
    get_log, set_log.
  cbv beta iota zeta.
  match goal with |- context [body ?s1] => specialize (Hb s1) end.
  destruct (body _) as [r s2]. destruct Hb as [Hc Hw]. cbn in Hc, Hw.
  split; cbn; [rewrite Hc, Hw; lia|done].
Qed.

End Indentation.

Ltac keeps_step :=
  first
    [ apply keeps_ret | apply keeps_raise | apply keeps_lift
    | apply keeps_get_log | apply keeps_emit
    | apply keeps_debug | apply keeps_info | apply keeps_log_
    | apply keeps_indentation_block
    | apply keeps_attr_truthy | apply keeps_attr_list
    | apply keeps_attr_opt_str | apply keeps_set_verbosity_from
    | apply keeps_bind; [|intros ?]
    | apply keeps_try_except; [|intros ?]
    | apply keeps_for_each; intros ?
    | apply keeps_map_M; intros ?
    | match goal with
      | |- keeps_indentation (if ?b then _ else _) => destruct b
      | |- keeps_indentation (match ?x with _ => _ end) => destruct x
      | |- keeps_indentation (let '(_, _) := ?x in _) => destruct x
      end ].

(** However a run of [pip-compile] or [pip-sync] ends (normally, by
    [sys.exit] or by an exception), the indentation of the log is what it
    was before: every [with log.indentation()] block has been left through
    its [finally] clause. *)
Theorem cli_keeps_indentation (env : Env) (args : gmap string value)
    (s : State) :
  same_indentation s (Compile.cli env args s).2 ∧
  same_indentation s (Sync.cli env args s).2.
Proof.
  split.
  - revert s. change (keeps_indentation (Compile.cli env args)).
    unfold Compile.cli, Compile.setup, Compile.choose_src_files,
      Compile.choose_output_file, Compile.compose_pip_args,
      Compile.choose_repository, Compile.collect_constraints,
      Compile.parse_source, Compile.log_sources, Compile.resolution,
      Compile.resolver_args, Compile.output, sys_exit, Log.error, Log.warning.
    repeat keeps_step.
  - revert s. change (keeps_indentation (Sync.cli env args)).
    unfold Sync.cli, Sync.choose_src_files, Sync.check_extensions,
      Sync.merge_requirements, Sync.parse_all, Sync.run_sync, sys_exit,
      Log.error, Log.warning.
    repeat keeps_step.
Qed.

Section LogSources.
Context (env : Env).

Lemma debug_loud (message : string) (s : State) :
  1 ≤ verbosity (log s) →
  Log.debug message s
  = (Ok tt, {| log := log s;
               trace := trace s ++ [log_line (current_indent (log s)) message] |}).
Proof.
  intros Hv. unfold Log.debug, bind, get_log.
  by rewrite (proj2 (Z.leb_le _ _) Hv).
Qed.

Lemma debug_quiet (message : string) (s : State) :
  verbosity (log s) < 1 → Log.debug message s = (Ok tt, s).
Proof.
  intros Hv. unfold Log.debug, bind, get_log.
  by rewrite (proj2 (Z.leb_gt _ _) Hv).
Qed.

Lemma for_each_debug_loud (f : string → string) (xs : list string) (s : State) :
  1 ≤ verbosity (log s) →
  for_each xs (λ x, Log.debug (f x)) s
  = (Ok tt, {| log := log s;
               trace := trace s ++
                 ((λ x, log_line (current_indent (log s)) (f x)) <$> xs) |}).
Proof.
  revert s. induction xs as [|x xs IH]; intros s Hv; cbn [for_each].
  - unfold ret. rewrite app_nil_r. by destruct s.
  - unfold bind. rewrite debug_loud by done. rewrite IH by done. cbn.
    by rewrite <- app_assoc.
Qed.

Lemma for_each_debug_quiet (f : string → string) (xs : list string) (s : State) :
  verbosity (log s) < 1 → for_each xs (λ x, Log.debug (f x)) s = (Ok tt, s).
Proof.
  intros Hv. induction xs as [|x xs IH]; cbn [for_each]; [done|].
  unfold bind. by rewrite debug_quiet.
Qed.

Lemma indentation_run {A} (body : M A) (s : State) :
  Log.indentation body s =
  let inner :=
    body {| log := {| verbosity := verbosity (log s);
                      current_indent :=
                        current_indent (log s) + _indent_width (log s);
                      _indent_width := _indent_width (log s) |};
            trace := trace s |} in
  (inner.1,
   {| log := {| verbosity := verbosity (log inner.2);
                current_indent :=
                  current_indent (log inner.2) - _indent_width (log inner.2);
                _indent_width := _indent_width (log inner.2) |};
      trace := trace inner.2 |}).
Proof.
  unfold Log.indentation, Log._indent, Log._dedent, try_finally, bind,
    get_log, set_log.
  cbv beta iota zeta. by destruct (body _).
Qed.

Lemma log_eq (l : LogContext) (v c w : Z) :
  v = verbosity l → c = current_indent l → w = _indent_width l →
  {| verbosity := v; current_indent := c; _indent_width := w |} = l.
Proof. intros -> -> ->. by destruct l. Qed.

Lemma indented_debug_loud (f : string → string) (xs : list string) (s : State) :
  1 ≤ verbosity (log s) →
  Log.indentation (for_each xs (λ x, Log.debug (f x))) s
  = (Ok tt,
     {| log := log s;
        trace := trace s ++
          ((λ x, log_line (current_indent (log s) + _indent_width (log s)) (f x))
             <$> xs) |}).
Proof.
  intros Hv. rewrite indentation_run. cbv zeta.
  rewrite for_each_debug_loud by done. cbn. f_equal. f_equal.
  apply log_eq; [done|lia|done].
Qed.

Lemma indented_debug_quiet (f : string → string) (xs : list string) (s : State) :
  verbosity (log s) < 1 →
  Log.indentation (for_each xs (λ x, Log.debug (f x))) s = (Ok tt, s).
Proof.
  intros Hv. rewrite indentation_run. cbv zeta.
  rewrite for_each_debug_quiet by done. cbn. f_equal.
  destruct s as [l t]. cbn. f_equal. apply log_eq; [done|lia|done].
Qed.

End LogSources.

(** Lines 359-369 of compile.py.  With [-v], the indexes of the finder are
    logged under [Using indexes:], each once, in the order of first
    occurrence, with its credentials redacted and indented by one level;
    the links the same way under [Using links:] when there are any.
    Without [-v] nothing is logged.  The log context is left as it was. *)
Theorem log_sources_lines (env : Env) (repository0 : Repository) (s : State) :
  let finder := finder_of env repository0 in
  let here := current_indent (log s) in
  let inner := current_indent (log s) + _indent_width (log s) in
  let listed urls :=
    (λ u, log_line inner (redact_auth_from_url env u)) <$> Compile.dedup urls in
  Compile.log_sources env repository0 s =
    (Ok tt,
     {| log := log s;
        trace := trace s ++
          if 1 <=? verbosity (log s) then
            log_line here "Using indexes:" :: listed (index_urls finder) ++
            match find_links finder with
            | [] => []
            | links => log_line here EmptyString
                       :: log_line here "Using links:" :: listed links
            end
          else [] |}).
Proof.
  intros finder here inner listed. unfold Compile.log_sources. fold finder.
  destruct (Z.leb_spec 1 (verbosity (log s))) as [Hv|Hv].
  - unfold bind at 1. rewrite debug_loud by done.
    unfold bind at 1. rewrite indented_debug_loud by done. cbn [log trace].
    destruct (find_links finder) as [|l ls] eqn:El.
    + rewrite bool_decide_eq_true_2 by done. cbn [negb]. unfold ret.
      rewrite app_nil_r, <- app_assoc. done.
    + rewrite bool_decide_eq_false_2 by done. cbn [negb].
      unfold bind at 1. rewrite debug_loud by done.
      unfold bind at 1. rewrite debug_loud by done.
      rewrite indented_debug_loud by done. cbn [log trace].
      f_equal. f_equal. rewrite <- !app_assoc. done.
  - unfold bind at 1. rewrite debug_quiet by done.
    unfold bind at 1. rewrite indented_debug_quiet by done.
    rewrite app_nil_r.
    destruct (bool_decide (find_links finder = [])); cbn [negb].
    + unfold ret. by destruct s.
    + unfold bind at 1. rewrite debug_quiet by done.
      unfold bind at 1. rewrite debug_quiet by done.
      rewrite indented_debug_quiet by done. by destruct s.
Qed.

(** ** sync.py: the flags of [pip install] *)

Section InstallFlags.
Import Sync.

Lemma passes_app_l (flag value : string) (l r : list string) :
  passes flag value l → passes flag value (l ++ r).
Proof.
  intros (b & a & ->). exists b, (a ++ r). by rewrite <- app_assoc.
Qed.

Lemma passes_app_r (flag value : string) (l r : list string) :
  passes flag value r → passes flag value (l ++ r).
Proof.
  intros (b & a & ->). exists (l ++ b), a. by rewrite <- app_assoc.
Qed.

Lemma passes_extend_flag (flag value : string) (values : list string) :
  value ∈ values → passes flag value (extend_flag flag values).
Proof.
  unfold extend_flag. induction values as [|v values IH].
  - by intros ?%elem_of_nil.
  - intros [->|Hin]%elem_of_cons; cbn.
    + by exists [], (concat (map (λ v, [flag; v]) values)).
    + apply (passes_app_r _ _ [flag; v]). by apply IH.
Qed.

Lemma passes_if (flag value : string) (b : bool) (l r : list string) :
  passes flag value l → passes flag value (if b then l ++ r else l).
Proof. intros H. destruct b; [by apply passes_app_l|done]. Qed.

End InstallFlags.

(** Nothing collected is lost: every extra index, trusted host and link,
    from the command line or from the finder (which holds the options of the
    requirements files), is passed to [pip install] with its option; so is
    every index of the finder other than the default one, unless
    [--no-index] or [--index-url] is given on the command line. *)
Theorem install_flags_pass_options (default_index_url : string)
    (finder : Finder) (no_index : bool) (index_url : option string)
    (extra_index_url trusted_host find_links0 : list string)
    (user_only : bool) (cert client_cert : option string) :
  let flags :=
    Sync._compose_install_flags default_index_url finder no_index index_url
      extra_index_url trusted_host find_links0 user_only cert client_cert in
  (∀ u, u ∈ extra_index_url → passes "--extra-index-url" u flags) ∧
  (∀ h, h ∈ trusted_host ++ trusted_hosts finder →
        passes "--trusted-host" h flags) ∧
  (∀ l, l ∈ find_links0 ++ find_links finder →
        passes "--find-links" l flags) ∧
  (no_index = false → Sync.nonempty index_url = false →
   ∀ u, u ∈ index_urls finder → u ≠ default_index_url →
        passes "--index-url" u flags ∨ passes "--extra-index-url" u flags).
Proof.
  intros flags. subst flags. unfold Sync._compose_install_flags. cbv zeta.
  set (result0 := if no_index then _ else _).
  assert (∀ flag value rest,
            passes flag value rest →
            passes flag value
              (if Sync.nonempty client_cert
               then (if Sync.nonempty cert
                     then (if user_only then rest ++ ["--user"] else rest)
                          ++ ["--cert"; default EmptyString cert]
                     else if user_only then rest ++ ["--user"] else rest)
                    ++ ["--client-cert"; default EmptyString client_cert]
               else if Sync.nonempty cert
                    then (if user_only then rest ++ ["--user"] else rest)
                         ++ ["--cert"; default EmptyString cert]
                    else if user_only then rest ++ ["--user"] else rest))
    as Htail.
  { intros flag value rest H.
    by destruct (Sync.nonempty client_cert), (Sync.nonempty cert), user_only;
      repeat apply passes_app_l. }
  repeat split.
  - intros u Hu. apply Htail. do 3 apply passes_app_l. apply passes_app_r.
    by apply passes_extend_flag.
  - intros h Hh. apply Htail. do 2 apply passes_app_l. apply passes_app_r.
    by apply passes_extend_flag.
  - intros l Hl. apply Htail. apply passes_app_l. apply passes_app_r.
    by apply passes_extend_flag.
  - intros -> Hurl u Hu Hne. subst result0. rewrite Hurl.
    destruct (index_urls finder) as [|u0 rest]; [by apply elem_of_nil in Hu|].
    apply elem_of_cons in Hu as [->|Hu].
    + left. apply Htail. do 4 apply passes_app_l.
      rewrite bool_decide_eq_true_2 by done. apply passes_app_l. by exists [], [].
    + right. apply Htail. do 4 apply passes_app_l. apply passes_app_r.
      by apply passes_extend_flag.
Qed.

Section InstallFlagsHead.
Import Sync.

(** The flags are the blocks of the function, one after the other. *)
Lemma install_flags_blocks (default_index_url : string)
    (finder : Finder) (no_index : bool) (index_url : option string)
    (extra_index_url trusted_host find_links0 : list string)
    (user_only : bool) (cert client_cert : option string) :
  _compose_install_flags default_index_url finder no_index index_url
    extra_index_url trusted_host find_links0 user_only cert client_cert
  = (if no_index then ["--no-index"]
     else if nonempty index_url
          then ["--index-url"; default EmptyString index_url]
          else match index_urls finder with
               | finder_index_url :: rest =>
                   (if bool_decide (finder_index_url ≠ default_index_url)
                    then ["--index-url"; finder_index_url] else [])
                   ++ extend_flag "--extra-index-url" rest
               | [] => ["--no-index"]
               end)
    ++ extend_flag "--extra-index-url" extra_index_url
    ++ extend_flag "--trusted-host" (trusted_host ++ trusted_hosts finder)
    ++ extend_flag "--find-links" (find_links0 ++ find_links finder)
    ++ format_control_flags "no_binary" (no_binary finder)
    ++ format_control_flags "only_binary" (only_binary finder)
    ++ (if user_only then ["--user"] else [])
    ++ (if nonempty cert then ["--cert"; default EmptyString cert] else [])
    ++ (if nonempty client_cert
        then ["--client-cert"; default EmptyString client_cert] else []).
Proof.
  unfold _compose_install_flags. cbv zeta.
  destruct user_only, (nonempty cert), (nonempty client_cert);
    rewrite <- ?app_assoc, ?app_nil_r; reflexivity.
Qed.

End InstallFlagsHead.

(** [pip install] is told [--no-index], as its first flag, exactly when
    [--no-index] is given on the command line, or no [--index-url] is given
    and the finder knows no index. *)
Theorem install_flags_no_index (default_index_url : string)
    (finder : Finder) (no_index : bool) (index_url : option string)
    (extra_index_url trusted_host find_links0 : list string)
    (user_only : bool) (cert client_cert : option string) :
  head (Sync._compose_install_flags default_index_url finder no_index
          index_url extra_index_url trusted_host find_links0 user_only cert
          client_cert) = Some "--no-index"
  ↔ no_index = true ∨
    (Sync.nonempty index_url = false ∧ index_urls finder = []).
Proof.
  rewrite install_flags_blocks.
  destruct no_index; [by split; [left|]|].
  destruct (Sync.nonempty index_url); [split; [done|by intros [|[]]]|].
  destruct (index_urls finder) as [|u0 rest]; [by split; [right|]|].
  split; [|by intros [|[]]]. intros H. exfalso. revert H.
  destruct (bool_decide (u0 ≠ default_index_url)); [done|].
  rewrite app_nil_l. destruct rest; [|done]. rewrite app_nil_l.
  destruct extra_index_url; [|done]. rewrite app_nil_l.
  destruct (trusted_host ++ trusted_hosts finder); [|done]. rewrite app_nil_l.
  destruct (find_links0 ++ find_links finder); [|done]. rewrite app_nil_l.
  unfold Sync.format_control_flags.
  destruct (bool_decide (elements (no_binary finder) = [])); [|done].
  rewrite app_nil_l.
  destruct (bool_decide (elements (only_binary finder) = [])); [|done].
  rewrite app_nil_l.
  by destruct user_only, (Sync.nonempty cert), (Sync.nonempty client_cert).
Qed.

(** ** compile.py: the output file, the sources, the constraints *)

Section OutputFileName.
Import Compile.

Lemma before_last_none (sep : ascii) (s : string) :
  string_forall (λ c, negb (Ascii.eqb c sep)) s = true →
  before_last sep s = None.
Proof.
  induction s as [|c s IH]; cbn; [done|].
  intros [Hc Hs]%andb_true_iff. rewrite IH by done.
  by destruct (Ascii.eqb c sep).
Qed.

Lemma before_last_split (sep : ascii) (stem ext : string) :
  string_forall (λ c, negb (Ascii.eqb c sep)) ext = true →
  before_last sep (stem +:+ String sep ext) = Some stem.
Proof.
  intros Hext. induction stem as [|c stem IH].
  - rewrite append_nil_l. cbn. rewrite before_last_none by done.
    by rewrite Ascii.eqb_refl.
  - rewrite append_cons. cbn. by rewrite IH.
Qed.

End OutputFileName.

(** Lines 214-230 of compile.py: without [--output-file], the output file of
    one source file is the text before its last dot, or all of it when it
    has no dot, followed by [.txt]. *)
Theorem compile_output_file_name (args : gmap string value)
    (s : State) (src_file stem ext : string) :
  getattr args "output_file" = Ok VNone →
  src_file ≠ "-" → src_file ≠ "setup.py" →
  (src_file = stem +:+ "." +:+ ext ∧ no_dot ext) ∨
  (src_file = stem ∧ no_dot stem) →
  Compile.choose_output_file args [src_file] s
    = (Ok (Some (stem +:+ ".txt")), s).
Proof.
  intros Hout Hstdin Hsetup Hname. unfold Compile.choose_output_file.
  unfold bind at 1, attr_opt_str, bind at 1, lift at 1. rewrite Hout.
  cbn [as_opt_str lift Sync.nonempty negb].
  rewrite !bool_decide_eq_false_2 by done. unfold ret. do 3 f_equal.
  unfold Compile.rsplit_head.
  destruct Hname as [[-> Hext]|[-> Hstem]].
  - change ("." +:+ ext) with (String "." ext).
    by rewrite before_last_split.
  - by rewrite before_last_none.
Qed.

Lemma compile_output_file_name_witness :
  Compile.choose_output_file (Demo.compile_args [])
    ["requirements/dev.in"] initial_state
  = (Ok (Some ("requirements/dev" +:+ ".txt")), initial_state).
Proof.
  apply (compile_output_file_name (Demo.compile_args [])
           initial_state "requirements/dev.in" "requirements/dev" "in");
    [by vm_compute|done|done|left; by split].
Defined.

(** The rule looks at the last dot of the whole path. *)
Example compile_output_file_examples :
  let run src_file :=
    (Compile.choose_output_file (Demo.compile_args []) [src_file]
       initial_state).1 in
  run "requirements.in" = Ok (Some "requirements.txt") ∧
  run "requirements" = Ok (Some "requirements.txt") ∧
  run "dev.requirements.in" = Ok (Some "dev.requirements.txt") ∧
  run "./requirements" = Ok (Some ".txt") ∧
  run "setup.py" = Ok (Some "requirements.txt") ∧
  run "sub/setup.py" = Ok (Some "sub/setup.txt").
Proof. repeat split; by vm_compute. Qed.

(** The two usage errors of [pip-compile] (no source file and neither
    [requirements.in] nor [setup.py]; several source files and no
    [--output-file]) are raised as [click.BadParameter], and compile.py
    does not import [click]: the run ends in a [NameError], exit status 1,
    with nothing logged, parsed or written. *)
Theorem compile_usage_errors (env : Env) (args : gmap string value)
    (s : State) (v q : Z) (src_files : list string) :
  getattr args "verbose" = Ok (VInt v) → getattr args "quiet" = Ok (VInt q) →
  getattr args "src_files" = Ok (VList src_files) →
  (src_files = [] ∧
   path_exists env Compile.DEFAULT_REQUIREMENTS_FILE = false ∧
   path_exists env "setup.py" = false) ∨
  ((2 ≤ length src_files)%nat ∧ getattr args "output_file" = Ok VNone) →
  Compile.cli env args s
    = (Raise (NameError "click"), with_verbosity (v - q) s) ∧
  exit_status (Compile.cli env args s).1 = 1.
Proof.
  intros Hv Hq Hsrc Hcase.
  assert (Compile.cli env args s
          = (Raise (NameError "click"), with_verbosity (v - q) s)) as ->;
    [|done].
  unfold Compile.cli.
  rewrite (bind_ok _ _ _ _ _ (set_verbosity_from_ok _ _ _ _ Hv Hq)).
  unfold Compile.setup, Compile.choose_src_files.
  unfold bind at 2. unfold bind at 2. unfold bind at 2.
  unfold lift at 1. rewrite Hsrc. unfold lift at 1. cbn [as_list].
  destruct Hcase as [(-> & Hin & Hsetup)|[Hlen Hout]].
  - cbn [length Nat.eqb]. rewrite Hin, Hsetup. reflexivity.
  - destruct src_files as [|a [|b rest]]; cbn in Hlen; [lia|lia|].
    cbn [length Nat.eqb]. unfold ret at 1.
    unfold Compile.choose_output_file.
    unfold bind at 2. unfold bind at 2. unfold attr_opt_str at 1.
    unfold bind at 2. unfold lift at 1. rewrite Hout. reflexivity.
Qed.

Lemma compile_usage_errors_witness :
  Compile.cli Demo.empty_directory (Demo.compile_args []) initial_state
    = (Raise (NameError "click"), with_verbosity (0 - 0) initial_state) ∧
  exit_status
    (Compile.cli Demo.empty_directory (Demo.compile_args []) initial_state).1
    = 1.
Proof.
  apply (compile_usage_errors Demo.empty_directory (Demo.compile_args [])
           initial_state 0 0 []); [by vm_compute..|].
  left. by vm_compute.
Defined.

Section CompileRuns.
Import Compile.
Context (env : Env).

Lemma attr_opt_str_run (args : gmap string value) (attr : string) (s : State) :
  attr_opt_str args attr s = (rbind (getattr args attr) as_opt_str, s).
Proof.
  unfold attr_opt_str, bind, lift. by destruct (getattr args attr).
Qed.



Lemma bind_run {A B} (m : M A) (k : A → M B) (s s1 : State) (r : result A) :
  m s = (r, s1) →
  bind m k s = match r with Ok a => k a s1 | Raise e => (Raise e, s1) end.
Proof. unfold bind. by intros ->. Qed.

Lemma bind_lift {A B} (r : result A) (k : A → M B) (s : State) :
  bind (lift r) k s = match r with Ok a => k a s | Raise e => (Raise e, s) end.
Proof. by destruct r. Qed.


End CompileRuns.

Section CompileSources.
Import Compile.
Context (env : Env).






End CompileSources.



(** The same directory without [--upgrade]: the existing output file is
    parsed first. *)
Example compile_reads_output_example :
  let parsed given :=
    List.filter (λ e, if e is EvParse _ then true else false)
      (trace (Compile.cli
                (Demo.env [Demo.pin "foo" "1.0"] [Demo.pin "foo" "0.9"]
                   Demo.resolves)
                (Demo.compile_args given) initial_state).2) in
  parsed [] = [EvParse "requirements.txt"; EvParse "requirements.in"] ∧
  parsed [("upgrade", VBool true)] = [EvParse "requirements.in"].
Proof. split; by vm_compute. Qed.

Section CompileOutput.
Import Compile.
Context (env : Env).

Lemma adds_only_stderr_debug message : adds_only is_stderr (Log.debug message).
Proof. by apply adds_only_debug. Qed.

Lemma adds_only_stderr_info message : adds_only is_stderr (Log.info message).
Proof. by apply adds_only_info. Qed.

Lemma emit_ok_inv (e : event) (s s' : State) (u : unit) :
  emit e s = (Ok u, s') → trace s' = trace s ++ [e].
Proof. unfold emit. by intros [= _ <-]. Qed.

(** Lines 389-426, in a run that gets through them. *)
Lemma output_ok_inv (args : gmap string value) (r : Setup)
    (resolved : Resolution) (s s' : State) :
  output env args r resolved s = (Ok tt, s') →
  ∃ path d before after,
    setup_output_file r = Some path ∧
    open_write env path = Ok tt ∧
    getattr args "dry_run" = Ok d ∧
    trace s' = trace s ++ before
               ++ [EvOpenWrite path; EvWriterWrite (truthy d)] ++ after ∧
    Forall is_stderr before ∧ Forall is_stderr after.
Proof.
  unfold output. intros H.
  apply bind_ok_inv in H as ([] & s1 & Hdebug & H).
  destruct (adds_only_stderr_debug EmptyString s) as (before & E1 & F1).
  rewrite Hdebug in E1. cbn in E1.
  apply bind_ok_inv in H as ([] & s2 & Hwrite & H).
  destruct (setup_output_file r) as [path|]; [|done].
  apply bind_ok_inv in Hwrite as ([] & s3 & Hopen & Hwrite).
  apply lift_ok_inv in Hopen as [Hopen ->].
  apply bind_ok_inv in Hwrite as ([] & s3 & Hev & Hwrite).
  apply emit_ok_inv in Hev.
  apply bind_ok_inv in Hwrite as (dry_run & s4 & Hdry & Hwrite).
  apply attr_truthy_ok_inv in Hdry as (d & Hd & -> & ->).
  do 8 (apply bind_ok_inv in Hwrite as (? & ? & [_ ->]%lift_ok_inv & Hwrite)).
  apply emit_ok_inv in Hwrite.
  apply bind_ok_inv in H as (dry_run & s5 & Hdry & H).
  apply attr_truthy_ok_inv in Hdry as (d' & Hd' & -> & ->).
  assert (∃ after, trace s' = trace s2 ++ after ∧ Forall is_stderr after)
    as (after & E2 & F2).
  { destruct (truthy d').
    - destruct (adds_only_stderr_info "Dry-run, so nothing updated." s2)
        as (after & E & F). rewrite H in E. by exists after.
    - apply ret_ok_inv in H as [_ ->]. exists []. by rewrite app_nil_r. }
  exists path, d, before, after. repeat split; try done.
  rewrite E2, Hwrite, Hev, E1. by rewrite <- !app_assoc.
Qed.

Lemma is_stderr_leaves_output (e : event) : is_stderr e → leaves_output e.
Proof. by destruct e. Qed.

End CompileOutput.

(** A run of [pip-compile] that ends normally has opened the output file
    for writing (mode [w+b]) once, after everything else but logging, and
    called the writer once, right after; with [--dry-run] too, where only
    the flag handed to the writer differs. *)
Theorem compile_success_writes_once (env : Env) (args : gmap string value)
    (s : State) :
  (Compile.cli env args s).1 = Ok tt →
  ∃ path d before after,
    getattr args "dry_run" = Ok d ∧
    open_write env path = Ok tt ∧
    trace (Compile.cli env args s).2
      = trace s ++ before
        ++ [EvOpenWrite path; EvWriterWrite (truthy d)] ++ after ∧
    Forall leaves_output before ∧ Forall is_stderr after.
Proof.
  intros Hok. destruct (Compile.cli env args s) as [r s'] eqn:Hcli.
  cbn in Hok. subst r. unfold Compile.cli in Hcli.
  apply bind_ok_inv in Hcli as ([] & s1 & Hv & Hcli).
  apply bind_ok_inv in Hcli as (r & s2 & Hsetup & Hcli).
  apply bind_ok_inv in Hcli as (resolved & s3 & Hres & Hout).
  apply output_ok_inv in Hout
    as (path & d & before & after & _ & Hopen & Hd & E & F1 & F2).
  destruct (adds_only_set_verbosity_from leaves_output args s) as (n1 & E1 & G1).
  rewrite Hv in E1.
  destruct (setup_leaves_output env args s1) as (n2 & E2 & G2).
  rewrite Hsetup in E2.
  destruct (resolution_leaves_output env args r s2) as (n3 & E3 & G3).
  rewrite Hres in E3. cbn in E1, E2, E3.
  exists path, d, (n1 ++ n2 ++ n3 ++ before), after.
  repeat split; try done.
  - cbn. rewrite E, E3, E2, E1. by rewrite <- !app_assoc.
  - repeat apply Forall_app_2; try done.
    eapply Forall_impl; [done|apply is_stderr_leaves_output].
Qed.

Lemma compile_success_writes_once_witness :
  let env := Demo.env [Demo.pin "foo" "1.0"] [] Demo.resolves in
  let args := Demo.compile_args [("dry_run", VBool true)] in
  ∃ path d before after,
    getattr args "dry_run" = Ok d ∧
    open_write env path = Ok tt ∧
    trace (Compile.cli env args initial_state).2
      = trace initial_state ++ before
        ++ [EvOpenWrite path; EvWriterWrite (truthy d)] ++ after ∧
    Forall leaves_output before ∧ Forall is_stderr after.
Proof.
  intros env args. apply (compile_success_writes_once env args initial_state).
  by vm_compute.
Defined.

(** In a dry run the output file is opened all the same. *)
Example compile_dry_run_example :
  trace (Compile.cli (Demo.env [Demo.pin "foo" "1.0"] [] Demo.resolves)
           (Demo.compile_args [("dry_run", VBool true)]) initial_state).2
  = [EvParse "requirements.txt"; EvParse "requirements.in"; EvResolve;
     EvOpenWrite "requirements.txt"; EvWriterWrite true;
     Stderr None "Dry-run, so nothing updated."].
Proof. by vm_compute. Qed.

Section ResolverConstraints.
Import Compile.
Context (env : Env).

Lemma collect_constraints_match (src_files : list string)
    (ups : list (string * InstallRequirement)) (to_upgrade : gset string)
    (s s' : State) (cs : list InstallRequirement) :
  collect_constraints env src_files ups to_upgrade s = (Ok cs, s') →
  Forall (λ c, marker_matches c = true) cs.
Proof.
  unfold collect_constraints. intros H.
  apply bind_ok_inv in H as (parts & s1 & _ & H).
  apply bind_ok_inv in H as (primary & s2 & _ & H).
  apply ret_ok_inv in H as [-> _].
  apply Forall_forall. by intros c [? _]%list_elem_of_filter.
Qed.

End ResolverConstraints.

(** Lines 355-357 and 372-374 of compile.py: every constraint handed to the
    [Resolver] has no environment marker or one that evaluates to true. *)
Theorem compile_resolver_constraints (env : Env) (args : gmap string value)
    (s s1 s2 : State) (r : Compile.Setup) (rargs : ResolverArgs) :
  Compile.setup env args s = (Ok r, s1) →
  Compile.resolver_args env args r s1 = (Ok rargs, s2) →
  Forall (λ c, Compile.marker_matches c = true) (constraints rargs).
Proof.
  intros Hsetup Hargs.
  assert (constraints rargs = Compile.setup_constraints r) as ->.
  { unfold Compile.resolver_args in Hargs.
    do 5 (apply bind_ok_inv in Hargs as (? & ? & _ & Hargs)).
    by apply ret_ok_inv in Hargs as [-> _]. }
  unfold Compile.setup in Hsetup.
  apply bind_ok_inv in Hsetup as (src_files & sa & _ & Hsetup).
  apply bind_ok_inv in Hsetup as (output_file & sb & _ & Hsetup).
  apply bind_ok_inv in Hsetup as (pip_args & sc & _ & Hsetup).
  apply bind_ok_inv in Hsetup as (chosen & sd & _ & Hsetup).
  apply bind_ok_inv in Hsetup as (constraints0 & se & Hc & Hsetup).
  apply bind_ok_inv in Hsetup as ([] & sf & _ & Hsetup).
  apply ret_ok_inv in Hsetup as [-> _]. cbn.
  by eapply collect_constraints_match.
Qed.

Lemma compile_resolver_constraints_witness :
  let old_python :=
    {| req := Some {| name := "futures"; specifier := [] |}; link := None;
       editable := false; constraint := false; extras := ∅;
       markers := Some {| marker_text := "python_version < '3'";
                          evaluate := false |};
       hash_options := []; comes_from := None |} in
  let env := Demo.env [Demo.pin "foo" "1.0"; old_python] [] Demo.resolves in
  let args := Demo.compile_args [] in
  ∃ r s1 rargs s2,
    Compile.setup env args initial_state = (Ok r, s1) ∧
    Compile.resolver_args env args r s1 = (Ok rargs, s2) ∧
    Forall (λ c, Compile.marker_matches c = true) (constraints rargs).
Proof.
  intros old_python env args.
  destruct (Compile.setup env args initial_state) as [[r|e] s1] eqn:Hsetup;
    [|by vm_compute in Hsetup].
  destruct (Compile.resolver_args env args r s1) as [[rargs|e] s2] eqn:Hargs.
  2:{ vm_compute in Hsetup. injection Hsetup as <- <-. by vm_compute in Hargs. }
  exists r, s1, rargs, s2. split; [done|]. split; [done|].
  exact (compile_resolver_constraints env args initial_state s1 s2 r rargs
           Hsetup Hargs).
Defined.


Section Constraints.
Import Compile.
Context (env : Env).

Lemma primary_packages_spec (ireqs : list InstallRequirement)
    (primary : gset string) :
  primary_packages ireqs = Ok primary →
  ∀ k, k ∈ primary ↔
       ∃ ireq, ireq ∈ ireqs ∧ constraint ireq = false ∧
               key_from_ireq ireq = Ok k.
Proof.
  revert primary. induction ireqs as [|ireq rest IH]; intros primary; cbn.
  - intros [= <-] k. split; [by intros ?%not_elem_of_empty|].
    by intros (? & ?%elem_of_nil & _).
  - destruct (constraint ireq) eqn:Hc.
    + intros H k. rewrite (IH _ H). split.
      * intros (x & Hx & ?). exists x. split; [by right|done].
      * intros (x & [->|Hx]%elem_of_cons & Hxc & ?); [congruence|eauto].
    + destruct (key_from_ireq ireq) as [k0|] eqn:Hk; [|done]. cbn.
      destruct (primary_packages rest) as [ks|] eqn:Hks; [|done]. cbn.
      intros [= <-] k. rewrite elem_of_union, elem_of_singleton, (IH _ eq_refl).
      split.
      * intros [->|(x & Hx & ?)]; [exists ireq; by split; [left|]|].
        exists x. split; [by right|done].
      * intros (x & [->|Hx]%elem_of_cons & Hxc & Hxk); [left; congruence|].
        right. eauto.
Qed.

End Constraints.

(** Lines 303-357 of compile.py.  The constraints are the requirements
    parsed from the source files, then those of [--upgrade-package] whose
    key is the key of a primary requirement (one of a source file that is
    not a constraint) or of an existing pin set aside for upgrade; of all
    these, the ones without a marker or with a marker that evaluates to
    true. *)
Theorem compile_constraints_spec (env : Env) (src_files : list string)
    (upgrade_install_reqs : list (string * InstallRequirement))
    (existing_pins_to_upgrade : gset string) (s s' : State)
    (constraints0 : list InstallRequirement) :
  Compile.collect_constraints env src_files upgrade_install_reqs
    existing_pins_to_upgrade s = (Ok constraints0, s') →
  ∃ parts,
    map_M (Compile.parse_source env) src_files s = (Ok parts, s') ∧
    ∀ c, c ∈ constraints0 ↔
         Compile.marker_matches c = true ∧
         (c ∈ concat parts ∨
          ∃ k, (k, c) ∈ upgrade_install_reqs ∧
               (k ∈ existing_pins_to_upgrade ∨
                ∃ ireq, ireq ∈ concat parts ∧ constraint ireq = false ∧
                        key_from_ireq ireq = Ok k)).
Proof.
  unfold Compile.collect_constraints. intros H.
  apply bind_ok_inv in H as (parts & s1 & Hparts & H).
  apply bind_ok_inv in H as (primary & s2 & Hprimary & H).
  apply lift_ok_inv in Hprimary as [Hprimary ->].
  apply ret_ok_inv in H as [-> ->].
  exists parts. split; [done|]. intros c.
  pose proof (primary_packages_spec _ _ Hprimary) as Hp.
  rewrite list_elem_of_filter, elem_of_app, list_elem_of_fmap.
  split.
  - intros [Hm [Hc|([k c'] & -> & Hin)]]; (split; [done|]); [by left|].
    right. apply list_elem_of_filter in Hin as [Hk Hin]. cbn in Hk.
    exists k. split; [done|]. apply elem_of_union in Hk as [Hk|Hk].
    + right. by apply Hp.
    + by left.
  - intros [Hm [Hc|(k & Hin & Hk)]]; (split; [done|]); [by left|].
    right. exists (k, c). split; [done|]. apply list_elem_of_filter.
    split; [|done]. cbn. apply elem_of_union.
    destruct Hk as [Hk|Hk]; [by right|left; by apply Hp].
Qed.

Lemma compile_constraints_spec_witness :
  let env := Demo.env [Demo.pin "foo" "1.0"] [] Demo.resolves in
  let ups := [("foo", Demo.pin "foo" "2.0"); ("bar", Demo.pin "bar" "1.0")] in
  ∃ parts,
    map_M (Compile.parse_source env) ["requirements.in"] initial_state
      = (Ok parts,
         {| log := log initial_state; trace := [EvParse "requirements.in"] |}) ∧
    ∀ c, c ∈ [Demo.pin "foo" "1.0"; Demo.pin "foo" "2.0"] ↔
         Compile.marker_matches c = true ∧
         (c ∈ concat parts ∨
          ∃ k, (k, c) ∈ ups ∧
               (k ∈ (∅ : gset string) ∨
                ∃ ireq, ireq ∈ concat parts ∧ constraint ireq = false ∧
                        key_from_ireq ireq = Ok k)).
Proof.
  intros env ups.
  apply (compile_constraints_spec env ["requirements.in"] ups ∅ initial_state).
  by vm_compute.
Defined.

(** Lines 118-126 of sync.py.  With [verbose] readable and source files,
    given or the default [requirements.txt], that are parsed: a [PipToolsError] of [sync.merge] is logged as an error
    and the exit status is 2; [--force] is what [merge] gets as
    [ignore_conflicts]. *)
Theorem sync_lines_118_126 (env : Env) (args : gmap string value)
    (s s1 : State) (v q : Z) (src_files : list string) (force : value)
    (parsed : list InstallRequirement) (msg : string) :
  getattr args "verbose" = Ok (VInt v) → getattr args "quiet" = Ok (VInt q) →
  Sync.choose_src_files env args (with_verbosity (v - q) s)
    = (Ok src_files, with_verbosity (v - q) s) →
  existsb (λ src_file, PyStr.endswith src_file ".in") src_files = false →
  getattr args "force" = Ok force →
  Sync.parse_all env src_files (with_verbosity (v - q) s) = (Ok parsed, s1) →
  merge env parsed (truthy force) = Raise (PipToolsError msg) →
  Sync.cli env args s = (Raise (SystemExit 2), logged Log.RED msg s1) ∧
  exit_status (Sync.cli env args s).1 = 2.
Proof.
  intros Hv Hq Hsrc Hin Hforce Hparse Hmerge.
  assert (Sync.cli env args s = (Raise (SystemExit 2), logged Log.RED msg s1))
    as ->; [|done].
  unfold Sync.cli.
  rewrite (bind_ok _ _ _ _ _ (set_verbosity_from_ok _ _ _ _ Hv Hq)).
  rewrite (bind_ok _ _ _ _ _ Hsrc).
  unfold Sync.check_extensions. rewrite Hin. unfold bind at 1, ret at 1.
  by rewrite (bind_raise _ _ _ _ _
                (merge_requirements_error env _ _ _ _ _ _ _ Hforce Hparse Hmerge)).
Qed.

Lemma sync_lines_118_126_witness :
  let conflict :=
    "Incompatible requirements found: six>1.10.0 and six<1.10.0" in
  let env :=
    with_merge
      (Demo.env []
         [requirement_line "six" [ {| operator := ">"; version := "1.10.0" |} ];
          requirement_line "six" [ {| operator := "<"; version := "1.10.0" |} ]]
         Demo.resolves)
      (λ requirements ignore_conflicts,
         if ignore_conflicts then Ok requirements
         else Raise (PipToolsError conflict)) in
  let args :=
    <["verbose" := VInt 0]> (Demo.sync_args [("dry_run", VBool true)]) in
  Sync.cli env args initial_state
    = (Raise (SystemExit 2),
       {| log := log initial_state;
          trace := [EvParse "requirements.txt";
                    Stderr (Some Log.RED) conflict] |}) ∧
  exit_status (Sync.cli env args initial_state).1 = 2.
Proof.
  intros conflict env args.
  apply (sync_lines_118_126 env args initial_state
           {| log := log initial_state;
              trace := [EvParse "requirements.txt"] |}
           0 0 ["requirements.txt"] (VBool false)
           [requirement_line "six" [ {| operator := ">"; version := "1.10.0" |} ];
            requirement_line "six" [ {| operator := "<"; version := "1.10.0" |} ]]
           conflict); by vm_compute.
Defined.

Section CompileStdin.
Import Compile.
Context (env : Env).

Lemma output_without_file (args : gmap string value) (r : Setup)
    (resolved : Resolution) (s : State) :
  setup_output_file r = None →
  ∃ e new,
    output env args r resolved s = (Raise e, {| log := log s; trace := trace s ++ new |}) ∧
    Forall leaves_output new.
Proof.
  intros Hnone. unfold output. rewrite Hnone.
  destruct (adds_only_debug leaves_output (λ _ _, I) EmptyString s)
    as (new & E & F).
  unfold bind at 1. unfold bind at 1.
  assert (log (Log.debug EmptyString s).2 = log s) as El.
  { unfold Log.debug, bind, get_log. by destruct (1 <=? _). }
  assert (∃ u, (Log.debug EmptyString s).1 = Ok u) as [[] Eu].
  { unfold Log.debug, bind, get_log. destruct (1 <=? _); by eexists. }
  destruct (Log.debug EmptyString s) as [r0 s1]. cbn in E, El, Eu. subst r0.
  unfold raise. eexists _, new. split; [|done].
  destruct s1 as [l t]. cbn in *. by subst.
Qed.



Lemma bind_assoc {A B C} (m : M A) (k : A → M B) (k' : B → M C) (s : State) :
  bind (bind m k) k' s = bind m (λ a, bind (k a) k') s.
Proof. unfold bind. by destruct (m s) as [[a|e] s1]. Qed.

Lemma setup_unfold (args : gmap string value) :
  setup env args
  = bind (choose_src_files env args) (λ src_files,
    bind (choose_output_file args src_files) (λ output_file,
    setup_from env args src_files output_file)).
Proof. reflexivity. Qed.

Lemma setup_from_leaves_output (args : gmap string value)
    (src_files : list string) (output_file : option string) :
  adds_only leaves_output (setup_from env args src_files output_file).
Proof.
  unfold setup_from, compose_pip_args, choose_repository,
    collect_constraints, parse_source, log_sources.
  adds_only_log.
Qed.

Lemma setup_from_output_file (args : gmap string value)
    (src_files : list string) (output_file : option string) (s s' : State)
    (r : Setup) :
  setup_from env args src_files output_file s = (Ok r, s') →
  setup_output_file r = output_file.
Proof.
  unfold setup_from. intros H.
  do 4 (apply bind_ok_inv in H as (? & ? & _ & H)).
  by apply ret_ok_inv in H as [-> _].
Qed.

Lemma choose_src_files_stdin (args : gmap string value) (s : State) :
  getattr args "src_files" = Ok (VList ["-"]) →
  choose_src_files env args s = (Ok ["-"], s).
Proof.
  intros Hsrc. unfold choose_src_files.
  rewrite bind_lift, Hsrc. by rewrite bind_lift.
Qed.

Lemma choose_output_file_stdin (args : gmap string value) (s : State) :
  getattr args "output_file" = Ok VNone →
  choose_output_file args ["-"] s
  = (Ok None,
     logged Log.RED "Error: --output-file is required if input is from stdin" s).
Proof.
  intros Hout. unfold choose_output_file.
  rewrite (bind_run _ _ _ _ _ (attr_opt_str_run _ _ _)), Hout.
  reflexivity.
Qed.

End CompileStdin.

(** [pip-compile -] without [--output-file]: line 220 logs that the option
    is required, and the run goes on.  Whatever it then reads and resolves,
    it does not end normally, and the output file is neither opened nor
    written. *)
Theorem compile_stdin_without_output (env : Env) (args : gmap string value)
    (s : State) (v q : Z) :
  getattr args "verbose" = Ok (VInt v) → getattr args "quiet" = Ok (VInt q) →
  getattr args "src_files" = Ok (VList ["-"]) →
  getattr args "output_file" = Ok VNone →
  ∃ e new,
    (Compile.cli env args s).1 = Raise e ∧
    trace (Compile.cli env args s).2
      = trace s
        ++ Stderr (Some Log.RED)
             (Log.spaces (Z.to_nat (current_indent (log s)))
              +:+ "Error: --output-file is required if input is from stdin")
        :: new ∧
    Forall leaves_output new.
Proof.
  intros Hv Hq Hsrc Hout. unfold Compile.cli.
  rewrite (bind_ok _ _ _ _ _ (set_verbosity_from_ok _ _ _ _ Hv Hq)).
  rewrite setup_unfold, bind_assoc.
  rewrite (bind_ok _ _ _ _ _ (choose_src_files_stdin env _ _ Hsrc)).
  rewrite bind_assoc.
  rewrite (bind_ok _ _ _ _ _ (choose_output_file_stdin _ _ Hout)).
  set (s2 := logged _ _ _).
  assert (trace s2 = trace s ++
            [Stderr (Some Log.RED)
               (Log.spaces (Z.to_nat (current_indent (log s)))
                +:+ "Error: --output-file is required if input is from stdin")])
    as Es2 by done.
  destruct (setup_from_leaves_output env args ["-"] None s2) as (n1 & E1 & F1).
  rewrite Es2 in E1.
  destruct (setup_from env args ["-"] None s2) as [[r|e] s3] eqn:Hfrom;
    cbn [snd] in E1.
  2:{ rewrite (bind_raise _ _ _ _ _ Hfrom). exists e, n1.
      split; [done|]. split; [|done]. cbn [snd]. by rewrite E1, <- app_assoc. }
  rewrite (bind_ok _ _ _ _ _ Hfrom).
  apply setup_from_output_file in Hfrom.
  destruct (resolution_leaves_output env args r s3) as (n2 & E2 & F2).
  destruct (Compile.resolution env args r s3) as [[resolved|e] s4] eqn:Hres;
    cbn [snd] in E2.
  2:{ rewrite (bind_raise _ _ _ _ _ Hres). exists e, (n1 ++ n2).
      split; [done|]. split; [|by apply Forall_app]. cbn [snd].
      by rewrite E2, E1, <- !app_assoc. }
  rewrite (bind_ok _ _ _ _ _ Hres).
  destruct (output_without_file env args r resolved.1 s4 Hfrom)
    as (e & n3 & -> & F3).
  exists e, (n1 ++ n2 ++ n3). split; [done|]. split.
  - cbn [snd trace]. by rewrite E2, E1, <- !app_assoc.
  - by repeat apply Forall_app_2.
Qed.

Lemma compile_stdin_without_output_witness :
  let env := Demo.env [] [] Demo.resolves in
  let args := Demo.compile_args [("src_files", VList ["-"])] in
  ∃ e new,
    (Compile.cli env args initial_state).1 = Raise e ∧
    trace (Compile.cli env args initial_state).2
      = trace initial_state
        ++ Stderr (Some Log.RED)
             (Log.spaces (Z.to_nat (current_indent (log initial_state)))
              +:+ "Error: --output-file is required if input is from stdin")
        :: new ∧
    Forall leaves_output new.
Proof.
  intros env args.
  apply (compile_stdin_without_output env args initial_state 0 0);
    by vm_compute.
Defined.

(** The run of the witness: stdin is read and resolved before the
    [TypeError] of [open(None, "w+b")]. *)
Example compile_stdin_example :
  Compile.cli (Demo.env [] [] Demo.resolves)
    (Demo.compile_args [("src_files", VList ["-"])]) initial_state
  = (Raise (TypeError "expected str, bytes or os.PathLike object"),
     {| log := log initial_state;
        trace := [Stderr (Some Log.RED)
                    "Error: --output-file is required if input is from stdin";
                  EvReadStdin; EvTempFile EmptyString; EvResolve] |}).
Proof. by vm_compute. Qed.

(** ** The attributes the scripts read *)

Section AttributeSafe.

Lemma safe_ret {A} (a : A) : attribute_safe (ret a).
Proof. by intros s. Qed.

Lemma safe_raise {A} (e : exn) :
  no_attribute_error (@Raise A e) → attribute_safe (@raise A e).
Proof. by intros He s. Qed.

Lemma safe_lift {A} (r : result A) :
  no_attribute_error r → attribute_safe (lift r).
Proof. by intros Hr s. Qed.

Lemma safe_get_log : attribute_safe get_log.
Proof. by intros s. Qed.

Lemma safe_set_log l : attribute_safe (set_log l).
Proof. by intros s. Qed.

Lemma safe_emit (e : event) : attribute_safe (emit e).
Proof. by intros s. Qed.

Lemma safe_bind {A B} (m : M A) (k : A → M B) :
  attribute_safe m → (∀ a, attribute_safe (k a)) → attribute_safe (bind m k).
Proof.
  intros Hm Hk s. unfold bind. specialize (Hm s).
  destruct (m s) as [[a|e] s1]; [apply Hk|]. by destruct e.
Qed.

Lemma safe_try_except {A} (body : M A) (handler : string → M A) :
  attribute_safe body → (∀ e, attribute_safe (handler e)) →
  attribute_safe (try_except_PipToolsError body handler).
Proof.
  intros Hm Hk s. unfold try_except_PipToolsError. specialize (Hm s).
  destruct (body s) as [[a|e] s1]; [done|].
  destruct e; try done. apply Hk.
Qed.

Lemma safe_try_finally {A} (body : M A) (cleanup : M unit) :
  attribute_safe body → attribute_safe cleanup →
  attribute_safe (try_finally body cleanup).
Proof.
  intros Hm Hk s. unfold try_finally. specialize (Hm s).
  destruct (body s) as [r s1]. specialize (Hk s1).
  destruct (cleanup s1) as [[[]|e] s2]; [done|]. by destruct e.
Qed.

Lemma safe_for_each {A} (xs : list A) (body : A → M unit) :
  (∀ x, attribute_safe (body x)) → attribute_safe (for_each xs body).
Proof.
  intros Hb. induction xs as [|x xs IH]; cbn; [apply safe_ret|].
  by apply safe_bind.
Qed.

Lemma safe_map_M {A B} (f : A → M B) (xs : list A) :
  (∀ x, attribute_safe (f x)) → attribute_safe (map_M f xs).
Proof.
  intros Hb. induction xs as [|x xs IH]; cbn; [apply safe_ret|].
  apply safe_bind; [done|intros y].
  apply safe_bind; [done|intros ys]. apply safe_ret.
Qed.

Lemma no_attribute_error_rbind {A B} (r : result A) (k : A → result B) :
  no_attribute_error r → (∀ a, no_attribute_error (k a)) →
  no_attribute_error (rbind r k).
Proof.
  intros Hr Hk. destruct r as [a|e]; [apply Hk|]. by destruct e.
Qed.

Lemma no_attribute_error_key (ireq : InstallRequirement) :
  no_attribute_error (key_from_ireq ireq).
Proof. unfold key_from_ireq. by destruct (req ireq), (link ireq). Qed.

Lemma no_attribute_error_as_list v : no_attribute_error (as_list v).
Proof. by destruct v. Qed.

Lemma no_attribute_error_as_opt_str v : no_attribute_error (as_opt_str v).
Proof. by destruct v. Qed.

Lemma no_attribute_error_py_sub a b : no_attribute_error (py_sub a b).
Proof. by destruct a as [| [] | | |], b as [| [] | | |]. Qed.

Section WithArgs.
Context (args : gmap string value) (declared : list string).
Hypothesis Hdeclared : ∀ attr, attr ∈ declared → is_Some (args !! attr).

Lemma no_attribute_error_getattr (attr : string) :
  attr ∈ declared → no_attribute_error (getattr args attr).
Proof.
  intros [v Hv]%Hdeclared. unfold getattr. by rewrite Hv.
Qed.

Lemma safe_attr_truthy (attr : string) :
  attr ∈ declared → attribute_safe (attr_truthy args attr).
Proof.
  intros H. unfold attr_truthy. apply safe_bind; [|intros; apply safe_ret].
  by apply safe_lift, no_attribute_error_getattr.
Qed.

Lemma safe_attr_list (attr : string) :
  attr ∈ declared → attribute_safe (attr_list args attr).
Proof.
  intros H. unfold attr_list. apply safe_bind.
  - by apply safe_lift, no_attribute_error_getattr.
  - intros v. apply safe_lift, no_attribute_error_as_list.
Qed.

Lemma safe_attr_opt_str (attr : string) :
  attr ∈ declared → attribute_safe (attr_opt_str args attr).
Proof.
  intros H. unfold attr_opt_str. apply safe_bind.
  - by apply safe_lift, no_attribute_error_getattr.
  - intros v. apply safe_lift, no_attribute_error_as_opt_str.
Qed.

Lemma safe_set_verbosity_from :
  "verbose" ∈ declared → "quiet" ∈ declared →
  attribute_safe (set_verbosity_from args).
Proof.
  intros Hv Hq. unfold set_verbosity_from, Log.set_verbosity.
  apply safe_bind; [by apply safe_lift, no_attribute_error_getattr|intros v].
  apply safe_bind; [by apply safe_lift, no_attribute_error_getattr|intros q].
  apply safe_bind; [apply safe_lift, no_attribute_error_py_sub|intros d].
  apply safe_bind; [apply safe_get_log|intros l]. apply safe_set_log.
Qed.

End WithArgs.

Lemma safe_log_ fore message : attribute_safe (Log.log_ fore message).
Proof. by intros s. Qed.

Lemma safe_debug message : attribute_safe (Log.debug message).
Proof. intros s. unfold Log.debug, bind, get_log. by destruct (1 <=? _). Qed.

Lemma safe_info message : attribute_safe (Log.info message).
Proof. intros s. unfold Log.info, bind, get_log. by destruct (0 <=? _). Qed.

Lemma safe_indentation {A} (body : M A) :
  attribute_safe body → attribute_safe (Log.indentation body).
Proof.
  intros Hb. unfold Log.indentation, Log._indent, Log._dedent.
  apply safe_bind; [|intros _; apply safe_try_finally; [done|]];
    (apply safe_bind; [apply safe_get_log|intros l; apply safe_set_log]).
Qed.

End AttributeSafe.

Ltac declared :=
  apply (bool_decide_unpack _); by vm_compute.

Ltac safe_step args Hdeclared leaf :=
  first
    [ apply safe_ret | apply safe_get_log | apply safe_set_log
    | apply safe_emit | apply safe_debug | apply safe_info | apply safe_log_
    | apply safe_indentation
    | apply safe_raise; done
    | apply (safe_attr_truthy args _ Hdeclared); declared
    | apply (safe_attr_list args _ Hdeclared); declared
    | apply (safe_attr_opt_str args _ Hdeclared); declared
    | apply (safe_set_verbosity_from args _ Hdeclared); declared
    | apply safe_lift;
      first [ apply (no_attribute_error_getattr args _ Hdeclared); declared
            | apply no_attribute_error_as_list
            | leaf ]
    | leaf
    | apply safe_bind; [|intros ?]
    | apply safe_try_except; [|intros ?]
    | apply safe_for_each; intros ?
    | apply safe_map_M; intros ?
    | match goal with
      | |- attribute_safe (if ?b then _ else _) => destruct b
      | |- attribute_safe (match ?x with _ => _ end) => destruct x
      | |- attribute_safe (let '(_, _) := ?x in _) => destruct x
      end ].

Section CompileAttributes.
Import Compile.
Context (env : Env) (Henv : raises_no_attribute_error env).
Context (args : gmap string value).
Hypothesis Hdeclared :
  ∀ attr, attr ∈ Argparse.dest <$> add_args EmptyString → is_Some (args !! attr).

Lemma no_attribute_error_upgrade_reqs (packages : list string)
    (acc : list (string * InstallRequirement)) :
  no_attribute_error (upgrade_reqs (install_req_from_line env) packages acc).
Proof.
  revert acc. induction packages as [|pkg rest IH]; intros acc; cbn; [done|].
  apply no_attribute_error_rbind; [apply Henv|intros ireq].
  apply no_attribute_error_rbind; [apply no_attribute_error_key|intros k].
  apply IH.
Qed.

Lemma no_attribute_error_existing_pins ups ireqs :
  no_attribute_error (existing_pins_of ups ireqs).
Proof. by destruct (existing_pins_of_total ups ireqs) as [st ->]. Qed.

Lemma no_attribute_error_primary (ireqs : list InstallRequirement) :
  no_attribute_error (primary_packages ireqs).
Proof.
  induction ireqs as [|ireq rest IH]; cbn; [done|].
  destruct (constraint ireq); [done|].
  apply no_attribute_error_rbind; [apply no_attribute_error_key|intros k].
  by apply no_attribute_error_rbind.
Qed.

Lemma no_attribute_error_markers (ireqs : list InstallRequirement) :
  no_attribute_error (markers_by_key ireqs).
Proof.
  induction ireqs as [|ireq rest IH]; cbn; [done|].
  destruct (markers ireq); [|done].
  apply no_attribute_error_rbind; [apply no_attribute_error_key|intros k].
  by apply no_attribute_error_rbind.
Qed.

Lemma compile_cli_attribute_safe : attribute_safe (cli env args).
Proof.
  unfold cli, setup, choose_src_files, choose_output_file, compose_pip_args,
    choose_repository, collect_constraints, parse_source, log_sources,
    resolution, resolver_args, output, sys_exit, Log.error, Log.warning.
  repeat safe_step args Hdeclared
    ltac:(first [ apply no_attribute_error_upgrade_reqs
                | apply no_attribute_error_existing_pins
                | apply no_attribute_error_primary
                | apply no_attribute_error_markers
                | apply Henv ]).
Qed.

End CompileAttributes.

Section SyncAttributes.
Import Sync.
Context (env : Env) (Henv : raises_no_attribute_error env).
Context (args : gmap string value).
Hypothesis Hdeclared :
  ∀ attr, attr ∈ "verbose" :: (Argparse.dest <$> add_args) →
          is_Some (args !! attr).

Lemma safe_sync_exit to_install to_uninstall dry_run install_flags ask :
  @attribute_safe unit
    (let '(effects, status) :=
       sync env to_install to_uninstall dry_run install_flags ask in
     for_each effects (λ e, emit (EvSync e)) >>
     let! code := lift status in
     sys_exit code).
Proof.
  destruct Henv as (_ & _ & _ & _ & _ & _ & _ & _ & _ & Hsync).
  specialize (Hsync to_install to_uninstall dry_run install_flags ask).
  destruct (sync env _ _ _ _ _) as [effects status]. cbn in Hsync.
  apply safe_bind; [apply safe_for_each; intros; apply safe_emit|intros _].
  apply safe_bind; [by apply safe_lift|intros code]. by apply safe_raise.
Qed.

Lemma sync_cli_attribute_safe : attribute_safe (cli env args).
Proof.
  unfold cli, choose_src_files, check_extensions, merge_requirements,
    parse_all, run_sync, sys_exit, Log.error, Log.warning.
  repeat safe_step args Hdeclared
    ltac:(first [ apply safe_sync_exit | apply Henv ]).
Qed.

End SyncAttributes.

(** Every attribute [pip-compile] reads is one [add_args] declares: on a
    parsed namespace no run ends in an [AttributeError], unless pip, the
    resolver or the writer raise one of their own. *)
Theorem compile_reads_declared_attributes (env : Env) (cache_dir : string)
    (given : list (string * value)) (s : State) :
  raises_no_attribute_error env →
  no_attribute_error
    (Compile.cli env
       (Argparse.parse_args (Compile.add_args cache_dir) given) s).1.
Proof.
  intros Henv. apply compile_cli_attribute_safe; [done|].
  intros attr Hattr. by apply parse_args_lookup_Some.
Qed.

(** [verbose] is the only attribute [pip-sync] reads that its [add_args]
    does not declare: once the namespace has it, no run ends in an
    [AttributeError]. *)
Theorem sync_reads_verbose_undeclared (env : Env)
    (given : list (string * value)) (verbose : value) (s : State) :
  raises_no_attribute_error env →
  no_attribute_error
    (Sync.cli env
       (<["verbose" := verbose]> (Argparse.parse_args Sync.add_args given)) s).1.
Proof.
  intros Henv. apply sync_cli_attribute_safe; [done|].
  intros attr [->|Hattr]%elem_of_cons.
  - by rewrite lookup_insert_eq.
  - destruct (decide (attr = "verbose")) as [->|Hne].
    + by rewrite lookup_insert_eq.
    + rewrite lookup_insert_ne by done. by apply parse_args_lookup_Some.
Qed.

Lemma demo_raises_no_attribute_error sources prior resolution :
  (∀ a, no_attribute_error (resolution a)) →
  raises_no_attribute_error (Demo.env sources prior resolution).
Proof.
  intros Hres. repeat split; try done; cbn.
  - intros line c. unfold RequirementLine.install_req_from_line.
    repeat case_match; done.
  - intros path. by repeat case_bool_decide.
  - intros ti tu d fl a. unfold PipSync.sync. by repeat case_match.
Qed.

Lemma compile_reads_declared_attributes_witness :
  no_attribute_error
    (Compile.cli (Demo.env [Demo.pin "foo" "1.0"] [] Demo.resolves)
       (Argparse.parse_args (Compile.add_args "/cache") []) initial_state).1.
Proof.
  apply (compile_reads_declared_attributes
           (Demo.env [Demo.pin "foo" "1.0"] [] Demo.resolves) "/cache" []
           initial_state).
  by apply demo_raises_no_attribute_error.
Defined.

Lemma sync_reads_verbose_undeclared_witness :
  no_attribute_error
    (Sync.cli (Demo.env [] [Demo.pin "foo" "1.0"] Demo.resolves)
       (<["verbose" := VInt 0]> (Argparse.parse_args Sync.add_args []))
       initial_state).1.
Proof.
  apply (sync_reads_verbose_undeclared
           (Demo.env [] [Demo.pin "foo" "1.0"] Demo.resolves) [] (VInt 0)
           initial_state).
  by apply demo_raises_no_attribute_error.
Defined.

(** ** Examples *)

(** The examples of the docstring of [is_pinned_requirement]. *)
Example is_pinned_requirement_docstring :
  is_pinned_requirement
    (requirement_line "django" [ {| operator := "=="; version := "1.8" |} ]) = true ∧
  is_pinned_requirement
    (requirement_line "django" [ {| operator := ">"; version := "1.8" |} ]) = false ∧
  is_pinned_requirement
    (requirement_line "django" [ {| operator := "~="; version := "1.8" |} ]) = false ∧
  is_pinned_requirement
    (requirement_line "django" [ {| operator := "=="; version := "1.*" |} ]) = false.
Proof. repeat split. Qed.

Example key_from_req_examples :
  key_from_req (OfRequirement {| name := "Flask_SQLAlchemy"; specifier := [] |})
    = "flask-sqlalchemy" ∧
  key_from_req (OfDistribution {| key := "zope.interface";
                                  project_name := "zope.interface" |})
    = "zope.interface".
Proof. split; reflexivity. Qed.

(** The namespace of [pip-sync] without arguments: no [verbose]. *)
Example sync_namespace_example :
  Argparse.parse_args Sync.add_args [] !! "quiet" = Some (VInt 0) ∧
  Argparse.parse_args Sync.add_args [] !! "user_only" = Some (VBool false) ∧
  Argparse.parse_args Sync.add_args [] !! "verbose" = None.
Proof. repeat split; by vm_compute. Qed.

(** [pip-compile] in the demo directory: the prior pin is read, the sources
    are parsed, the resolver runs, and the output file is opened and
    written last. *)
Example compile_run_example :
  let run :=
    Compile.cli (Demo.env [Demo.pin "foo" "1.0"] [Demo.pin "foo" "1.0"]
                   Demo.resolves)
      (Demo.compile_args [("verbose", VInt 1)]) initial_state in
  run.1 = Ok tt ∧
  trace run.2 =
    [EvParse "requirements.txt"; EvParse "requirements.in";
     Stderr None "Using indexes:"; Stderr None "  https://pypi.org/simple";
     EvResolve; Stderr None EmptyString;
     EvOpenWrite "requirements.txt"; EvWriterWrite false].
Proof. split; by vm_compute. Qed.

(** The flags pip-sync composes for [pip install]. *)
Example compose_install_flags_example :
  Sync._compose_install_flags "https://pypi.org/simple"
    {| index_urls := ["https://example.com/simple"; "https://extra.example.com"];
       trusted_hosts := ["example.com"]; find_links := [];
       allow_all_prereleases := false;
       no_binary := {[ ":all:" ]}; only_binary := ∅ |}
    false None [] [] ["./libs"] true (Some "ca.crt") None
  = ["--index-url"; "https://example.com/simple";
     "--extra-index-url"; "https://extra.example.com";
     "--trusted-host"; "example.com"; "--find-links"; "./libs";
     "--no-binary"; ":all:"; "--user"; "--cert"; "ca.crt"].
Proof. by vm_compute. Qed.
